(** * sync-storage: the storage core, embedded and verified

    A shallow embedding of [packages/core] of the sync-storage repository:
    the utility layer ([utils.ts]), the error taxonomy ([errors.ts]), the
    SQL adapters over text columns ([adapters/sqlite.ts],
    [adapters/turso.ts]), the key-value adapter ([adapters/redis.ts])
    and the storage service ([service/storage-service.ts]); and, of the
    HTTP application ([apps/api]), the error handlers and the resolution
    of the actor of a request.  The adapter of [adapters/postgres.ts]
    takes the same steps over timestamp columns, which the database
    compares as instants.

    Conventions of the embedding.
    - A JavaScript string is the sequence of its bytes (UTF-8).
      [String.leb] and [String.ltb] are the lexicographic byte order, which
      is what the binary collation of the database computes.  The source
      itself counts and compares UTF-16 code units: [Js.codeUnits] gives
      them, [Js.length] is [s.length], and [Js.leb], [Js.ltb] are the
      operators [<=] and [<] on strings.
    - A timestamp is the number of milliseconds since the epoch.  The source
      keeps timestamps as the texts of [toISOString] and compares them as
      texts: [Date.text_leb] is that order, which is the order of the
      instants from the year 0 to the year 9999 and puts every other year
      before them.  A time value outside the range of [Date] has no text:
      [toISOString] throws.
    - Every operation reads the clock once: the parameter [now], a valid
      date.
    - An integer-valued JavaScript number is a [Z]; [clampLimit], which also
      has to treat [NaN], the infinities and fractions, takes a [JsNumber].
      Reading and printing an integer ([parseInt], [String(n)], the
      template of the ETag) are exact, which they are in the source up to
      [2^53]; versions, which count the writes to a key, stay below, and
      the statements about numbers that a caller chooses are made for
      such integers.
    - A thrown error of [errors.ts] is the [Err] case of [Result], any
      other thrown error the [Throw] case; a mutated backend is a state
      passed in and returned. *)

From Stdlib Require Import ZArith QArith Qround String Ascii List Lia Bool.
From Stdlib Require Import DecimalString DecimalPos.
From stdpp Require Import base option list gmap strings sorting.

Local Open Scope Z_scope.

(** Appending to a string that starts with a character unfolds under
    [simpl]. *)
Local Arguments String.append !s1 s2 : simpl nomatch.

(* ================================================================== *)
(** * Errors ([errors.ts]) *)

Module Errors.

Inductive SyncStorageError : Type :=
| ValidationError (message : string)
| UnauthorizedError (message : string)
| NotFoundError (message : string)
| PreconditionFailedError (message : string)
| InternalError (message : string).

Definition status (e : SyncStorageError) : Z :=
  match e with
  | ValidationError _ => 400
  | UnauthorizedError _ => 401
  | NotFoundError _ => 404
  | PreconditionFailedError _ => 412
  | InternalError _ => 500
  end.

Definition code (e : SyncStorageError) : string :=
  match e with
  | ValidationError _ => "VALIDATION_ERROR"
  | UnauthorizedError _ => "UNAUTHORIZED"
  | NotFoundError _ => "NOT_FOUND"
  | PreconditionFailedError _ => "PRECONDITION_FAILED"
  | InternalError _ => "INTERNAL_ERROR"
  end.

Definition isPreconditionFailed (e : SyncStorageError) : bool :=
  match e with PreconditionFailedError _ => true | _ => false end.

Definition isValidation (e : SyncStorageError) : bool :=
  match e with ValidationError _ => true | _ => false end.

End Errors.
Export Errors.

(** What the platform throws in this code besides the errors of
    [errors.ts]: the [RangeError] of [toISOString] on an invalid date. *)
Inductive JsError : Type :=
| RangeError (message : string).

(** The outcome of a call that may throw. *)
Inductive Result (A : Type) : Type :=
| Ok (a : A)
| Err (e : SyncStorageError)
| Throw (x : JsError).
Arguments Ok {A} a.
Arguments Err {A} e.
Arguments Throw {A} x.

Definition isOk {A} (r : Result A) : bool :=
  match r with Ok _ => true | _ => false end.

Definition raisesPrecondition {A} (r : Result A) : bool :=
  match r with Err e => isPreconditionFailed e | _ => false end.

Definition raisesValidation {A} (r : Result A) : bool :=
  match r with Err e => isValidation e | _ => false end.

(* ================================================================== *)
(** * Entity shapes ([types.ts], [adapters/types.ts]) *)

(** A JSON value is kept as its canonical text, the string that
    [JSON.stringify] gives; [serializeJson] and [parseJson] are then the
    identity on the representation. *)
Definition JsonValue : Type := string.

Definition Timestamp : Type := Z.

Record StorageScope : Type := mkScope {
  tenantId : string;
  namespace : string;
  userId : string
}.

Record StoredItem : Type := mkItem {
  key : string;
  value : JsonValue;
  version : Z;
  etag : string;
  createdAt : Timestamp;
  updatedAt : Timestamp;
  expiresAt : option Timestamp
}.

Record ListResult : Type := mkListResult {
  items : list StoredItem;
  nextCursor : option string
}.

Record PutOptions : Type := mkPutOptions {
  ttlSeconds : option Z;
  ifMatchVersion : option Z
}.

Record DeleteOptions : Type := mkDeleteOptions {
  del_ifMatchVersion : option Z
}.

Record ListOptions : Type := mkListOptions {
  prefix : option string;
  cursor : option string;
  limit : option Z
}.

Record BatchPutEntry : Type := mkEntry {
  entry_key : string;
  entry_value : JsonValue;
  entry_ttlSeconds : option Z;
  entry_ifMatchVersion : option Z
}.

Global Instance StorageScope_eq_dec : EqDecision StorageScope.
Proof. solve_decision. Defined.

Global Instance StoredItem_eq_dec : EqDecision StoredItem.
Proof. solve_decision. Defined.

(* ================================================================== *)
(** * Utility layer ([utils.ts]) *)

(** ** Dates and their ISO texts *)

Module Date.

(** The time values of a [Date]: at most [8.64e15] milliseconds from the
    epoch. *)
Definition maxTime : Z := 8640000000000000.

(** [new Date(ms)] for an integer [ms]; [None] is the invalid date. *)
Definition ofTime (ms : Z) : option Timestamp :=
  if (- maxTime <=? ms) && (ms <=? maxTime) then Some ms else None.

(** The year of an instant in the proleptic Gregorian calendar, in UTC:
    the day number, counted from the first of March of the year 0, is
    split into eras of 400 years and the year of the era. *)
Definition year (t : Timestamp) : Z :=
  let days := t / 86400000 in
  let z := days + 719468 in
  let era := z / 146097 in
  let doe := z - era * 146097 in
  let yoe := (doe - doe / 1460 + doe / 36524 - doe / 146096) / 365 in
  let doy := doe - (365 * yoe + yoe / 4 - yoe / 100) in
  let mp := (5 * doy + 2) / 153 in
  let m := if mp <? 10 then mp + 3 else mp - 9 in
  yoe + era * 400 + (if m <=? 2 then 1 else 0).

(** [toISOString] writes a year from 0 to 9999 with four digits, a later
    year as [+] and six digits, an earlier one as [-] and the six digits
    of its absolute value; month, day and time follow in a fixed width.
    Texts are compared character by character, and [+] comes before [-],
    which comes before the digits.  So the texts are ordered by: the rank
    of the first character; among the years before 0 the absolute value
    of the year; the instant. *)
Definition textKey (t : Timestamp) : Z * Z * Z :=
  let y := year t in
  if y <? 0 then (1, - y, t)
  else if 9999 <? y then (0, 0, t)
  else (2, 0, t).

Definition text_compare (a b : Timestamp) : comparison :=
  let '(ra, ya, ta) := textKey a in
  let '(rb, yb, tb) := textKey b in
  match ra ?= rb with
  | Eq => match ya ?= yb with
          | Eq => ta ?= tb
          | c => c
          end
  | c => c
  end.

(** [a.toISOString() <= b.toISOString()] and [<]. *)
Definition text_leb (a b : Timestamp) : bool :=
  match text_compare a b with Gt => false | _ => true end.

Definition text_ltb (a b : Timestamp) : bool :=
  match text_compare a b with Lt => true | _ => false end.

End Date.

Definition invalidTime : JsError := RangeError "Invalid time value".

Module Utils.

(** [nowIso(date)] on a valid date: its text, kept as the instant. *)
Definition nowIso (date : Timestamp) : Timestamp := date.

(** [isExpired(expiresAt, now)]: [false] without an expiry, else
    [expiresAt <= now.toISOString()], a comparison of texts. *)
Definition isExpired (expiresAt : option Timestamp) (now : Timestamp) : bool :=
  match expiresAt with
  | None => false
  | Some e => Date.text_leb e now
  end.

Definition serializeJson (value : JsonValue) : string := value.
Definition parseJson (valueJson : string) : JsonValue := valueJson.

(** [String(n)] for an integer [n]: its decimal numeral, which is what
    the platform prints below [1e21]. *)
Definition string_of_Z (n : Z) : string := NilZero.string_of_int (Z.to_int n).

Definition dquote : ascii := Ascii.ascii_of_nat 34.

(** [etagFromVersion]: the version between double quotes. *)
Definition etagFromVersion (version : Z) : string :=
  String dquote (string_of_Z version +:+ String dquote "").

(** ** [String.prototype.trim] and [Number.parseInt] *)

(** The white space and line terminators of the language, by their
    bytes.  One byte: tab, line feed, vertical tab, form feed, carriage
    return, space. *)
Definition is_ws (c : ascii) : bool :=
  let n := N_of_ascii c in
  ((9 <=? n) && (n <=? 13) || (n =? 32))%N.

(** Two bytes: U+00A0. *)
Definition is_ws2 (a b : ascii) : bool :=
  ((N_of_ascii a =? 194) && (N_of_ascii b =? 160))%N.

(** Three bytes: U+1680, U+2000 to U+200A, U+2028, U+2029, U+202F,
    U+205F, U+3000, U+FEFF. *)
Definition is_ws3 (a b c : ascii) : bool :=
  let x := N_of_ascii a in
  let y := N_of_ascii b in
  let z := N_of_ascii c in
  ((x =? 225) && (y =? 154) && (z =? 128)
   || (x =? 226) && (y =? 128)
      && ((128 <=? z) && (z <=? 138) || (z =? 168) || (z =? 169) || (z =? 175))
   || (x =? 226) && (y =? 129) && (z =? 159)
   || (x =? 227) && (y =? 128) && (z =? 128)
   || (x =? 239) && (y =? 187) && (z =? 191))%N.

(** What follows a white space character at the head of [s]. *)
Definition after_ws (s : string) : option string :=
  match s with
  | String a r =>
      if is_ws a then Some r
      else match r with
           | String b r' =>
               if is_ws2 a b then Some r'
               else match r' with
                    | String c r'' => if is_ws3 a b c then Some r'' else None
                    | EmptyString => None
                    end
           | EmptyString => None
           end
  | EmptyString => None
  end.

Fixpoint trimStart (s : string) : string :=
  match s with
  | String a r =>
      if is_ws a then trimStart r
      else match r with
           | String b r' =>
               if is_ws2 a b then trimStart r'
               else match r' with
                    | String c r'' => if is_ws3 a b c then trimStart r'' else s
                    | EmptyString => s
                    end
           | EmptyString => s
           end
  | EmptyString => EmptyString
  end.

(** A text that is one white space character. *)
Definition is_ws_char (s : string) : bool :=
  match after_ws s with
  | Some EmptyString => true
  | _ => false
  end.

Fixpoint trimEnd (s : string) : string :=
  match s with
  | String c r =>
      let kept := String c (trimEnd r) in
      if is_ws_char kept then EmptyString else kept
  | EmptyString => EmptyString
  end.

Definition trim (s : string) : string := trimEnd (trimStart s).

Definition digit_value (c : ascii) : option Z :=
  let n := N_of_ascii c in
  if ((48 <=? n) && (n <=? 57))%N then Some (Z.of_N n - 48) else None.

(** The value of the longest prefix of decimal digits, read after [acc];
    [seen] tells whether a digit has been read. *)
Fixpoint parse_digits (s : string) (seen : bool) (acc : Z) : option Z :=
  match s with
  | String c r =>
      match digit_value c with
      | Some d => parse_digits r true (10 * acc + d)
      | None => if seen then Some acc else None
      end
  | EmptyString => if seen then Some acc else None
  end.

(** [Number.parseInt(s, 10)]: the integer that the digits denote, which
    is what the platform returns up to [2^53] (beyond, it returns the
    nearest double); [None] is [NaN]. *)
Definition parseInt (s : string) : option Z :=
  match trimStart s with
  | String "-" r => Z.opp <$> parse_digits r false 0
  | String "+" r => parse_digits r false 0
  | r => parse_digits r false 0
  end.

(** [s.startsWith(p)]. *)
Fixpoint startsWith (s p : string) {struct p} : bool :=
  match p with
  | EmptyString => true
  | String a p' =>
      match s with
      | String c s' => bool_decide (c = a) && startsWith s' p'
      | EmptyString => false
      end
  end.

Fixpoint lastChar (s : string) : option ascii :=
  match s with
  | EmptyString => None
  | String c EmptyString => Some c
  | String _ r => lastChar r
  end.

Definition endsWithQuote (s : string) : bool :=
  match lastChar s with
  | Some c => bool_decide (c = dquote)
  | None => false
  end.

(** [s.slice(1, -1)]. *)
Definition slice_1_m1 (s : string) : string :=
  String.substring 1 (String.length s - 2) s.

(** [normalizeIfMatch]. *)
Definition normalizeIfMatch (ifMatch : option string) : option Z :=
  match ifMatch with
  | None | Some EmptyString => None
  | Some s =>
      let trimmed := trim s in
      let withoutQuotes :=
        if startsWith trimmed (String dquote "") && endsWithQuote trimmed
        then slice_1_m1 trimmed else trimmed in
      match parseInt withoutQuotes with
      | None => None
      | Some parsed => if parsed <=? 0 then None else Some parsed
      end
  end.

End Utils.
Export Utils.


(* ================================================================== *)
(** * Cursors: base64url of the key bytes ([encodeCursor], [decodeCursor]) *)

Module Base64Url.

(** Six bits, the most significant first. *)
Record sextet : Type := Sx { s5 : bool; s4 : bool; s3 : bool; s2 : bool; s1 : bool; s0 : bool }.

Definition sextet_index (s : sextet) : N :=
  let b (x : bool) (w : N) : N := if x then w else 0%N in
  (b (s5 s) 32 + b (s4 s) 16 + b (s3 s) 8 + b (s2 s) 4 + b (s1 s) 2 + b (s0 s) 1)%N.

Definition sextet_of_index (n : N) : sextet :=
  Sx (N.testbit n 5) (N.testbit n 4) (N.testbit n 3)
     (N.testbit n 2) (N.testbit n 1) (N.testbit n 0).

(** The URL-safe alphabet: [A-Z], [a-z], [0-9], [-], [_]. *)
Definition alphabet_char (n : N) : ascii :=
  if (n <? 26)%N then ascii_of_N (65 + n)
  else if (n <? 52)%N then ascii_of_N (97 + (n - 26))
  else if (n <? 62)%N then ascii_of_N (48 + (n - 52))
  else if (n =? 62)%N then "-"%char
  else "_"%char.

(** The decoder of the platform reads the standard alphabet ([+], [/])
    as well as the URL-safe one. *)
Definition alphabet_index (c : ascii) : option N :=
  let n := N_of_ascii c in
  if ((65 <=? n) && (n <=? 90))%N then Some (n - 65)%N
  else if ((97 <=? n) && (n <=? 122))%N then Some (n - 97 + 26)%N
  else if ((48 <=? n) && (n <=? 57))%N then Some (n - 48 + 52)%N
  else if ((n =? 45) || (n =? 43))%N then Some 62%N
  else if ((n =? 95) || (n =? 47))%N then Some 63%N
  else None.

Definition b64char (s : sextet) : ascii := alphabet_char (sextet_index s).
Definition b64val (c : ascii) : option sextet := sextet_of_index <$> alphabet_index c.

(** Three bytes are four sextets; a last group of one or two bytes is
    two or three sextets, padded with zero bits and written without [=]. *)
Fixpoint sextets_of_bytes (s : string) : list sextet :=
  match s with
  | String (Ascii x0 x1 x2 x3 x4 x5 x6 x7)
      (String (Ascii y0 y1 y2 y3 y4 y5 y6 y7)
         (String (Ascii z0 z1 z2 z3 z4 z5 z6 z7) r)) =>
      Sx x7 x6 x5 x4 x3 x2 :: Sx x1 x0 y7 y6 y5 y4
        :: Sx y3 y2 y1 y0 z7 z6 :: Sx z5 z4 z3 z2 z1 z0 :: sextets_of_bytes r
  | String (Ascii x0 x1 x2 x3 x4 x5 x6 x7)
      (String (Ascii y0 y1 y2 y3 y4 y5 y6 y7) EmptyString) =>
      [Sx x7 x6 x5 x4 x3 x2; Sx x1 x0 y7 y6 y5 y4; Sx y3 y2 y1 y0 false false]
  | String (Ascii x0 x1 x2 x3 x4 x5 x6 x7) EmptyString =>
      [Sx x7 x6 x5 x4 x3 x2; Sx x1 x0 false false false false]
  | EmptyString => []
  end.

Fixpoint bytes_of_sextets (l : list sextet) : string :=
  match l with
  | Sx x7 x6 x5 x4 x3 x2 :: Sx x1 x0 y7 y6 y5 y4
      :: Sx y3 y2 y1 y0 z7 z6 :: Sx z5 z4 z3 z2 z1 z0 :: r =>
      String (Ascii x0 x1 x2 x3 x4 x5 x6 x7)
        (String (Ascii y0 y1 y2 y3 y4 y5 y6 y7)
           (String (Ascii z0 z1 z2 z3 z4 z5 z6 z7) (bytes_of_sextets r)))
  | [Sx x7 x6 x5 x4 x3 x2; Sx x1 x0 y7 y6 y5 y4; Sx y3 y2 y1 y0 _ _] =>
      String (Ascii x0 x1 x2 x3 x4 x5 x6 x7)
        (String (Ascii y0 y1 y2 y3 y4 y5 y6 y7) EmptyString)
  | [Sx x7 x6 x5 x4 x3 x2; Sx x1 x0 _ _ _ _] =>
      String (Ascii x0 x1 x2 x3 x4 x5 x6 x7) EmptyString
  | _ => EmptyString
  end.

Definition encode (bytes : string) : string :=
  string_of_list_ascii (b64char <$> sextets_of_bytes bytes).

(** Characters outside the alphabet are skipped. *)
Definition decode (text : string) : string :=
  bytes_of_sextets (omap b64val (list_ascii_of_string text)).

End Base64Url.

Module Cursor.

(** [encodeCursor(key)]: [Buffer.from(key, 'utf8').toString('base64url')]. *)
Definition encodeCursor (key : string) : string := Base64Url.encode key.

(** [decodeCursor(cursor)]: no key for an absent or empty cursor.  The
    decoded bytes are the key when the cursor is one that [encodeCursor]
    made of a well-formed text, as the cursors of [list] are; on other
    texts the platform also replaces bytes that are no UTF-8 and stops at
    a padding character. *)
Definition decodeCursor (cursor : option string) : option string :=
  match cursor with
  | None | Some EmptyString => None
  | Some c => Some (Base64Url.decode c)
  end.

End Cursor.
Export Cursor.

(* ================================================================== *)
(** * [clampLimit] *)

Module Clamp.

(** A JavaScript number as [clampLimit] can receive it. *)
Inductive JsNumber : Type :=
| NaN
| PosInfinity
| NegInfinity
| Finite (q : Q).

Definition ofZ (n : Z) : JsNumber := Finite (inject_Z n).

(** [!limit] on a number: true for [0] and [NaN]. *)
Definition falsy (n : JsNumber) : bool :=
  match n with
  | NaN => true
  | Finite q => Qnum q =? 0
  | _ => false
  end.

Definition isFinite (n : JsNumber) : bool :=
  match n with Finite _ => true | _ => false end.

(** [Math.trunc] on a finite number: rounding towards zero. *)
Definition trunc (q : Q) : Z := Z.quot (Qnum q) (Z.pos (Qden q)).

(** [clampLimit(limit, max, fallback)]. *)
Definition clampLimit (limit : option JsNumber) (max fallback : Z) : Z :=
  match limit with
  | None => fallback
  | Some n =>
      if falsy n || negb (isFinite n) then fallback
      else match n with
           | Finite q =>
               let sanitized := Z.max 1 (trunc q) in
               Z.min sanitized max
           | _ => fallback
           end
  end.

End Clamp.
Export Clamp.

(* ================================================================== *)
(** * Array and query helpers shared by the adapters *)

Module Js.

(** [xs.slice(0, n)]: a negative [n] counts from the end. *)
Definition slice0 {A} (n : Z) (xs : list A) : list A :=
  if n <? 0 then take (length xs - Z.to_nat (- n)) xs
  else take (Z.to_nat n) xs.

(** [xs.length > n]. *)
Definition length_gt {A} (xs : list A) (n : Z) : bool :=
  n <? Z.of_nat (length xs).

(** [xs.length === 0]. *)
Definition is_nil {A} (xs : list A) : bool :=
  match xs with [] => true | _ => false end.

(** A string option as a condition: absent and empty are false. *)
Definition truthy (s : option string) : option string :=
  match s with
  | None | Some EmptyString => None
  | Some s => Some s
  end.

(** [ttlSeconds] as a condition: absent and [0] are false. *)
Definition truthy_num (n : option Z) : option Z :=
  match n with
  | None => None
  | Some t => if t =? 0 then None else Some t
  end.

(** ** Strings as the source sees them: UTF-16 code units *)

(** The code units of a well-formed text, from its bytes: one unit for a
    character of one, two or three bytes, a pair of surrogates for a
    character of four. *)
Fixpoint codeUnits (s : string) : list N :=
  match s with
  | EmptyString => []
  | String a r =>
      let x := N_of_ascii a in
      if (x <? 128)%N then x :: codeUnits r
      else if (x <? 224)%N then
        match r with
        | String b r' =>
            ((x - 192) * 64 + (N_of_ascii b - 128))%N :: codeUnits r'
        | EmptyString => [65533%N]
        end
      else if (x <? 240)%N then
        match r with
        | String b (String c r') =>
            ((x - 224) * 4096 + (N_of_ascii b - 128) * 64 + (N_of_ascii c - 128))%N
              :: codeUnits r'
        | _ => [65533%N]
        end
      else
        match r with
        | String b (String c (String d r')) =>
            let v :=
              ((x - 240) * 262144 + (N_of_ascii b - 128) * 4096
               + (N_of_ascii c - 128) * 64 + (N_of_ascii d - 128) - 65536)%N in
            (55296 + v / 1024)%N :: (56320 + v mod 1024)%N :: codeUnits r'
        | _ => [65533%N]
        end
  end.

(** [s.length]. *)
Definition length (s : string) : Z := Z.of_nat (List.length (codeUnits s)).

Fixpoint units_compare (a b : list N) : comparison :=
  match a, b with
  | [], [] => Eq
  | [], _ :: _ => Lt
  | _ :: _, [] => Gt
  | x :: a', y :: b' =>
      match (x ?= y)%N with
      | Eq => units_compare a' b'
      | c => c
      end
  end.

(** [a <= b] and [a < b] on strings. *)
Definition leb (a b : string) : bool :=
  match units_compare (codeUnits a) (codeUnits b) with Gt => false | _ => true end.

Definition ltb (a b : string) : bool :=
  match units_compare (codeUnits a) (codeUnits b) with Lt => true | _ => false end.

(** ** Objects used as maps *)

(** A [Record<string, V>] that starts as [{}] and is filled by
    assignments [result[key] = v]: its own entries, and whether its
    prototype has become [null]. *)
Record Dict (V : Type) : Type := mkDict {
  entries : gmap string V;
  nullProto : bool
}.
Arguments mkDict {V}.
Arguments entries {V}.
Arguments nullProto {V}.

Definition emptyDict {V} : Dict V := {| entries := ∅; nullProto := false |}.

(** [v === null] for an item or [null]. *)
Definition isNull {A} (v : option A) : bool :=
  match v with None => true | Some _ => false end.

(** [result[key] = v].  The key [__proto__] names the accessor that
    [Object.prototype] provides: as long as the object inherits it, the
    assignment makes [v] (an object or [null]) the prototype and creates
    no entry; once the prototype is [null] the key is a key like any
    other.  [isNull] tells whether a value is [null]. *)
Definition assign {V} (isNull : V -> bool) (key : string) (v : V) (result : Dict V)
    : Dict V :=
  if bool_decide (key = "__proto__") && negb (nullProto result)
  then {| entries := entries result; nullProto := isNull v |}
  else {| entries := <[key := v]> (entries result); nullProto := nullProto result |}.

End Js.

(** [result[key]] for an own entry. *)
Global Instance Dict_lookup {V} : Lookup string V (Js.Dict V) :=
  λ key result, Js.entries result !! key.

(** [expiresAt] of a write at [now]:
    [nowIso(new Date(now.getTime() + ttlSeconds * 1000))], which throws
    when that date is invalid. *)
Definition expiry_of (now : Timestamp) (ttl : option Z) : Result (option Timestamp) :=
  match Js.truthy_num ttl with
  | Some t =>
      match Date.ofTime (now + t * 1000) with
      | Some date => Ok (Some (nowIso date))
      | None => Throw invalidTime
      end
  | None => Ok None
  end.

(** The check every adapter makes on [ifMatchVersion] in [put]:
    [true] when the write has to be refused. *)
Definition put_precondition_fails (ifMatch : option Z) (activeVersion : option Z) : bool :=
  match ifMatch with
  | None => false
  | Some v =>
      match activeVersion with
      | None => true
      | Some cur => negb (cur =? v)
      end
  end.

Definition ifMatchError : SyncStorageError :=
  PreconditionFailedError "If-Match version does not match current value".

(* ================================================================== *)
(** * The SQL adapters ([sqlite.ts], [turso.ts])

    The adapters run the same statements on one [items] table whose
    primary key is [(tenant_id, namespace, user_id, key)] and whose
    timestamps are text columns. *)

Module Sql.

(** The primary key of a row. *)
Definition PK : Type := string * string * string * string.

Definition pk_of (scope : StorageScope) (key : string) : PK :=
  (tenantId scope, namespace scope, userId scope, key).

Definition pk_key (pk : PK) : string := pk.2.

Definition pk_in_scope (scope : StorageScope) (pk : PK) : bool :=
  bool_decide (pk.1 = (tenantId scope, namespace scope, userId scope)).

(** The other columns of a row. *)
Record Cols : Type := mkCols {
  valueJson : string;
  row_version : Z;
  row_expiresAt : option Timestamp;
  row_createdAt : Timestamp;
  row_updatedAt : Timestamp
}.

Definition Row : Type := PK * Cols.

Abbreviation Table := (gmap PK Cols).

(** [expires_at IS NULL OR expires_at > currentIso], a comparison of
    texts. *)
Definition notExpiredClause (now : Timestamp) (c : Cols) : bool :=
  match row_expiresAt c with
  | None => true
  | Some e => Date.text_ltb now e
  end.

(** [LIMIT n]: a negative [n] is no bound (SQLite). *)
Definition sql_limit {A} (n : Z) (rows : list A) : list A :=
  if n <? 0 then rows else take (Z.to_nat n) rows.

(** [ORDER BY key ASC]. *)
Definition key_le (a b : Row) : Prop := String.le (pk_key a.1) (pk_key b.1).

Global Instance key_le_dec : RelDecision key_le.
Proof. intros a b. unfold key_le. apply _. Defined.

Definition orderByKey (rows : list Row) : list Row := merge_sort key_le rows.

Definition toStoredItem (row : Row) : StoredItem :=
  {| key := pk_key row.1;
     value := parseJson (valueJson row.2);
     version := row_version row.2;
     etag := etagFromVersion (row_version row.2);
     createdAt := row_createdAt row.2;
     updatedAt := row_updatedAt row.2;
     expiresAt := row_expiresAt row.2 |}.

(** [INSERT ... ON CONFLICT (primary key) DO UPDATE SET value_json,
    version, expires_at, updated_at]: on a conflict the columns of the
    [set] list are replaced and [created_at] keeps the value of the row
    in place. *)
Definition insertOnConflictDoUpdate (pk : PK) (new : Cols) (table : Table) : Table :=
  match table !! pk with
  | None => <[pk := new]> table
  | Some old =>
      <[pk := {| valueJson := valueJson new;
                 row_version := row_version new;
                 row_expiresAt := row_expiresAt new;
                 row_createdAt := row_createdAt old;
                 row_updatedAt := row_updatedAt new |}]> table
  end.

(** SQLite's [LIKE]: [%] is any run of characters, [_] any one character,
    and ASCII letters match without regard to case. *)
Definition fold_case (c : ascii) : ascii :=
  let n := N_of_ascii c in
  if ((65 <=? n) && (n <=? 90))%N then ascii_of_N (n + 32) else c.

(** The bytes that continue a character. *)
Definition is_continuation (c : ascii) : bool :=
  let n := N_of_ascii c in ((128 <=? n) && (n <? 192))%N.

Fixpoint skip_continuation (text : list ascii) : list ascii :=
  match text with
  | c :: text' => if is_continuation c then skip_continuation text' else text
  | [] => []
  end.

Fixpoint like_chars (pattern text : list ascii) : bool :=
  match pattern with
  | [] => match text with [] => true | _ => false end
  | p :: pattern' =>
      if bool_decide (p = "%"%char) then
        (fix any (text : list ascii) : bool :=
           like_chars pattern' text
           || match text with [] => false | _ :: text' => any text' end) text
      else
        match text with
        | [] => false
        | c :: text' =>
            if bool_decide (p = "_"%char)
            then like_chars pattern' (skip_continuation text')
            else bool_decide (fold_case p = fold_case c) && like_chars pattern' text'
        end
  end.

Definition sqlite_like (text pattern : string) : bool :=
  like_chars (list_ascii_of_string pattern) (list_ascii_of_string text).

Section Adapter.

(** The [LIKE] operator of the database: [like text pattern]. *)
Variable like : string -> string -> bool.

Definition getRow (now : Timestamp) (table : Table)
    (scope : StorageScope) (key : string) (onlyActive : bool) : option Row :=
  match table !! pk_of scope key with
  | Some c =>
      if onlyActive && negb (notExpiredClause now c) then None
      else Some (pk_of scope key, c)
  | None => None
  end.

Definition get (now : Timestamp) (table : Table)
    (scope : StorageScope) (key : string) : option StoredItem :=
  toStoredItem <$> getRow now table scope key true.

Definition activeCurrent (now : Timestamp) (table : Table)
    (scope : StorageScope) (key : string) : option Row :=
  match getRow now table scope key false with
  | Some current =>
      if negb (isExpired (row_expiresAt current.2) now) then Some current else None
  | None => None
  end.

Definition put (now : Timestamp) (table : Table) (scope : StorageScope)
    (key : string) (value : JsonValue) (options : PutOptions)
    : Result StoredItem * Table :=
  let isoNow := nowIso now in
  let active := activeCurrent now table scope key in
  if put_precondition_fails (ifMatchVersion options) ((λ r : Row, row_version r.2) <$> active)
  then (Err ifMatchError, table)
  else
    let version :=
      match active with Some r => row_version r.2 + 1 | None => 1 end in
    match expiry_of now (ttlSeconds options) with
    | Ok expiresAt =>
        let valueJson := serializeJson value in
        let createdAt :=
          match active with Some r => row_createdAt r.2 | None => isoNow end in
        let table' :=
          insertOnConflictDoUpdate (pk_of scope key)
            {| valueJson := valueJson;
               row_version := version;
               row_expiresAt := expiresAt;
               row_createdAt := createdAt;
               row_updatedAt := isoNow |} table in
        (Ok {| key := key;
               value := value;
               version := version;
               etag := etagFromVersion version;
               createdAt := createdAt;
               updatedAt := isoNow;
               expiresAt := expiresAt |}, table')
    | Err e => (Err e, table)
    | Throw x => (Throw x, table)
    end.

Definition delete (now : Timestamp) (table : Table) (scope : StorageScope)
    (key : string) (options : DeleteOptions) : Result bool * Table :=
  match getRow now table scope key false with
  | None => (Ok false, table)
  | Some current =>
      let refused :=
        match del_ifMatchVersion options with
        | Some v =>
            isExpired (row_expiresAt current.2) now
            || negb (row_version current.2 =? v)
        | None => false
        end in
      if refused then (Err ifMatchError, table)
      else (Ok (negb (isExpired (row_expiresAt current.2) now)),
            base.delete (pk_of scope key) table)
  end.

Definition batchGet (now : Timestamp) (table : Table) (scope : StorageScope)
    (keys : list string) : Js.Dict (option StoredItem) :=
  foldl (λ result key,
           Js.assign Js.isNull key (get now table scope key) result)
        Js.emptyDict keys.

Fixpoint batchPut_loop (now : Timestamp) (table : Table) (scope : StorageScope)
    (entries : list BatchPutEntry) (result : Js.Dict StoredItem)
    : Result (Js.Dict StoredItem) * Table :=
  match entries with
  | [] => (Ok result, table)
  | entry :: rest =>
      match put now table scope (entry_key entry) (entry_value entry)
              {| ttlSeconds := entry_ttlSeconds entry;
                 ifMatchVersion := entry_ifMatchVersion entry |} with
      | (Ok item, table') =>
          batchPut_loop now table' scope rest
            (Js.assign (λ _, false) (entry_key entry) item result)
      | (Err e, table') => (Err e, table')
      | (Throw x, table') => (Throw x, table')
      end
  end.

Definition batchPut (now : Timestamp) (table : Table) (scope : StorageScope)
    (entries : list BatchPutEntry) : Result (Js.Dict StoredItem) * Table :=
  batchPut_loop now table scope entries Js.emptyDict.

(** The [WHERE] clause of [list]. *)
Definition list_where (now : Timestamp) (scope : StorageScope)
    (prefix cursorKey : option string) (row : Row) : bool :=
  pk_in_scope scope row.1
  && notExpiredClause now row.2
  && match Js.truthy prefix with
     | Some p => like (pk_key row.1) (p +:+ "%")
     | None => true
     end
  && match Js.truthy cursorKey with
     | Some c => String.ltb c (pk_key row.1)
     | None => true
     end.

(** The rows the query of [list] ranges over, in key order, before
    [LIMIT]. *)
Definition list_matching (now : Timestamp) (table : Table)
    (scope : StorageScope) (options : ListOptions) : list Row :=
  orderByKey
    (filter (λ row, list_where now scope (prefix options)
                      (decodeCursor (cursor options)) row = true)
            (map_to_list table)).

Definition list (now : Timestamp) (table : Table) (scope : StorageScope)
    (options : ListOptions) : ListResult :=
  let limit := default 50 (limit options) in
  let rows := sql_limit (limit + 1) (list_matching now table scope options) in
  let page := toStoredItem <$> Js.slice0 limit rows in
  let nextCursor :=
    if Js.length_gt rows limit && Js.length_gt page 0
    then encodeCursor ∘ key <$> last page
    else None in
  {| items := page; nextCursor := nextCursor |}.

End Adapter.

End Sql.

(* ================================================================== *)
(** * The key-value adapter ([redis.ts]) *)

Module Redis.

Record RedisEnvelope : Type := mkEnvelope {
  valueJson : string;
  env_version : Z;
  env_createdAt : Timestamp;
  env_updatedAt : Timestamp;
  env_expiresAt : option Timestamp
}.

(** The records of the server, by their composed key.  The stored text
    is [JSON.stringify(envelope)] and is read back by [parseEnvelope];
    the store keeps the envelope.  The [EX] option of [SET] lets the
    server drop a record once its time to live has passed; a record that
    has not been dropped is recognised by [isExpired], a dropped one is
    the case of no record, and the statements below range over stores of
    both kinds.  A time to live that the server would refuse (a negative
    one, which the service never lets through) is written like any
    other. *)
Abbreviation Store := (gmap string RedisEnvelope).

Definition toScopePrefix (scope : StorageScope) : string :=
  "t:" +:+ tenantId scope +:+ ":n:" +:+ namespace scope
    +:+ ":u:" +:+ userId scope +:+ ":k:".

Definition toRedisKey (scope : StorageScope) (key : string) : string :=
  toScopePrefix scope +:+ key.

(** What follows the first [":k:"] of the composed key. *)
Definition fromRedisKey (redisKey : string) : option string :=
  match String.index 0 ":k:" redisKey with
  | None => None
  | Some markerIndex =>
      Some (String.substring (markerIndex + 3)
              (String.length redisKey - (markerIndex + 3)) redisKey)
  end.

Definition toStoredItem (key : string) (envelope : RedisEnvelope) : StoredItem :=
  {| key := key;
     value := parseJson (valueJson envelope);
     version := env_version envelope;
     etag := etagFromVersion (env_version envelope);
     createdAt := env_createdAt envelope;
     updatedAt := env_updatedAt envelope;
     expiresAt := env_expiresAt envelope |}.

(** ** The glob of [SCAN ... MATCH]: [*], [?], [[...]] and [\]. *)

(** One bracket expression, read after its opening bracket and [^]:
    whether [c] is in it, and the pattern after the closing bracket. *)
Fixpoint glob_class (pattern : Datatypes.list ascii) (c : ascii) (found : bool)
    : bool * Datatypes.list ascii :=
  match pattern with
  | [] => (found, [])
  | p :: rest =>
      if bool_decide (p = "\"%char) then
        match rest with
        | q :: rest' => glob_class rest' c (found || bool_decide (q = c))
        | [] => (found || bool_decide (p = c), [])
        end
      else if bool_decide (p = "]"%char) then (found, rest)
      else
        match rest with
        | dash :: hi :: rest' =>
            if bool_decide (dash = "-"%char) then
              let a := N_of_ascii p in
              let b := N_of_ascii hi in
              let n := N_of_ascii c in
              glob_class rest' c
                (found || ((N.min a b <=? n) && (n <=? N.max a b))%N)
            else glob_class rest c (found || bool_decide (p = c))
        | _ => glob_class rest c (found || bool_decide (p = c))
        end
  end.

Fixpoint glob_chars (fuel : nat) (pattern text : Datatypes.list ascii) : bool :=
  match fuel with
  | O => false
  | S fuel' =>
      match pattern with
      | [] => match text with [] => true | _ => false end
      | p :: pattern' =>
          if bool_decide (p = "*"%char) then
            (fix any (text : Datatypes.list ascii) : bool :=
               glob_chars fuel' pattern' text
               || match text with [] => false | _ :: text' => any text' end) text
          else
            match text with
            | [] => false
            | c :: text' =>
                if bool_decide (p = "?"%char) then glob_chars fuel' pattern' text'
                else if bool_decide (p = "["%char) then
                  let negated :=
                    match pattern' with
                    | q :: _ => bool_decide (q = "^"%char)
                    | [] => false
                    end in
                  let '(found, after) :=
                    glob_class (if negated then tail pattern' else pattern') c false in
                  xorb negated found && glob_chars fuel' after text'
                else if bool_decide (p = "\"%char) then
                  match pattern' with
                  | q :: pattern'' =>
                      bool_decide (q = c) && glob_chars fuel' pattern'' text'
                  | [] => bool_decide (p = c) && glob_chars fuel' [] text'
                  end
                else bool_decide (p = c) && glob_chars fuel' pattern' text'
            end
      end
  end.

(** Every step of [glob_chars] shortens the pattern, so a fuel above the
    length of the pattern is never used up. *)
Definition glob (pattern text : string) : bool :=
  glob_chars (S (String.length pattern))
    (list_ascii_of_string pattern) (list_ascii_of_string text).

(** ** [Array.prototype.sort]: a stable sort by a comparator. *)

Fixpoint sort_insert {A} (le : A -> A -> bool) (x : A) (xs : Datatypes.list A)
    : Datatypes.list A :=
  match xs with
  | [] => [x]
  | y :: ys => if le x y then x :: y :: ys else y :: sort_insert le x ys
  end.

Definition sort {A} (le : A -> A -> bool) (xs : Datatypes.list A) : Datatypes.list A :=
  foldr (sort_insert le) [] xs.

(** ** What another client does to a watched key *)

Inductive OtherClient : Type :=
| OtherSet (envelope : RedisEnvelope)
| OtherDel.

Definition other_apply (redisKey : string) (o : OtherClient) (store : Store) : Store :=
  match o with
  | OtherSet e => <[redisKey := e]> store
  | OtherDel => base.delete redisKey store
  end.

(** For each attempt of a [WATCH] ... [EXEC] loop, in order, the write of
    another client to the watched key between the read and [EXEC], if
    there is one; [EXEC] then returns [null].  No other client is active
    once the list is used up. *)
Definition Schedule : Type := Datatypes.list (option OtherClient).

Definition retries : nat := 5.

(** [put], attempt by attempt. *)
Fixpoint put_attempts (attempts : nat) (others : Schedule) (now : Timestamp)
    (store : Store) (redisKey key : string) (value : JsonValue)
    (options : PutOptions) : Result StoredItem * Store :=
  match attempts with
  | O => (Err (PreconditionFailedError
                 "Concurrent write prevented storing value after retries"), store)
  | S attempts' =>
      let currentEnvelope := store !! redisKey in
      let activeCurrent :=
        match currentEnvelope with
        | Some e => if negb (isExpired (env_expiresAt e) now) then Some e else None
        | None => None
        end in
      if put_precondition_fails (ifMatchVersion options) (env_version <$> activeCurrent)
      then (Err ifMatchError, store)
      else
        let version :=
          match activeCurrent with Some e => env_version e + 1 | None => 1 end in
        match expiry_of now (ttlSeconds options) with
        | Ok expiresAt =>
            let envelope :=
              {| valueJson := serializeJson value;
                 env_version := version;
                 env_createdAt :=
                   match activeCurrent with
                   | Some e => env_createdAt e
                   | None => nowIso now
                   end;
                 env_updatedAt := nowIso now;
                 env_expiresAt := expiresAt |} in
            match others with
            | Some o :: others' =>
                put_attempts attempts' others' now (other_apply redisKey o store)
                  redisKey key value options
            | None :: _ | [] =>
                (Ok (toStoredItem key envelope), <[redisKey := envelope]> store)
            end
        | Err e => (Err e, store)
        | Throw x => (Throw x, store)
        end
  end.

Definition put_under (others : Schedule) (now : Timestamp) (store : Store)
    (scope : StorageScope) (key : string) (value : JsonValue)
    (options : PutOptions) : Result StoredItem * Store :=
  put_attempts retries others now store (toRedisKey scope key) key value options.

(** [delete], attempt by attempt. *)
Fixpoint delete_attempts (attempts : nat) (others : Schedule) (now : Timestamp)
    (store : Store) (redisKey : string) (options : DeleteOptions)
    : Result bool * Store :=
  match attempts with
  | O => (Err (PreconditionFailedError
                 "Concurrent delete prevented completion after retries"), store)
  | S attempts' =>
      match store !! redisKey with
      | None => (Ok false, store)
      | Some currentEnvelope =>
          let refused :=
            match del_ifMatchVersion options with
            | Some v =>
                isExpired (env_expiresAt currentEnvelope) now
                || negb (env_version currentEnvelope =? v)
            | None => false
            end in
          if refused then (Err ifMatchError, store)
          else
            match others with
            | Some o :: others' =>
                delete_attempts attempts' others' now
                  (other_apply redisKey o store) redisKey options
            | None :: _ | [] =>
                (Ok (negb (isExpired (env_expiresAt currentEnvelope) now)),
                 base.delete redisKey store)
            end
      end
  end.

Definition delete_under (others : Schedule) (now : Timestamp) (store : Store)
    (scope : StorageScope) (key : string) (options : DeleteOptions)
    : Result bool * Store :=
  delete_attempts retries others now store (toRedisKey scope key) options.

(** The operations of a client that runs alone. *)
Definition put := put_under [].
Definition delete := delete_under [].

(** [get]: an expired record is deleted on the way. *)
Definition get (now : Timestamp) (store : Store) (scope : StorageScope)
    (key : string) : option StoredItem * Store :=
  let redisKey := toRedisKey scope key in
  match store !! redisKey with
  | None => (None, store)
  | Some envelope =>
      if isExpired (env_expiresAt envelope) now
      then (None, base.delete redisKey store)
      else (Some (toStoredItem key envelope), store)
  end.

Definition batchGet (now : Timestamp) (store : Store) (scope : StorageScope)
    (keys : Datatypes.list string) : Js.Dict (option StoredItem) :=
  foldl (λ result key,
           match store !! toRedisKey scope key with
           | None => Js.assign Js.isNull key None result
           | Some envelope =>
               if isExpired (env_expiresAt envelope) now
               then Js.assign Js.isNull key None result
               else Js.assign Js.isNull key (Some (toStoredItem key envelope)) result
           end) Js.emptyDict keys.

Fixpoint batchPut_loop (now : Timestamp) (store : Store) (scope : StorageScope)
    (entries : Datatypes.list BatchPutEntry) (result : Js.Dict StoredItem)
    : Result (Js.Dict StoredItem) * Store :=
  match entries with
  | [] => (Ok result, store)
  | entry :: rest =>
      match put now store scope (entry_key entry) (entry_value entry)
              {| ttlSeconds := entry_ttlSeconds entry;
                 ifMatchVersion := entry_ifMatchVersion entry |} with
      | (Ok item, store') =>
          batchPut_loop now store' scope rest
            (Js.assign (λ _, false) (entry_key entry) item result)
      | (Err e, store') => (Err e, store')
      | (Throw x, store') => (Throw x, store')
      end
  end.

Definition batchPut (now : Timestamp) (store : Store) (scope : StorageScope)
    (entries : Datatypes.list BatchPutEntry)
    : Result (Js.Dict StoredItem) * Store :=
  batchPut_loop now store scope entries Js.emptyDict.

Section Listing.

(** [left.localeCompare(right)] of the platform: negative, zero or
    positive. *)
Variable localeCompare : string -> string -> Z.

(** What the loop over [scanIterator] keeps of one record. *)
Definition list_entry (now : Timestamp) (cursorKey : option string)
    (record : string * RedisEnvelope) : option (string * StoredItem) :=
  match fromRedisKey record.1 with
  | None | Some EmptyString => None
  | Some key =>
      if match Js.truthy cursorKey with
         | Some c => Js.leb key c
         | None => false
         end
      then None
      else if isExpired (env_expiresAt record.2) now then None
      else Some (key, toStoredItem key record.2)
  end.

(** [found], before it is sorted. *)
Definition list_found (now : Timestamp) (store : Store) (scope : StorageScope)
    (options : ListOptions) : Datatypes.list (string * StoredItem) :=
  let pattern := toScopePrefix scope +:+ default "" (prefix options) +:+ "*" in
  omap (list_entry now (decodeCursor (cursor options)))
       (filter (λ record, glob pattern record.1 = true) (map_to_list store)).

Definition list (now : Timestamp) (store : Store) (scope : StorageScope)
    (options : ListOptions) : ListResult :=
  let limit := default 50 (limit options) in
  let found :=
    sort (λ left right, localeCompare left.1 right.1 <=? 0)
         (list_found now store scope options) in
  let page := Js.slice0 limit found in
  let next :=
    if Js.length_gt found limit && Js.length_gt page 0 then last page else None in
  {| items := snd <$> page;
     nextCursor := encodeCursor ∘ fst <$> next |}.

End Listing.

End Redis.

(* ================================================================== *)
(** * A collation for [localeCompare] *)

Module Collation.

(** The order of the root collation on ASCII letters and digits: two
    texts are first compared letter by letter without regard to case,
    and texts that are equal so far are compared by case, lower case
    first.  Other characters are ranked by their code. *)
Definition is_upper (c : ascii) : bool :=
  let n := N_of_ascii c in ((65 <=? n) && (n <=? 90))%N.

Definition primary (c : ascii) : N :=
  let n := N_of_ascii c in if is_upper c then (n + 32)%N else n.

Fixpoint compare_by (weight : ascii -> N) (a b : string) : comparison :=
  match a, b with
  | EmptyString, EmptyString => Eq
  | EmptyString, String _ _ => Lt
  | String _ _, EmptyString => Gt
  | String x a', String y b' =>
      match N.compare (weight x) (weight y) with
      | Eq => compare_by weight a' b'
      | c => c
      end
  end.

Definition tertiary (c : ascii) : N := if is_upper c then 1%N else 0%N.

Definition localeCompare (a b : string) : Z :=
  match compare_by primary a b with
  | Lt => -1
  | Gt => 1
  | Eq =>
      match compare_by tertiary a b with
      | Lt => -1
      | Gt => 1
      | Eq => 0
      end
  end.

End Collation.

(* ================================================================== *)
(** * The adapter contract ([adapters/types.ts]) *)

(** An adapter over a backend whose state is an [S]: every method takes
    the clock and the state and returns its outcome with the new state. *)
Record StorageAdapter (S : Type) : Type := mkAdapter {
  adapter_get : Timestamp -> S -> StorageScope -> string
                -> Result (option StoredItem) * S;
  adapter_put : Timestamp -> S -> StorageScope -> string -> JsonValue -> PutOptions
                -> Result StoredItem * S;
  adapter_delete : Timestamp -> S -> StorageScope -> string -> DeleteOptions
                   -> Result bool * S;
  adapter_batchGet : Timestamp -> S -> StorageScope -> list string
                     -> Result (Js.Dict (option StoredItem)) * S;
  adapter_batchPut : Timestamp -> S -> StorageScope -> list BatchPutEntry
                     -> Result (Js.Dict StoredItem) * S;
  adapter_list : Timestamp -> S -> StorageScope -> ListOptions
                 -> Result ListResult * S
}.
Arguments adapter_get {S}.
Arguments adapter_put {S}.
Arguments adapter_delete {S}.
Arguments adapter_batchGet {S}.
Arguments adapter_batchPut {S}.
Arguments adapter_list {S}.

Definition SqlStorageAdapter (like : string -> string -> bool)
    : StorageAdapter (gmap Sql.PK Sql.Cols) :=
  {| adapter_get now t scope key := (Ok (Sql.get now t scope key), t);
     adapter_put := Sql.put;
     adapter_delete := Sql.delete;
     adapter_batchGet now t scope keys := (Ok (Sql.batchGet now t scope keys), t);
     adapter_batchPut := Sql.batchPut;
     adapter_list now t scope options := (Ok (Sql.list like now t scope options), t) |}.

Definition RedisStorageAdapter (localeCompare : string -> string -> Z)
    : StorageAdapter (gmap string Redis.RedisEnvelope) :=
  {| adapter_get now s scope key :=
       let '(item, s') := Redis.get now s scope key in (Ok item, s');
     adapter_put := Redis.put;
     adapter_delete := Redis.delete;
     adapter_batchGet now s scope keys := (Ok (Redis.batchGet now s scope keys), s);
     adapter_batchPut := Redis.batchPut;
     adapter_list now s scope options :=
       (Ok (Redis.list localeCompare now s scope options), s) |}.

(* ================================================================== *)
(** * The storage service ([service/storage-service.ts]) *)

Module Service.

Global Instance Result_bind : MBind Result :=
  λ A B f r, match r with Ok a => f a | Err e => Err e | Throw x => Throw x end.

Record StorageServiceOptions : Type := mkServiceOptions {
  maxKeyLength : Z;
  maxValueBytes : Z;
  maxBatchSize : Z;
  maxListLimit : Z
}.

Definition defaultOptions : StorageServiceOptions :=
  {| maxKeyLength := 255;
     maxValueBytes := 1024 * 1024;
     maxBatchSize := 100;
     maxListLimit := 100 |}.

Record SetItemOptions : Type := mkSetItemOptions {
  set_ttlSeconds : option Z;
  set_ifMatch : option string
}.

Record ServiceListOptions : Type := mkServiceListOptions {
  list_prefix : option string;
  list_cursor : option string;
  list_limit : option JsNumber
}.

(** [s.length], in UTF-16 code units. *)
Definition strlen (s : string) : Z := Js.length s.

(** [Buffer.byteLength(s, 'utf8')]. *)
Definition byteLength (s : string) : Z := Z.of_nat (String.length s).

Definition is_empty (s : string) : bool :=
  match s with EmptyString => true | _ => false end.

Section WithOptions.

Variable opts : StorageServiceOptions.

Definition validateScope (scope : StorageScope) : Result unit :=
  if is_empty (tenantId scope) || is_empty (namespace scope) || is_empty (userId scope)
  then Err (ValidationError "tenantId, namespace, and userId are required")
  else Ok tt.

Definition validateKey (key : string) : Result unit :=
  if is_empty key then Err (ValidationError "key is required")
  else if maxKeyLength opts <? strlen key
  then Err (ValidationError
              ("key length cannot exceed " +:+ string_of_Z (maxKeyLength opts)))
  else Ok tt.

Definition validateValue (value : JsonValue) : Result unit :=
  let serialized := serializeJson value in
  let bytes := byteLength serialized in
  if maxValueBytes opts <? bytes
  then Err (ValidationError
              ("value cannot exceed " +:+ string_of_Z (maxValueBytes opts) +:+ " bytes"))
  else Ok tt.

Definition validateIfMatch (ifMatch : option string) : Result (option Z) :=
  match ifMatch with
  | None | Some EmptyString => Ok None
  | Some s =>
      match normalizeIfMatch (Some s) with
      | None => Err (PreconditionFailedError "If-Match header is invalid")
      | Some version => Ok (Some version)
      end
  end.

Definition validateTtlSeconds (ttlSeconds : option Z) : Result (option Z) :=
  match ttlSeconds with
  | None => Ok None
  | Some t =>
      if t <=? 0 then Err (ValidationError "ttlSeconds must be a positive integer")
      else Ok (Some t)
  end.

(** The loop of [batchGet] over its keys. *)
Fixpoint validateKeys (keys : list string) : Result unit :=
  match keys with
  | [] => Ok tt
  | key :: rest => _ ← validateKey key; validateKeys rest
  end.

(** The loop of [batchPut] over its entries; it rewrites the
    [ifMatchVersion] of each entry. *)
Fixpoint validateEntries (entries : list BatchPutEntry) : Result (list BatchPutEntry) :=
  match entries with
  | [] => Ok []
  | entry :: rest =>
      _ ← validateKey (entry_key entry);
      _ ← validateValue (entry_value entry);
      _ ← validateTtlSeconds (entry_ttlSeconds entry);
      v ← validateIfMatch (string_of_Z <$> entry_ifMatchVersion entry);
      rest' ← validateEntries rest;
      Ok ({| entry_key := entry_key entry;
             entry_value := entry_value entry;
             entry_ttlSeconds := entry_ttlSeconds entry;
             entry_ifMatchVersion := v |} :: rest')
  end.

Section WithAdapter.

Context {S : Type}.
Variable adapter : StorageAdapter S.

(** Runs the adapter when the checks pass. *)
Definition guarded {A B} (checks : Result A)
    (call : A -> Result B * S) (st : S) : Result B * S :=
  match checks with
  | Ok a => call a
  | Err e => (Err e, st)
  | Throw x => (Throw x, st)
  end.

Definition getItem (now : Timestamp) (st : S) (scope : StorageScope)
    (key : string) : Result (option StoredItem) * S :=
  guarded (_ ← validateScope scope; validateKey key)
    (λ _, adapter_get adapter now st scope key) st.

Definition setItem (now : Timestamp) (st : S) (scope : StorageScope)
    (key : string) (value : JsonValue) (options : SetItemOptions)
    : Result StoredItem * S :=
  guarded
    (_ ← validateScope scope;
     _ ← validateKey key;
     _ ← validateValue value;
     ttlSeconds ← validateTtlSeconds (set_ttlSeconds options);
     ifMatchVersion ← validateIfMatch (set_ifMatch options);
     Ok {| ttlSeconds := ttlSeconds; ifMatchVersion := ifMatchVersion |})
    (λ o, adapter_put adapter now st scope key value o) st.

Definition removeItem (now : Timestamp) (st : S) (scope : StorageScope)
    (key : string) (ifMatch : option string) : Result bool * S :=
  guarded
    (_ ← validateScope scope;
     _ ← validateKey key;
     ifMatchVersion ← validateIfMatch ifMatch;
     Ok {| del_ifMatchVersion := ifMatchVersion |})
    (λ o, adapter_delete adapter now st scope key o) st.

Definition batchGet (now : Timestamp) (st : S) (scope : StorageScope)
    (keys : list string) : Result (Js.Dict (option StoredItem)) * S :=
  guarded
    (_ ← validateScope scope;
     _ ← (if Js.is_nil keys
          then Err (ValidationError "keys must be a non-empty array")
          else Ok tt);
     _ ← (if maxBatchSize opts <? Z.of_nat (length keys)
          then Err (ValidationError
                      ("keys length cannot exceed " +:+ string_of_Z (maxBatchSize opts)))
          else Ok tt);
     validateKeys keys)
    (λ _, adapter_batchGet adapter now st scope keys) st.

Definition batchPut (now : Timestamp) (st : S) (scope : StorageScope)
    (entries : list BatchPutEntry) : Result (Js.Dict StoredItem) * S :=
  guarded
    (_ ← validateScope scope;
     _ ← (if Js.is_nil entries
          then Err (ValidationError "entries must be a non-empty array")
          else Ok tt);
     _ ← (if maxBatchSize opts <? Z.of_nat (length entries)
          then Err (ValidationError
                      ("entries length cannot exceed " +:+ string_of_Z (maxBatchSize opts)))
          else Ok tt);
     validateEntries entries)
    (λ entries', adapter_batchPut adapter now st scope entries') st.

(** The limit [list] hands to the adapter. *)
Definition effectiveLimit (limit : option JsNumber) : Z :=
  clampLimit limit (maxListLimit opts) 50.

Definition list (now : Timestamp) (st : S) (scope : StorageScope)
    (options : ServiceListOptions) : Result ListResult * S :=
  guarded
    (_ ← validateScope scope;
     match list_prefix options with
     | Some p =>
         if maxKeyLength opts <? strlen p
         then Err (ValidationError
                     ("prefix length cannot exceed " +:+ string_of_Z (maxKeyLength opts)))
         else Ok tt
     | None => Ok tt
     end)
    (λ _, adapter_list adapter now st scope
            {| prefix := list_prefix options;
               cursor := list_cursor options;
               limit := Some (effectiveLimit (list_limit options)) |}) st.

End WithAdapter.

End WithOptions.

End Service.

(* ================================================================== *)
(** * The HTTP layer ([apps/api]) *)

Module Http.

(** What reaches the error handler of the application: an error of the
    storage core, an [HTTPException] of the framework with its status,
    or anything else. *)
Inductive ApiError : Type :=
| OfStorage (e : SyncStorageError)
| HTTPException (status : Z) (message : string)
| Unhandled.

(** The JSON answer with its status. *)
Record ErrorResponse : Type := mkErrorResponse {
  res_status : Z;
  res_code : string;
  res_message : string
}.

(** [error.message]. *)
Definition message (e : SyncStorageError) : string :=
  match e with
  | ValidationError m | UnauthorizedError m | NotFoundError m
  | PreconditionFailedError m | InternalError m => m
  end.

(** The handler of [http/error-handler.ts], which chooses the status by
    the class of the error. *)
Module ErrorHandler.

Definition handleApiError (error : ApiError) : ErrorResponse :=
  match error with
  | OfStorage e =>
      {| res_status :=
           if isValidation e || isPreconditionFailed e then 400
           else match e with UnauthorizedError _ => 401 | _ => 500 end;
         res_code := code e;
         res_message := message e |}
  | _ =>
      {| res_status := 500;
         res_code := "INTERNAL_SERVER_ERROR";
         res_message := "An unexpected error occurred" |}
  end.

End ErrorHandler.

(** The handler that answers with the status the error carries. *)
Module StatusHandler.

Definition toStatusCode (status : Z) : Z :=
  if (200 <=? status) && (status <=? 599) && negb (status =? 204)
     && negb (status =? 205) && negb (status =? 304)
  then status else 500.

Definition handleApiError (error : ApiError) : ErrorResponse :=
  match error with
  | OfStorage e =>
      {| res_status := toStatusCode (Errors.status e);
         res_code := code e;
         res_message := message e |}
  | HTTPException status m =>
      {| res_status := toStatusCode status;
         res_code := "HTTP_ERROR";
         res_message := m |}
  | Unhandled =>
      {| res_status := 500;
         res_code := "INTERNAL_ERROR";
         res_message := "Unexpected internal server error" |}
  end.

End StatusHandler.

(** ** [auth/resolve-actor.ts] *)

Inductive AuthMode : Type := AuthJwt | AuthNone.

Record AppConfig : Type := mkAppConfig {
  authMode : AuthMode;
  jwtSecret : option string;
  defaultNamespace : option string;
  defaultTenantId : string
}.

(** [request.headers.get(name)]. *)
Definition Headers : Type := string -> option string.

(** The claims of a token that [resolveActor] reads, each with its value
    when it is a string. *)
Record JwtPayload : Type := mkJwtPayload {
  sub : option string;
  tenant_id : option string
}.

(** What [jwt.verify] does with a token: it returns an object or a
    string, or throws. *)
Inductive Verified : Type :=
| VerifiedPayload (payload : JwtPayload)
| VerifiedString
| VerifyThrows.

(** ASCII letters without regard to case. *)
Definition lower (c : ascii) : ascii :=
  let n := N_of_ascii c in
  if ((65 <=? n) && (n <=? 90))%N then ascii_of_N (n + 32) else c.

(** What follows [p] at the start of [s], letters compared without
    regard to case. *)
Fixpoint after_prefix_ci (p s : string) : option string :=
  match p with
  | EmptyString => Some s
  | String a p' =>
      match s with
      | String c s' =>
          if bool_decide (lower c = lower a) then after_prefix_ci p' s' else None
      | EmptyString => None
      end
  end.

(** [header.replace(/^Bearer\s+/i, '')]. *)
Definition stripBearer (header : string) : string :=
  match after_prefix_ci "Bearer" header with
  | Some rest =>
      match after_ws rest with
      | Some rest' => trimStart rest'
      | None => header
      end
  | None => header
  end.

(** [a || b] on strings. *)
Definition or_else (a : option string) (b : string) : string :=
  match Js.truthy a with
  | Some s => s
  | None => b
  end.

Section ResolveActor.

(** [jwt.verify(token, secret)]. *)
Variable jwt_verify : string -> option string -> Verified.

Definition resolveActor (headers : Headers) (config : AppConfig) : Result StorageScope :=
  match Js.truthy (Some (or_else (headers "x-namespace")
                           (default "" (defaultNamespace config)))) with
  | None =>
      Err (ValidationError
             "x-namespace header is required when DEFAULT_NAMESPACE is not configured")
  | Some namespace =>
      match authMode config with
      | AuthNone =>
          match Js.truthy (headers "x-user-id") with
          | None => Err (ValidationError "x-user-id header is required when AUTH_MODE=none")
          | Some userId =>
              Ok {| tenantId := or_else (headers "x-tenant-id") (defaultTenantId config);
                    namespace := namespace;
                    userId := userId |}
          end
      | AuthJwt =>
          match Js.truthy (headers "authorization") with
          | None => Err (UnauthorizedError "Authorization header is required")
          | Some authorizationHeader =>
              let token := stripBearer authorizationHeader in
              if Service.is_empty token || bool_decide (token = authorizationHeader)
              then Err (UnauthorizedError
                          "Authorization header must use Bearer token format")
              else
                match jwt_verify token (jwtSecret config) with
                | VerifyThrows => Err (UnauthorizedError "Invalid JWT token")
                | VerifiedString => Err (UnauthorizedError "JWT payload must be an object")
                | VerifiedPayload payload =>
                    match Js.truthy (sub payload) with
                    | None =>
                        Err (UnauthorizedError "JWT token must include a string sub claim")
                    | Some userId =>
                        Ok {| tenantId := default (defaultTenantId config) (tenant_id payload);
                              namespace := namespace;
                              userId := userId |}
                    end
                end
          end
      end
  end.

End ResolveActor.

End Http.

(* ================================================================== *)
(** * Vocabulary of the statements *)

(** Every character of [s] satisfies [p]. *)
Fixpoint string_forall (p : ascii -> bool) (s : string) : bool :=
  match s with
  | EmptyString => true
  | String c r => p c && string_forall p r
  end.

(** A run of white space characters. *)
Fixpoint all_ws (s : string) : bool :=
  match s with
  | EmptyString => true
  | String a r =>
      if is_ws a then all_ws r
      else match r with
           | String b r' =>
               if is_ws2 a b then all_ws r'
               else match r' with
                    | String c r'' => is_ws3 a b c && all_ws r''
                    | EmptyString => false
                    end
           | EmptyString => false
           end
  end.

(** An ASCII character that is not white space. *)
Definition word_char (c : ascii) : bool := (N_of_ascii c <? 128)%N && negb (is_ws c).

(** An ASCII character that is neither white space nor a quote: the
    characters of a printed integer are such. *)
Definition plain (c : ascii) : bool :=
  (N_of_ascii c <? 128)%N && negb (is_ws c) && negb (bool_decide (c = dquote)).

(** The value of a decimal numeral read after [acc]. *)
Fixpoint uint_value (d : Decimal.uint) (acc : Z) : Z :=
  match d with
  | Decimal.Nil => acc
  | Decimal.D0 l => uint_value l (10 * acc + 0)
  | Decimal.D1 l => uint_value l (10 * acc + 1)
  | Decimal.D2 l => uint_value l (10 * acc + 2)
  | Decimal.D3 l => uint_value l (10 * acc + 3)
  | Decimal.D4 l => uint_value l (10 * acc + 4)
  | Decimal.D5 l => uint_value l (10 * acc + 5)
  | Decimal.D6 l => uint_value l (10 * acc + 6)
  | Decimal.D7 l => uint_value l (10 * acc + 7)
  | Decimal.D8 l => uint_value l (10 * acc + 8)
  | Decimal.D9 l => uint_value l (10 * acc + 9)
  end.

(** The text [normalizeIfMatch] hands to [parseInt]. *)
Definition unquoted (s : string) : string :=
  let trimmed := trim s in
  if startsWith trimmed (String dquote "") && endsWithQuote trimmed
  then slice_1_m1 trimmed else trimmed.

(** An integer that the platform represents, reads and prints exactly:
    [Number.isSafeInteger]. *)
Definition safe_integer (n : Z) : bool := Z.abs n <=? 2 ^ 53 - 1.

(** What [validateIfMatch] answers for a numeral of value [n]. *)
Definition ifMatchOutcome (n : Z) : Result (option Z) :=
  if 0 <? n then Ok (Some n)
  else Err (PreconditionFailedError "If-Match header is invalid").

(** The limit the service is to use, case by case: the default for an
    absent, non-finite or zero limit, [1] for a negative one, [max] from
    [max] on, and the integer part (at least [1]) in between. *)
Definition limit_by_cases (limit : option JsNumber) (max : Z) : Z :=
  match limit with
  | None | Some NaN | Some PosInfinity | Some NegInfinity => 50
  | Some (Finite q) =>
      if Qeq_bool q 0 then 50
      else if Qle_bool q 0 then 1
      else if Qle_bool (inject_Z max) q then max
      else Z.max 1 (Clamp.trunc q)
  end.

(** An entry of [batchPut] whose [ifMatchVersion] is given and not
    positive. *)
Definition bad_ifMatch (entry : BatchPutEntry) : Prop :=
  exists v, entry_ifMatchVersion entry = Some v /\ v <= 0.

(** The state of one primary key at an instant: no record, a record that
    has expired, or an active record with its version. *)
Inductive ItemState : Type :=
| Absent
| Expired
| Active (version : Z).

Definition state_of (now : Timestamp) (record : option (Z * option Timestamp)) : ItemState :=
  match record with
  | None => Absent
  | Some (v, e) => if isExpired e now then Expired else Active v
  end.

Definition sql_state (now : Timestamp) (table : gmap Sql.PK Sql.Cols)
    (scope : StorageScope) (key : string) : ItemState :=
  state_of now
    ((λ c, (Sql.row_version c, Sql.row_expiresAt c)) <$> table !! Sql.pk_of scope key).

Definition redis_state (now : Timestamp) (store : gmap string Redis.RedisEnvelope)
    (scope : StorageScope) (key : string) : ItemState :=
  state_of now
    ((λ e, (Redis.env_version e, Redis.env_expiresAt e))
       <$> store !! Redis.toRedisKey scope key).

(** The version of the active item, if there is one. *)
Definition active_version (s : ItemState) : option Z :=
  match s with Active v => Some v | _ => None end.

(** The version a successful [put] is to give. *)
Definition next_version (s : ItemState) : Z :=
  match s with Active v => v + 1 | _ => 1 end.

(** The same, from the active item that [get] returns:
    [current ? current.version + 1 : 1]. *)
Definition version_after (current : option StoredItem) : Z :=
  match current with
  | Some item => version item + 1
  | None => 1
  end.

(** One call of [put] on a fixed scope and key. *)
Record PutCall : Type := mkPutCall {
  call_now : Timestamp;
  call_value : JsonValue;
  call_options : PutOptions
}.

(** The outcomes of a sequence of [put]s, each on the state the previous
    one left. *)
Fixpoint run_puts {S : Type}
    (put : Timestamp -> S -> JsonValue -> PutOptions -> Result StoredItem * S)
    (st : S) (calls : list PutCall) : list (Result StoredItem) :=
  match calls with
  | [] => []
  | c :: rest =>
      let '(r, st') := put (call_now c) st (call_value c) (call_options c) in
      r :: run_puts put st' rest
  end.

(** The versions of the successful outcomes. *)
Definition versions_of (results : list (Result StoredItem)) : list Z :=
  omap (λ r, match r with Ok item => Some (version item) | _ => None end) results.

(** [k], [k + 1], ..., [n] numbers. *)
Fixpoint versions_from (k : Z) (n : nat) : list Z :=
  match n with
  | O => []
  | S n' => k :: versions_from (k + 1) n'
  end.

(** An instant of the years 0 to 9999, which [toISOString] writes with
    four digits. *)
Definition four_digit_year (t : Timestamp) : bool :=
  (0 <=? Date.year t) && (Date.year t <=? 9999).

(** The instant at which a write at [now] with these options expires, if
    it does. *)
Definition expiry_instant (now : Timestamp) (options : PutOptions) : option Z :=
  match Js.truthy_num (ttlSeconds options) with
  | Some t => Some (now + t * 1000)
  | None => None
  end.

(** The clock of every call is in the years 0 to 9999, and every call
    but the first is made before the expiry that the call before it has
    set, an instant of these years too. *)
Fixpoint chain_active (calls : list PutCall) : bool :=
  match calls with
  | c1 :: rest =>
      four_digit_year (call_now c1)
      && match rest with
         | c2 :: _ =>
             match expiry_instant (call_now c1) (call_options c1) with
             | Some e => four_digit_year e && (call_now c2 <? e)
             | None => true
             end
         | [] => true
         end
      && chain_active rest
  | [] => true
  end.

Definition all_ok (results : list (Result StoredItem)) : bool := forallb isOk results.

(** The reads of a scope give the same on two tables. *)
Definition sql_same_reads (scope : StorageScope) (t t' : gmap Sql.PK Sql.Cols) : Prop :=
  (forall now key, Sql.get now t scope key = Sql.get now t' scope key)
  /\ (forall now keys, Sql.batchGet now t scope keys = Sql.batchGet now t' scope keys)
  /\ (forall like now options,
        Sql.list like now t scope options = Sql.list like now t' scope options).

(** Keys in strictly ascending byte order. *)
Definition key_lt (a b : StoredItem) : Prop := String.ltb (key a) (key b) = true.

Definition strictly_ascending (page : list StoredItem) : Prop :=
  StronglySorted key_lt page.

(** A character of the URL-safe alphabet: a letter, a digit, [-] or [_]. *)
Definition url_safe (c : ascii) : bool :=
  let n := N_of_ascii c in
  ((65 <=? n) && (n <=? 90) || (97 <=? n) && (n <=? 122)
   || (48 <=? n) && (n <=? 57) || (n =? 45) || (n =? 95))%N.


(** The [put] that [batchPut] makes for an entry. *)
Definition entry_options (entry : BatchPutEntry) : PutOptions :=
  {| ttlSeconds := entry_ttlSeconds entry;
     ifMatchVersion := entry_ifMatchVersion entry |}.




(** The conditions of [list] on a key: the prefix pattern and the
    cursor. *)
Definition key_selected (like : string -> string -> bool) (options : ListOptions)
    (k : string) : bool :=
  match Js.truthy (prefix options) with
  | Some p => like k (p +:+ "%")
  | None => true
  end
  && match Js.truthy (decodeCursor (cursor options)) with
     | Some c => String.ltb c k
     | None => true
     end.

(** The items a [list] of the SQL adapters ranges over, in key order:
    the answer of its query without [LIMIT]. *)
Definition sql_selection (like : string -> string -> bool) (now : Timestamp)
    (table : gmap Sql.PK Sql.Cols) (scope : StorageScope)
    (p c : option string) : list StoredItem :=
  Sql.toStoredItem
    <$> Sql.list_matching like now table scope {| prefix := p; cursor := c; limit := None |}.

(** Rows in strictly ascending byte order of key. *)
Definition row_key_lt : relation Sql.Row :=
  λ a b, String.ltb (Sql.pk_key a.1) (Sql.pk_key b.1) = true.

(** The writes of other clients that interrupt the first attempts of a
    [WATCH] ... [EXEC] loop, one per attempt, up to the first attempt
    that runs undisturbed. *)
Fixpoint interrupted (others : Redis.Schedule) : list Redis.OtherClient :=
  match others with
  | Some o :: rest => o :: interrupted rest
  | _ => []
  end.

(** The store once these writes have been made to the watched key. *)
Definition after_others (redisKey : string) (os : list Redis.OtherClient)
    (store : gmap string Redis.RedisEnvelope) : gmap string Redis.RedisEnvelope :=
  foldl (λ s o, Redis.other_apply redisKey o s) store os.

Definition concurrentWriteError : SyncStorageError :=
  PreconditionFailedError "Concurrent write prevented storing value after retries".

(** The record of a composed key that has not expired. *)
Definition redis_active (now : Timestamp) (store : gmap string Redis.RedisEnvelope)
    (redisKey : string) : option Redis.RedisEnvelope :=
  match store !! redisKey with
  | Some e => if isExpired (Redis.env_expiresAt e) now then None else Some e
  | None => None
  end.

(** A string without a colon, and a scope of three such strings. *)
Definition no_colon (s : string) : bool :=
  string_forall (λ c, negb (bool_decide (c = ":"%char))) s.

Definition plain_scope (scope : StorageScope) : bool :=
  no_colon (tenantId scope) && no_colon (namespace scope) && no_colon (userId scope).

(** A well-formed item at an instant: a version of at least [1], the
    ETag of that version, and [createdAt <= updatedAt <= now]. *)
Definition item_wf (now : Timestamp) (item : StoredItem) : Prop :=
  1 <= version item
  /\ etag item = etagFromVersion (version item)
  /\ createdAt item <= updatedAt item
  /\ updatedAt item <= now.

(** A backend all of whose records are well formed. *)
Definition sql_wf (now : Timestamp) (table : gmap Sql.PK Sql.Cols) : Prop :=
  forall pk c, table !! pk = Some c -> item_wf now (Sql.toStoredItem (pk, c)).

Definition redis_wf (now : Timestamp) (store : gmap string Redis.RedisEnvelope) : Prop :=
  forall rk e, store !! rk = Some e -> item_wf now (Redis.toStoredItem rk e).

(** What the service accepts: a scope with its three components, a key
    of [1] to [maxKeyLength] UTF-16 code units, a value of at most
    [maxValueBytes] bytes, a time to live that is absent or positive, a
    version that is absent or positive. *)
Definition valid_scope (scope : StorageScope) : bool :=
  negb (Service.is_empty (tenantId scope))
  && negb (Service.is_empty (namespace scope))
  && negb (Service.is_empty (userId scope)).

Definition valid_key (opts : Service.StorageServiceOptions) (k : string) : bool :=
  negb (Service.is_empty k) && (Service.strlen k <=? Service.maxKeyLength opts).

Definition valid_value (opts : Service.StorageServiceOptions) (v : JsonValue) : bool :=
  Service.byteLength (serializeJson v) <=? Service.maxValueBytes opts.

Definition valid_positive (n : option Z) : bool :=
  match n with
  | None => true
  | Some t => 0 <? t
  end.

Definition valid_entry (opts : Service.StorageServiceOptions) (entry : BatchPutEntry) : bool :=
  valid_key opts (entry_key entry)
  && valid_value opts (entry_value entry)
  && valid_positive (entry_ttlSeconds entry)
  && valid_positive (entry_ifMatchVersion entry).

(** Entries whose [ifMatchVersion], when given, is a safe integer. *)
Definition safe_versions (entries : list BatchPutEntry) : bool :=
  forallb (λ entry, default true (safe_integer <$> entry_ifMatchVersion entry)) entries.

(** A batch of [1] to [maxBatchSize] elements. *)
Definition valid_batch {A} (opts : Service.StorageServiceOptions) (xs : list A) : bool :=
  negb (Js.is_nil xs) && (Z.of_nat (length xs) <=? Service.maxBatchSize opts).

Definition valid_prefix (opts : Service.StorageServiceOptions) (p : option string) : bool :=
  match p with
  | None => true
  | Some p => Service.strlen p <=? Service.maxKeyLength opts
  end.

Definition invalidIfMatch : SyncStorageError :=
  PreconditionFailedError "If-Match header is invalid".

(** A write to one scope, with the instant at which it is made. *)
Inductive Write : Type :=
| WPut (now : Timestamp) (k : string) (v : JsonValue) (options : PutOptions)
| WDelete (now : Timestamp) (k : string) (options : DeleteOptions)
| WBatchPut (now : Timestamp) (entries : list BatchPutEntry).

(** The table after a write, and after a sequence of writes, whether
    they succeed or raise. *)
Definition sql_write (scope : StorageScope) (table : gmap Sql.PK Sql.Cols) (w : Write)
    : gmap Sql.PK Sql.Cols :=
  match w with
  | WPut now k v options => (Sql.put now table scope k v options).2
  | WDelete now k options => (Sql.delete now table scope k options).2
  | WBatchPut now entries => (Sql.batchPut now table scope entries).2
  end.

Definition sql_writes (scope : StorageScope) (table : gmap Sql.PK Sql.Cols)
    (ws : list Write) : gmap Sql.PK Sql.Cols :=
  foldl (sql_write scope) table ws.

(** A character that the glob of [SCAN ... MATCH] reads as itself. *)
Definition glob_literal (c : ascii) : bool :=
  negb (bool_decide (c = "*"%char)) && negb (bool_decide (c = "?"%char))
  && negb (bool_decide (c = "["%char)) && negb (bool_decide (c = "\"%char)).

(** The scope prefix has its marker [:k:] at its end only. *)
Definition marker_at_end (scope : StorageScope) : bool :=
  bool_decide (String.index 0 ":k:" (Redis.toScopePrefix scope)
               = Some (String.length (Redis.toScopePrefix scope) - 3)%nat).

(** The conditions of the key-value [list] on a key: not empty, with the
    prefix, after the cursor in the order of the code units. *)
Definition redis_key_selected (options : ListOptions) (k : string) : bool :=
  negb (Service.is_empty k)
  && startsWith k (default "" (prefix options))
  && match Js.truthy (decodeCursor (cursor options)) with
     | Some c => Js.ltb c k
     | None => true
     end.

(** A character that [LIKE] reads as itself. *)
Definition like_literal (c : ascii) : bool :=
  negb (bool_decide (c = "%"%char)) && negb (bool_decide (c = "_"%char)).

(** [s] starts with [p], ASCII letters compared without regard to
    case. *)
Fixpoint startsWith_nocase (s p : string) {struct p} : bool :=
  match p with
  | EmptyString => true
  | String a p' =>
      match s with
      | String c s' =>
          bool_decide (Sql.fold_case a = Sql.fold_case c) && startsWith_nocase s' p'
      | EmptyString => false
      end
  end.

(** A byte in the range from [lo] to [hi]. *)
Definition byte_in (lo hi : N) (c : ascii) : bool :=
  ((lo <=? N_of_ascii c) && (N_of_ascii c <=? hi))%N.

(** The second byte of a character of three bytes: no overlong form, no
    surrogate. *)
Definition second_of_three (a b : ascii) : bool :=
  if byte_in 224 224 a then byte_in 160 191 b
  else if byte_in 237 237 a then byte_in 128 159 b
  else byte_in 225 239 a && byte_in 128 191 b.

(** The second byte of a character of four bytes: no overlong form,
    nothing beyond U+10FFFF. *)
Definition second_of_four (a b : ascii) : bool :=
  if byte_in 240 240 a then byte_in 144 191 b
  else if byte_in 244 244 a then byte_in 128 143 b
  else byte_in 241 243 a && byte_in 128 191 b.

(** The bytes are well-formed UTF-8: the text of a JavaScript string
    without lone surrogates. *)
Fixpoint well_formed (s : string) : bool :=
  match s with
  | EmptyString => true
  | String a r =>
      if byte_in 0 127 a then well_formed r
      else
        match r with
        | String b r2 =>
            if byte_in 194 223 a then byte_in 128 191 b && well_formed r2
            else
              match r2 with
              | String c r3 =>
                  if byte_in 224 239 a
                  then second_of_three a b && byte_in 128 191 c && well_formed r3
                  else
                    match r3 with
                    | String d r4 =>
                        second_of_four a b && byte_in 128 191 c && byte_in 128 191 d
                        && well_formed r4
                    | EmptyString => false
                    end
              | EmptyString => false
              end
        | EmptyString => false
        end
  end.

(** A cursor as [list] hands it out: absent, or [encodeCursor] of a
    well-formed key. *)
Definition genuine_cursor (c : option string) : bool :=
  match c with
  | None => true
  | Some c =>
      well_formed (Base64Url.decode c)
      && bool_decide (encodeCursor (Base64Url.decode c) = c)
  end.

(** Arithmetic on the byte ranges of white space. *)
Ltac ws_arith :=
  unfold is_ws3, is_ws2, is_ws in *;
  repeat match goal with
         | |- context [N_of_ascii ?c] =>
             let x := fresh "x" in generalize (N_of_ascii c); intros x
         | H : context [N_of_ascii ?c] |- _ =>
             let x := fresh "x" in generalize dependent (N_of_ascii c); intros x
         end;
  repeat (progress rewrite ?andb_true_iff, ?orb_true_iff, ?negb_true_iff,
            ?andb_false_iff, ?orb_false_iff, ?N.eqb_eq, ?N.eqb_neq,
            ?N.leb_le, ?N.leb_gt, ?N.ltb_lt, ?N.ltb_ge in * );
  lia.

(* ================================================================== *)
(** * The utility layer: numerals, trimming, cursors *)

Section Numerals.

Lemma uint_value_pos d p :
  uint_value d (Z.pos p) = Z.pos (Pos.of_uint_acc d p).
Proof.
  revert p. induction d; intros p; simpl; [reflexivity | ..];
    rewrite <- IHd; f_equal; lia.
Qed.

Lemma uint_value_0 d : uint_value d 0 = Z.of_N (Pos.of_uint d).
Proof.
  induction d; simpl; [reflexivity | exact IHd | ..];
    apply uint_value_pos.
Qed.

Lemma parse_digits_numeral d rest seen acc :
  parse_digits (NilEmpty.string_of_uint d +:+ rest) seen acc
  = parse_digits rest
      (seen || match d with Decimal.Nil => false | _ => true end)
      (uint_value d acc).
Proof.
  revert seen acc. induction d; intros seen acc; simpl;
    [by rewrite orb_false_r | ..];
    rewrite IHd; rewrite orb_true_r;
    by destruct d; rewrite ?orb_true_r.
Qed.

Lemma parse_digits_positive p rest :
  parse_digits (NilEmpty.string_of_uint (Pos.to_uint p) +:+ rest) false 0
  = parse_digits rest true (Z.pos p).
Proof.
  rewrite parse_digits_numeral, uint_value_0, DecimalPos.Unsigned.of_to.
  pose proof (DecimalPos.Unsigned.to_uint_nonnil p) as Hn.
  by destruct (Pos.to_uint p).
Qed.

Lemma string_of_uint_positive p :
  NilZero.string_of_uint (Pos.to_uint p) = NilEmpty.string_of_uint (Pos.to_uint p).
Proof.
  pose proof (DecimalPos.Unsigned.to_uint_nonnil p) as Hn.
  by destruct (Pos.to_uint p).
Qed.

End Numerals.

Section Trimming.

Lemma append_empty_r s : s +:+ "" = s.
Proof. induction s as [| a s IH]; [done |]. simpl. by rewrite IH. Qed.

Lemma plain_string_of_uint d : string_forall plain (NilEmpty.string_of_uint d) = true.
Proof. induction d; simpl; [done | ..]; exact IHd. Qed.

Lemma plain_string_of_Z n : string_forall plain (string_of_Z n) = true.
Proof.
  unfold string_of_Z. destruct n as [| p | p]; simpl; [done | ..];
    rewrite string_of_uint_positive; apply plain_string_of_uint.
Qed.

Lemma string_of_Z_nonempty n : string_of_Z n ≠ "".
Proof.
  unfold string_of_Z. destruct n as [| p | p]; simpl; [done | | done].
  rewrite string_of_uint_positive.
  pose proof (DecimalPos.Unsigned.to_uint_nonnil p).
  by destruct (Pos.to_uint p).
Qed.

(** Strings, up to three bytes at a time. *)
Lemma string_ind_ws (P : string -> Prop) :
  P "" ->
  (forall a r, P r ->
     (forall b r', r = String b r' -> P r') ->
     (forall b c r', r = String b (String c r') -> P r') ->
     P (String a r)) ->
  forall s, P s.
Proof.
  intros H0 Hstep s.
  assert (forall n s, (String.length s <= n)%nat -> P s) as Hall;
    [| by apply (Hall (String.length s))].
  clear s. induction n as [| n IH]; intros [| a r] Hlen; simpl in Hlen;
    [exact H0 | lia | exact H0 |].
  apply Hstep.
  - apply IH. lia.
  - intros b r' ->. apply IH. simpl in Hlen. lia.
  - intros b c r' ->. apply IH. simpl in Hlen. lia.
Qed.

Lemma is_ws2_bytes a b :
  is_ws2 a b = true -> is_ws a = false /\ is_ws b = false.
Proof.
  intros H. split; apply not_true_iff_false; intros H'; revert H H'; ws_arith.
Qed.

Lemma is_ws3_bytes a b c :
  is_ws3 a b c = true ->
  is_ws a = false /\ is_ws2 a b = false /\ is_ws b = false
  /\ is_ws2 b c = false /\ is_ws c = false.
Proof.
  intros H. split_and!; apply not_true_iff_false; intros H'; revert H H'; ws_arith.
Qed.

Lemma word_char_bytes c b d :
  word_char c = true -> is_ws c = false /\ is_ws2 c b = false /\ is_ws3 c b d = false.
Proof.
  unfold word_char. intros H.
  split_and!; apply not_true_iff_false; intros H'; revert H H'; ws_arith.
Qed.

Lemma trimStart_ws ws s : all_ws ws = true -> trimStart (ws +:+ s) = trimStart s.
Proof.
  induction ws as [| a r IH1 IH2 IH3] using string_ind_ws; [done |].
  cbn [all_ws]. destruct (is_ws a) eqn:Ha.
  - intros Hr. simpl. rewrite Ha. auto.
  - destruct r as [| b r']; [done |].
    destruct (is_ws2 a b) eqn:Hab.
    + intros Hr. simpl. rewrite Ha, Hab. by apply (IH2 b r').
    + destruct r' as [| c r'']; [done |].
      intros [Habc Hr]%andb_true_iff. simpl. rewrite Ha, Hab, Habc.
      by apply (IH3 b c r'').
Qed.

Lemma trimStart_head c s : word_char c = true -> trimStart (String c s) = String c s.
Proof.
  intros Hc. simpl.
  destruct (word_char_bytes c " " " " Hc) as (-> & _ & _).
  destruct s as [| b s]; [done |].
  destruct (word_char_bytes c b " " Hc) as (_ & -> & _).
  destruct s as [| d s]; [done |].
  by destruct (word_char_bytes c b d Hc) as (_ & _ & ->).
Qed.

Lemma trimStart_all_ws ws : all_ws ws = true -> trimStart ws = "".
Proof.
  intros H. rewrite <- (append_empty_r ws). by rewrite trimStart_ws.
Qed.

Lemma trimEnd_ws ws : all_ws ws = true -> trimEnd ws = "".
Proof.
  induction ws as [| a r IH1 IH2 IH3] using string_ind_ws; [done |].
  cbn [all_ws]. destruct (is_ws a) eqn:Ha.
  - intros Hr. cbn [trimEnd]. rewrite IH1 by done.
    unfold is_ws_char, after_ws. by rewrite Ha.
  - destruct r as [| b r']; [done |].
    destruct (is_ws2 a b) eqn:Hab.
    + intros Hr. destruct (is_ws2_bytes a b Hab) as [_ Hb].
      cbn [trimEnd]. rewrite (IH2 b r') by done.
      unfold is_ws_char, after_ws. by rewrite Hb, Ha, Hab.
    + destruct r' as [| c r'']; [done |].
      intros [Habc Hr]%andb_true_iff.
      destruct (is_ws3_bytes a b c Habc) as (_ & _ & Hb & Hbc & Hc).
      cbn [trimEnd]. rewrite (IH3 b c r'') by done.
      unfold is_ws_char, after_ws. by rewrite Hc, Hb, Hbc, Ha, Hab, Habc.
Qed.

Lemma is_ws_char_word c s : word_char c = true -> is_ws_char (String c s) = false.
Proof.
  intros Hc. unfold is_ws_char, after_ws.
  destruct (word_char_bytes c " " " " Hc) as (-> & _ & _).
  destruct s as [| b s]; [done |].
  destruct (word_char_bytes c b " " Hc) as (_ & -> & _).
  destruct s as [| d s]; [done |].
  by destruct (word_char_bytes c b d Hc) as (_ & _ & ->).
Qed.

Lemma string_forall_app p s t :
  string_forall p (s +:+ t) = string_forall p s && string_forall p t.
Proof. induction s; simpl; [done |]. by rewrite IHs, andb_assoc. Qed.

Lemma trimEnd_word body ws :
  string_forall word_char body = true -> all_ws ws = true ->
  trimEnd (body +:+ ws) = body.
Proof.
  intros Hb Hws. induction body as [| c body IH]; simpl in *.
  - by apply trimEnd_ws.
  - apply andb_true_iff in Hb as [Hc Hb].
    rewrite IH by done. by rewrite is_ws_char_word.
Qed.

(** A text of ASCII characters without white space, with white space
    around it, is trimmed to itself. *)
Lemma trim_plain ws1 body ws2 :
  all_ws ws1 = true -> all_ws ws2 = true ->
  string_forall word_char body = true ->
  trim (ws1 +:+ body +:+ ws2) = body.
Proof.
  intros H1 H2 Hb. unfold trim. rewrite trimStart_ws by done.
  destruct body as [| c body].
  - simpl. by rewrite trimStart_all_ws.
  - simpl in Hb. apply andb_true_iff in Hb as [Hc Hb].
    change (String c body +:+ ws2) with (String c (body +:+ ws2)).
    rewrite trimStart_head by done.
    change (String c (body +:+ ws2)) with (String c body +:+ ws2).
    apply trimEnd_word; [| done]. simpl. by rewrite Hc, Hb.
Qed.

Lemma parseInt_numeral d rest :
  d ≠ Decimal.Nil ->
  parseInt (NilEmpty.string_of_uint d +:+ rest)
  = parse_digits (NilEmpty.string_of_uint d +:+ rest) false 0.
Proof.
  intros Hd. unfold parseInt.
  destruct d; [done | ..]; cbn [NilEmpty.string_of_uint String.append];
    by rewrite trimStart_head.
Qed.

Lemma parseInt_string_of_Z n : parseInt (string_of_Z n) = Some n.
Proof.
  unfold string_of_Z. destruct n as [| p | p]; simpl; [done | ..].
  - rewrite string_of_uint_positive.
    rewrite <- (append_empty_r (NilEmpty.string_of_uint _)).
    rewrite parseInt_numeral by apply DecimalPos.Unsigned.to_uint_nonnil.
    by rewrite parse_digits_positive.
  - rewrite string_of_uint_positive.
    rewrite <- (append_empty_r (NilEmpty.string_of_uint _)).
    unfold parseInt. rewrite trimStart_head by done. cbv iota beta.
    by rewrite parse_digits_positive.
Qed.

End Trimming.

Section IfMatch.

Lemma normalizeIfMatch_unquoted s :
  normalizeIfMatch (Some s)
  = match parseInt (unquoted s) with
    | None => None
    | Some parsed => if parsed <=? 0 then None else Some parsed
    end.
Proof. by destruct s. Qed.

Lemma validateIfMatch_nonempty s :
  s ≠ "" ->
  Service.validateIfMatch (Some s)
  = match normalizeIfMatch (Some s) with
    | None => Err (PreconditionFailedError "If-Match header is invalid")
    | Some version => Ok (Some version)
    end.
Proof. by destruct s. Qed.

Lemma validateIfMatch_parsed s n :
  s ≠ "" -> parseInt (unquoted s) = Some n ->
  Service.validateIfMatch (Some s) = ifMatchOutcome n.
Proof.
  intros Hs Hp. rewrite validateIfMatch_nonempty by done.
  rewrite normalizeIfMatch_unquoted, Hp. unfold ifMatchOutcome.
  destruct (Z.leb_spec n 0), (Z.ltb_spec 0 n); (done || lia).
Qed.

Lemma around_nonempty ws1 body ws2 : body ≠ "" -> ws1 +:+ body +:+ ws2 ≠ "".
Proof. destruct ws1, body; simpl; congruence. Qed.

Lemma plain_not_ws s :
  string_forall plain s = true -> string_forall word_char s = true.
Proof.
  induction s as [| c s IH]; simpl; [done |].
  unfold plain at 1, word_char at 1.
  intros [[[-> ->]%andb_true_iff _]%andb_true_iff Hs]%andb_true_iff. auto.
Qed.

Lemma startsWith_quote_plain s :
  string_forall plain s = true -> startsWith s (String dquote "") = false.
Proof.
  destruct s as [| c s]; [done |]. simpl.
  unfold plain at 1. intros [[_ Hq%negb_true_iff]%andb_true_iff _]%andb_true_iff.
  by rewrite Hq.
Qed.

Lemma lastChar_snoc s c : lastChar (s +:+ String c "") = Some c.
Proof.
  induction s as [| a s IH]; simpl; [done |]. rewrite IH.
  by destruct s.
Qed.

Lemma substring_0_app s t : String.substring 0 (String.length s) (s +:+ t) = s.
Proof. induction s as [| a s IH]; simpl; [by destruct t | by rewrite IH]. Qed.

Lemma length_snoc s c : String.length (s +:+ String c "") = S (String.length s).
Proof. induction s; simpl; [done | by f_equal]. Qed.

Lemma unquoted_bare ws1 ws2 n :
  all_ws ws1 = true -> all_ws ws2 = true ->
  unquoted (ws1 +:+ string_of_Z n +:+ ws2) = string_of_Z n.
Proof.
  intros H1 H2. unfold unquoted.
  rewrite trim_plain by eauto using plain_not_ws, plain_string_of_Z.
  by rewrite startsWith_quote_plain by apply plain_string_of_Z.
Qed.

Lemma quoted_slice body :
  let q := String dquote (body +:+ String dquote "") in
  startsWith q (String dquote "") = true
  /\ endsWithQuote q = true
  /\ slice_1_m1 q = body.
Proof.
  intros q. split_and!.
  - reflexivity.
  - unfold endsWithQuote, q.
    change (String dquote (body +:+ String dquote ""))
      with (String dquote body +:+ String dquote "").
    by rewrite lastChar_snoc.
  - unfold slice_1_m1, q.
    change (String.length (String dquote (body +:+ String dquote "")))
      with (S (String.length (body +:+ String dquote ""))).
    rewrite length_snoc.
    change (String.substring 1 (S (S (String.length body)) - 2)
              (String dquote (body +:+ String dquote "")))
      with (String.substring 0 (String.length body - 0) (body +:+ String dquote "")).
    rewrite Nat.sub_0_r. apply substring_0_app.
Qed.

Lemma unquoted_quoted ws1 ws2 n :
  all_ws ws1 = true -> all_ws ws2 = true ->
  unquoted (ws1 +:+ etagFromVersion n +:+ ws2) = string_of_Z n.
Proof.
  intros H1 H2. unfold unquoted.
  rewrite trim_plain; [| done | done |].
  - unfold etagFromVersion.
    destruct (quoted_slice (string_of_Z n)) as (-> & -> & ->). done.
  - unfold etagFromVersion. simpl. rewrite string_forall_app.
    rewrite (plain_not_ws _ (plain_string_of_Z n)). done.
Qed.

Lemma etag_nonempty n : etagFromVersion n ≠ "".
Proof. done. Qed.

End IfMatch.

(* ================================================================== *)
(** * Limits and preconditions of the service *)

Section Limits.

Lemma trunc_nonpos q : Qle_bool q 0 = true -> Clamp.trunc q <= 0.
Proof.
  destruct q as [a b]. unfold Qle_bool, Clamp.trunc. simpl.
  rewrite Z.mul_1_r. intros Ha%Z.leb_le.
  replace a with (- - a) by lia. rewrite Z.quot_opp_l by lia.
  rewrite Z.quot_div_nonneg by lia.
  pose proof (Z.div_pos (- a) (Z.pos b)). lia.
Qed.

Lemma trunc_above q max :
  Qle_bool q 0 = false -> Qle_bool (inject_Z max) q = true -> max <= Clamp.trunc q.
Proof.
  destruct q as [a b]. unfold Qle_bool, Clamp.trunc. simpl.
  rewrite Z.mul_1_r. intros Ha%Z.leb_gt Hm%Z.leb_le.
  rewrite Z.quot_div_nonneg by lia.
  apply Z.div_le_lower_bound; lia.
Qed.

Lemma trunc_below q max :
  Qle_bool q 0 = false -> Qle_bool (inject_Z max) q = false -> Clamp.trunc q < max.
Proof.
  destruct q as [a b]. unfold Qle_bool, Clamp.trunc. simpl.
  rewrite Z.mul_1_r. intros Ha%Z.leb_gt Hm%Z.leb_gt.
  rewrite Z.quot_div_nonneg by lia.
  apply Z.div_lt_upper_bound; lia.
Qed.

Lemma clampLimit_by_cases limit max :
  1 <= max -> clampLimit limit max 50 = limit_by_cases limit max.
Proof.
  intros Hmax. destruct limit as [[| | | q] |]; try reflexivity.
  unfold clampLimit, limit_by_cases. simpl.
  assert (Qeq_bool q 0 = (Qnum q =? 0)) as ->.
  { destruct q as [a b]. unfold Qeq_bool. simpl. by rewrite Z.mul_1_r. }
  destruct (Qnum q =? 0); [done |]. simpl.
  destruct (Qle_bool q 0) eqn:Hneg.
  - pose proof (trunc_nonpos q Hneg). lia.
  - destruct (Qle_bool (inject_Z max) q) eqn:Hbig.
    + pose proof (trunc_above q max Hneg Hbig). lia.
    + pose proof (trunc_below q max Hneg Hbig). lia.
Qed.

End Limits.

(** C7 (amended).  Through the service, [list] hands the adapter the
    limit [clampLimit(limit, maxListLimit, 50)], and with [maxListLimit]
    at least [1] that limit is, case by case: the default [50] for an
    absent, a non-finite and also for a zero limit; [1] for a negative
    limit; [maxListLimit] for a limit of [maxListLimit] or more; the
    integer part of the limit, at least [1], in between. *)
Theorem C7_service_limit :
  forall (opts : Service.StorageServiceOptions) (S : Type) (adapter : StorageAdapter S)
         (now : Timestamp) (st : S) (scope : StorageScope)
         (options : Service.ServiceListOptions),
    1 <= Service.maxListLimit opts ->
    Service.validateScope scope = Ok tt ->
    Service.strlen (default "" (Service.list_prefix options)) <= Service.maxKeyLength opts ->
    Service.list opts adapter now st scope options
    = adapter_list adapter now st scope
        {| prefix := Service.list_prefix options;
           cursor := Service.list_cursor options;
           limit := Some (limit_by_cases (Service.list_limit options)
                            (Service.maxListLimit opts)) |}.
Proof.
  intros opts S adapter now st scope options Hmax Hscope Hprefix.
  unfold Service.list, Service.effectiveLimit. rewrite Hscope. simpl.
  rewrite clampLimit_by_cases by done.
  destruct (Service.list_prefix options) as [p |]; simpl in *; [| done].
  by destruct (Z.ltb_spec (Service.maxKeyLength opts) (Service.strlen p)); [lia |].
Qed.

(** The cases of C7 on the in-memory SQL adapter with the default options:
    limits [-3], [1000] and [7/2] reach the adapter as [1], [100] and [3]. *)
Lemma C7_service_limit_witness :
  let call (limit : option JsNumber) :=
    Service.list Service.defaultOptions (SqlStorageAdapter Sql.sqlite_like)
      0 ∅ (mkScope "t" "n" "u") (Service.mkServiceListOptions None None limit) in
  let handed (l : Z) :=
    adapter_list (SqlStorageAdapter Sql.sqlite_like) 0 ∅ (mkScope "t" "n" "u")
      (mkListOptions None None (Some l)) in
  call (Some (Clamp.ofZ (-3))) = handed 1
  /\ call (Some (Clamp.ofZ 1000)) = handed 100
  /\ call (Some (Finite (7 # 2))) = handed 3
  /\ call None = handed 50.
Proof.
  intros call handed. unfold call, handed.
  split_and!;
    refine (C7_service_limit Service.defaultOptions _ _ 0 ∅ (mkScope "t" "n" "u")
              (Service.mkServiceListOptions None None _) _ _ _);
    (reflexivity || (vm_compute; discriminate)).
Defined.

(** C7 as stated fails at limit [0]: the service uses the default [50],
    not [1]. *)
Lemma C7_counterexample :
  Service.effectiveLimit Service.defaultOptions (Some (Clamp.ofZ 0)) = 50
  /\ Service.effectiveLimit Service.defaultOptions (Some (Clamp.ofZ 0)) <> 1.
Proof. split; [reflexivity | discriminate]. Qed.

(** C8 (amended).  For the [If-Match] string of [setItem] and
    [removeItem]: an absent or empty string is no precondition; the bare
    decimal [N] and the quoted ["N"] of a safe integer [N] (below [2^53]
    in absolute value), with white space around them, are accepted iff
    [N] is positive and then give version [N]; every other non-empty
    string is judged by what [parseInt] reads at the start of the trimmed,
    unquoted text: a positive decimal prefix that is a safe integer (as in
    [12abc] or [+5]) is accepted with that value, a text without such a
    prefix and a prefix that is not positive raise a precondition failure;
    no string raises a validation error.  (Beyond the safe integers the
    platform rounds what it reads to a double.) *)
Theorem C8_if_match :
  forall (ws1 ws2 : string) (n : Z) (s : string),
    all_ws ws1 = true -> all_ws ws2 = true -> safe_integer n = true -> s <> "" ->
    Service.validateIfMatch None = Ok None
    /\ Service.validateIfMatch (Some "") = Ok None
    /\ Service.validateIfMatch (Some (ws1 +:+ string_of_Z n +:+ ws2)) = ifMatchOutcome n
    /\ Service.validateIfMatch (Some (ws1 +:+ etagFromVersion n +:+ ws2)) = ifMatchOutcome n
    /\ match parseInt (unquoted s) with
       | Some v =>
           safe_integer v = true -> Service.validateIfMatch (Some s) = ifMatchOutcome v
       | None =>
           Service.validateIfMatch (Some s)
           = Err (PreconditionFailedError "If-Match header is invalid")
       end
    /\ raisesValidation (Service.validateIfMatch (Some s)) = false.
Proof.
  intros ws1 ws2 n s H1 H2 _ Hs.
  assert (Service.validateIfMatch (Some s)
          = match parseInt (unquoted s) with
            | Some v => ifMatchOutcome v
            | None => Err (PreconditionFailedError "If-Match header is invalid")
            end) as Hgen.
  { destruct (parseInt (unquoted s)) as [v |] eqn:Hp.
    - by apply validateIfMatch_parsed.
    - rewrite validateIfMatch_nonempty, normalizeIfMatch_unquoted, Hp; done. }
  split_and!; try done.
  - apply validateIfMatch_parsed.
    + apply around_nonempty, string_of_Z_nonempty.
    + rewrite unquoted_bare by done. apply parseInt_string_of_Z.
  - apply validateIfMatch_parsed.
    + apply around_nonempty, etag_nonempty.
    + rewrite unquoted_quoted by done. apply parseInt_string_of_Z.
  - rewrite Hgen. by destruct (parseInt (unquoted s)).
  - rewrite Hgen. destruct (parseInt (unquoted s)) as [v |]; [| done].
    unfold ifMatchOutcome. by destruct (0 <? v).
Qed.

(** C8 at [12] between a space and a no-break space, at the quoted ["12"]
    between the same, and at [12abc]. *)
Lemma C8_if_match_witness :
  let nbsp := String (ascii_of_N 194) (String (ascii_of_N 160) "") in
  Service.validateIfMatch (Some (" " +:+ "12" +:+ nbsp)) = Ok (Some 12)
  /\ Service.validateIfMatch (Some (" " +:+ etagFromVersion 12 +:+ nbsp)) = Ok (Some 12)
  /\ Service.validateIfMatch (Some "12abc") = Ok (Some 12).
Proof.
  intros nbsp.
  pose proof (C8_if_match " " nbsp 12 "12abc" eq_refl eq_refl eq_refl) as H.
  destruct H as (_ & _ & Hbare & Hquoted & Hs & _); [discriminate |].
  split_and!; [exact Hbare | exact Hquoted | exact (Hs eq_refl)].
Defined.

(** C8 as stated fails at [12abc], which is neither [N] nor ["N"] and is
    accepted with version [12]; [0] and [abc] do raise the precondition
    failure. *)
Lemma C8_counterexample :
  Service.validateIfMatch (Some "12abc") = Ok (Some 12)
  /\ raisesPrecondition (Service.validateIfMatch (Some "12abc")) = false
  /\ raisesPrecondition (Service.validateIfMatch (Some "0")) = true
  /\ raisesPrecondition (Service.validateIfMatch (Some "abc")) = true.
Proof. by split_and!. Qed.

(* ================================================================== *)
(** * The service validates before it calls the adapter *)

Section Validation.

Variable opts : Service.StorageServiceOptions.

Lemma validateIfMatch_string_of_Z n :
  Service.validateIfMatch (Some (string_of_Z n)) = ifMatchOutcome n.
Proof.
  apply validateIfMatch_parsed; [apply string_of_Z_nonempty |].
  pose proof (unquoted_bare "" "" n eq_refl eq_refl) as H.
  simpl in H. rewrite append_empty_r in H. rewrite H.
  apply parseInt_string_of_Z.
Qed.

(** Every check of the service but [validateIfMatch] fails with a
    validation error. *)
Lemma validateScope_cases scope :
  Service.validateScope scope = Ok tt
  \/ exists m, Service.validateScope scope = Err (ValidationError m).
Proof. unfold Service.validateScope. destruct (_ || _); eauto. Qed.

Lemma validateKey_cases key :
  Service.validateKey opts key = Ok tt
  \/ exists m, Service.validateKey opts key = Err (ValidationError m).
Proof.
  unfold Service.validateKey.
  destruct (Service.is_empty key); [eauto |]. destruct (_ <? _); eauto.
Qed.

Lemma validateValue_cases value :
  Service.validateValue opts value = Ok tt
  \/ exists m, Service.validateValue opts value = Err (ValidationError m).
Proof. unfold Service.validateValue. destruct (_ <? _); eauto. Qed.

Lemma validateTtlSeconds_cases ttl :
  Service.validateTtlSeconds ttl = Ok ttl
  \/ exists m, Service.validateTtlSeconds ttl = Err (ValidationError m).
Proof.
  unfold Service.validateTtlSeconds. destruct ttl as [t |]; [| eauto].
  destruct (_ <=? _); eauto.
Qed.

Lemma validateKey_empty :
  Service.validateKey opts "" = Err (ValidationError "key is required").
Proof. reflexivity. Qed.

Lemma validateKeys_empty keys :
  "" ∈ keys ->
  exists m, Service.validateKeys opts keys = Err (ValidationError m).
Proof.
  induction keys as [| k keys IH]; intros Hin; [by apply elem_of_nil in Hin |].
  simpl. apply elem_of_cons in Hin as [<- | Hin]; [eauto |].
  destruct (validateKey_cases k) as [-> | [m ->]]; simpl; eauto.
Qed.

Lemma validateKey_nonempty key : Service.validateKey opts key = Ok tt -> key <> "".
Proof. by intros H ->. Qed.

Lemma validateEntries_empty entries :
  "" ∈ (entry_key <$> entries) ->
  exists e, Service.validateEntries opts entries = Err e
    /\ (isValidation e = true
        \/ e = invalidIfMatch
           /\ exists before bad after,
                entries = before ++ bad :: after
                /\ ("" ∉ (entry_key <$> before))
                /\ entry_key bad <> ""
                /\ bad_ifMatch bad).
Proof.
  induction entries as [| entry entries IH]; intros Hin;
    [by apply elem_of_nil in Hin |].
  simpl in *. apply elem_of_cons in Hin as [Hk | Hin].
  { rewrite <- Hk. simpl. eauto. }
  destruct (validateKey_cases (entry_key entry)) as [Hkey | [m ->]]; simpl; [| eauto].
  rewrite Hkey. simpl. apply validateKey_nonempty in Hkey.
  destruct (validateValue_cases (entry_value entry)) as [-> | [m ->]]; simpl; [| eauto].
  destruct (validateTtlSeconds_cases (entry_ttlSeconds entry)) as [-> | [m ->]];
    simpl; [| eauto].
  assert (forall e,
            isValidation e = true
            \/ e = invalidIfMatch
               /\ (exists before bad after,
                     entries = before ++ bad :: after
                     /\ ("" ∉ (entry_key <$> before))
                     /\ entry_key bad <> ""
                     /\ bad_ifMatch bad) ->
            isValidation e = true
            \/ e = invalidIfMatch
               /\ (exists before bad after,
                     entry :: entries = before ++ bad :: after
                     /\ ("" ∉ (entry_key <$> before))
                     /\ entry_key bad <> ""
                     /\ bad_ifMatch bad)) as Hlater.
  { intros e [He | [He (before & bad & after & -> & Hbefore & Hbad)]]; [by left | right].
    split; [done |]. exists (entry :: before), bad, after.
    split_and!; try done; try tauto.
    rewrite fmap_cons. intros [? | ?]%elem_of_cons; [congruence | done]. }
  destruct (entry_ifMatchVersion entry) as [v |] eqn:Hv;
    cbn [fmap option_fmap option_map].
  - rewrite validateIfMatch_string_of_Z. unfold ifMatchOutcome.
    destruct (Z.ltb_spec 0 v); simpl.
    + destruct (IH Hin) as (e & -> & He). simpl. exists e. eauto.
    + eexists. split; [done |]. right. split; [done |].
      exists [], entry, entries. split_and!; try done.
      * simpl. apply not_elem_of_nil.
      * by exists v.
  - destruct (IH Hin) as (e & -> & He). simpl. exists e. eauto.
Qed.

End Validation.

(** C10 (amended).  With an empty key, [getItem], [setItem], [removeItem]
    and [batchGet] (for a list of keys that holds the empty one) are
    rejected with a validation error, and [batchPut] (for entries that
    hold it) is rejected, before the adapter is invoked: whatever the
    adapter, the state of the backend is returned as it was.  The error of
    [batchPut] is a validation error, unless an entry with a non-positive
    [ifMatchVersion] (and a key that is not empty) stands before the first
    entry with the empty key: then it can be the precondition failure of
    an [If-Match] that cannot be read. *)
Theorem C10_empty_key :
  forall (opts : Service.StorageServiceOptions) (S : Type) (adapter : StorageAdapter S)
         (now : Timestamp) (st : S) (scope : StorageScope) (value : JsonValue)
         (options : Service.SetItemOptions) (ifMatch : option string)
         (keys : list string) (entries : list BatchPutEntry),
    "" ∈ keys ->
    "" ∈ (entry_key <$> entries) ->
    (exists m, Service.getItem opts adapter now st scope ""
               = (Err (ValidationError m), st))
    /\ (exists m, Service.setItem opts adapter now st scope "" value options
                  = (Err (ValidationError m), st))
    /\ (exists m, Service.removeItem opts adapter now st scope "" ifMatch
                  = (Err (ValidationError m), st))
    /\ (exists m, Service.batchGet opts adapter now st scope keys
                  = (Err (ValidationError m), st))
    /\ (exists e, Service.batchPut opts adapter now st scope entries = (Err e, st)
          /\ (isValidation e = true
              \/ e = invalidIfMatch
                 /\ exists before bad after,
                      entries = before ++ bad :: after
                      /\ ("" ∉ (entry_key <$> before))
                      /\ entry_key bad <> ""
                      /\ bad_ifMatch bad)).
Proof.
  intros opts S adapter now st scope value options ifMatch keys entries Hk He.
  unfold Service.getItem, Service.setItem, Service.removeItem,
    Service.batchGet, Service.batchPut.
  destruct (validateScope_cases scope) as [-> | [m ->]]; simpl;
    [| split_and!; eauto].
  split_and!; eauto.
  - destruct (validateKeys_empty opts keys Hk) as [m ->].
    destruct keys as [| k keys]; [by apply elem_of_nil in Hk |]. simpl.
    destruct (_ <? _); simpl; eauto.
  - destruct (validateEntries_empty opts entries He) as (e & -> & Hcases).
    destruct entries as [| entry entries]; [by apply elem_of_nil in He |]. simpl.
    destruct (_ <? _); simpl; eauto.
Qed.

(** C10 on the in-memory SQL adapter; the second batch has an entry with
    [ifMatchVersion = 0] after the entry of the empty key. *)
Lemma C10_empty_key_witness :
  let adapter := SqlStorageAdapter Sql.sqlite_like in
  let scope := mkScope "t" "n" "u" in
  (Service.getItem Service.defaultOptions adapter 0 ∅ scope "").2 = ∅
  /\ raisesValidation
       (Service.batchGet Service.defaultOptions adapter 0 ∅ scope ["a"; ""]).1 = true
  /\ raisesValidation
       (Service.batchPut Service.defaultOptions adapter 0 ∅ scope
          [mkEntry "" "2" None None; mkEntry "a" "1" None (Some 0)]).1 = true.
Proof.
  intros adapter scope.
  destruct (C10_empty_key Service.defaultOptions _ adapter 0 ∅ scope "1"
              (Service.mkSetItemOptions None None) None ["a"; ""]
              [mkEntry "" "2" None None; mkEntry "a" "1" None (Some 0)])
    as ([m Hget] & _ & _ & [m' Hbg] & _).
  - set_solver.
  - simpl. set_solver.
  - split_and!.
    + by rewrite Hget.
    + by rewrite Hbg.
    + reflexivity.
Defined.

(** C10 as stated fails for [batchPut]: with an entry of
    [ifMatchVersion = 0] before the entry of the empty key, the call is
    rejected with a precondition failure, not a validation error. *)
Lemma C10_counterexample :
  Service.batchPut Service.defaultOptions (SqlStorageAdapter Sql.sqlite_like) 0 ∅
    (mkScope "t" "n" "u")
    [mkEntry "a" "1" None (Some 0); mkEntry "" "2" None None]
  = (Err (PreconditionFailedError "If-Match header is invalid"), ∅).
Proof. reflexivity. Qed.

(* ================================================================== *)
(** * The adapters, one primary key at a time *)

Section DateOrder.

Lemma text_compare_antisym a b :
  Date.text_compare b a = CompOpp (Date.text_compare a b).
Proof.
  unfold Date.text_compare.
  destruct (Date.textKey a) as [[ra ya] ta], (Date.textKey b) as [[rb yb] tb].
  rewrite (Z.compare_antisym ra rb), (Z.compare_antisym ya yb), (Z.compare_antisym ta tb).
  by destruct (ra ?= rb), (ya ?= yb), (ta ?= tb).
Qed.

(** The strict order of the texts is the negation of the converse
    order. *)
Lemma text_ltb_leb a b : Date.text_ltb a b = negb (Date.text_leb b a).
Proof.
  unfold Date.text_ltb, Date.text_leb. rewrite (text_compare_antisym a b).
  by destruct (Date.text_compare a b).
Qed.

(** On the years 0 to 9999 the order of the texts is the order of the
    instants. *)
Lemma text_leb_four_digit a b :
  four_digit_year a = true -> four_digit_year b = true ->
  Date.text_leb a b = (a <=? b).
Proof.
  unfold four_digit_year, Date.text_leb, Date.text_compare, Date.textKey.
  intros [Ha1 Ha2]%andb_true_iff [Hb1 Hb2]%andb_true_iff.
  destruct (Z.ltb_spec (Date.year a) 0); [lia |].
  destruct (Z.ltb_spec 9999 (Date.year a)); [lia |].
  destruct (Z.ltb_spec (Date.year b) 0); [lia |].
  destruct (Z.ltb_spec 9999 (Date.year b)); [lia |].
  simpl. unfold Z.leb. by destruct (a ?= b).
Qed.

(** A text of a year after 9999 is below every text of the years 0 to
    9999: such an expiry has passed at once. *)
Lemma text_leb_beyond e now :
  9999 < Date.year e -> four_digit_year now = true -> Date.text_leb e now = true.
Proof.
  unfold four_digit_year, Date.text_leb, Date.text_compare, Date.textKey.
  intros He [Hn1 Hn2]%andb_true_iff.
  destruct (Z.ltb_spec (Date.year e) 0); [lia |].
  destruct (Z.ltb_spec 9999 (Date.year e)); [| lia].
  destruct (Z.ltb_spec (Date.year now) 0); [lia |].
  destruct (Z.ltb_spec 9999 (Date.year now)); [lia |].
  done.
Qed.

End DateOrder.

Section SqlKey.

Implicit Types (table : gmap Sql.PK Sql.Cols).

(** The filter of the reads and [isExpired] agree. *)
Lemma notExpiredClause_isExpired now c :
  Sql.notExpiredClause now c = negb (isExpired (Sql.row_expiresAt c) now).
Proof.
  unfold Sql.notExpiredClause, isExpired.
  destruct (Sql.row_expiresAt c) as [e |]; [| done].
  apply text_ltb_leb.
Qed.

(** The expiry of a write is computed, or the date is invalid. *)
Lemma expiry_of_cases now ttl :
  (exists expiry, expiry_of now ttl = Ok expiry) \/ expiry_of now ttl = Throw invalidTime.
Proof.
  unfold expiry_of. destruct (Js.truthy_num ttl) as [t |]; [| eauto].
  destruct (Date.ofTime (now + t * 1000)); eauto.
Qed.

Lemma expiry_of_absent now : expiry_of now None = Ok None.
Proof. reflexivity. Qed.

Lemma sql_activeCurrent_state now table scope key :
  (λ r : Sql.Row, Sql.row_version r.2) <$> Sql.activeCurrent now table scope key
  = active_version (sql_state now table scope key).
Proof.
  unfold Sql.activeCurrent, Sql.getRow, sql_state, state_of.
  destruct (table !! Sql.pk_of scope key) as [c |]; simpl; [| done].
  by destruct (isExpired (Sql.row_expiresAt c) now).
Qed.

(** What [get] returns is the active item. *)
Lemma sql_get_state now table scope key :
  version <$> Sql.get now table scope key
  = active_version (sql_state now table scope key).
Proof.
  unfold Sql.get, Sql.getRow, sql_state, state_of.
  destruct (table !! Sql.pk_of scope key) as [c |]; simpl; [| done].
  rewrite notExpiredClause_isExpired.
  by destruct (isExpired (Sql.row_expiresAt c) now).
Qed.

Lemma sql_put_refused now table scope key value ttl v :
  active_version (sql_state now table scope key) <> Some v ->
  Sql.put now table scope key value {| ttlSeconds := ttl; ifMatchVersion := Some v |}
  = (Err ifMatchError, table).
Proof.
  intros Hv. unfold Sql.put. rewrite sql_activeCurrent_state. simpl.
  destruct (active_version _) as [cur |]; simpl; [| done].
  destruct (Z.eqb_spec cur v); [congruence | done].
Qed.

(** A [put] that passes the check succeeds, with the next version, and
    leaves a record with that version and the new expiry. *)
Lemma sql_put_accepted now table scope key value options expiry :
  put_precondition_fails (ifMatchVersion options)
    (active_version (sql_state now table scope key)) = false ->
  expiry_of now (ttlSeconds options) = Ok expiry ->
  exists item table',
    Sql.put now table scope key value options = (Ok item, table')
    /\ version item = next_version (sql_state now table scope key)
    /\ updatedAt item = now
    /\ (exists c, table' !! Sql.pk_of scope key = Some c
          /\ Sql.row_version c = version item
          /\ Sql.valueJson c = value
          /\ Sql.row_expiresAt c = expiry)
    /\ (forall pk, pk <> Sql.pk_of scope key -> table' !! pk = table !! pk).
Proof.
  intros Hpre Hexpiry. unfold Sql.put. rewrite sql_activeCurrent_state, Hpre, Hexpiry.
  eexists _, _. split; [reflexivity |]. simpl.
  assert (match Sql.activeCurrent now table scope key with
          | Some r => Sql.row_version r.2 + 1
          | None => 1
          end = next_version (sql_state now table scope key)) as Hnext.
  { pose proof (sql_activeCurrent_state now table scope key) as H.
    destruct (Sql.activeCurrent now table scope key) as [r |];
      destruct (sql_state now table scope key); simpl in *; congruence. }
  split_and!; [done | done | |].
  - unfold Sql.insertOnConflictDoUpdate.
    destruct (table !! Sql.pk_of scope key) as [old |];
      rewrite lookup_insert_eq; eexists; split_and!; try reflexivity; done.
  - intros pk Hpk. unfold Sql.insertOnConflictDoUpdate.
    destruct (table !! Sql.pk_of scope key) as [old |];
      by rewrite lookup_insert_ne.
Qed.

(** A [put] that passes the check and whose expiry is no valid date
    throws, and has written nothing. *)
Lemma sql_put_invalid_time now table scope key value options x :
  put_precondition_fails (ifMatchVersion options)
    (active_version (sql_state now table scope key)) = false ->
  expiry_of now (ttlSeconds options) = Throw x ->
  Sql.put now table scope key value options = (Throw x, table).
Proof.
  intros Hpre Hexpiry. unfold Sql.put.
  by rewrite sql_activeCurrent_state, Hpre, Hexpiry.
Qed.

Lemma sql_put_unconditional now table scope key value ttl expiry :
  expiry_of now ttl = Ok expiry ->
  exists item table',
    Sql.put now table scope key value {| ttlSeconds := ttl; ifMatchVersion := None |}
    = (Ok item, table')
    /\ Sql.valueJson <$> table' !! Sql.pk_of scope key = Some value.
Proof.
  intros Hexpiry.
  destruct (sql_put_accepted now table scope key value
              {| ttlSeconds := ttl; ifMatchVersion := None |} expiry eq_refl Hexpiry)
    as (item & table' & Hput & _ & _ & (c & Hc & _ & Hvalue & _) & _).
  exists item, table'. split; [done |]. by rewrite Hc, <- Hvalue.
Qed.

Lemma sql_delete_not_active now table scope key options :
  active_version (sql_state now table scope key) = None ->
  Sql.delete now table scope key options
  = match sql_state now table scope key, del_ifMatchVersion options with
    | Expired, Some _ => (Err ifMatchError, table)
    | Expired, None => (Ok false, base.delete (Sql.pk_of scope key) table)
    | _, _ => (Ok false, table)
    end.
Proof.
  unfold Sql.delete, Sql.getRow, sql_state, state_of.
  destruct (table !! Sql.pk_of scope key) as [c |]; simpl; [| done].
  destruct (isExpired (Sql.row_expiresAt c) now); [| done]. intros _.
  by destruct (del_ifMatchVersion options).
Qed.

Lemma sql_next_version_get now table scope key :
  next_version (sql_state now table scope key)
  = version_after (Sql.get now table scope key).
Proof.
  pose proof (sql_get_state now table scope key) as H.
  destruct (Sql.get now table scope key), (sql_state now table scope key);
    simpl in *; congruence.
Qed.

End SqlKey.

Section RedisKey.

Implicit Types (store : gmap string Redis.RedisEnvelope).

Lemma redis_active_state now store scope key :
  Redis.env_version
    <$> match store !! Redis.toRedisKey scope key with
        | Some e => if negb (isExpired (Redis.env_expiresAt e) now) then Some e else None
        | None => None
        end
  = active_version (redis_state now store scope key).
Proof.
  unfold redis_state, state_of.
  destruct (store !! Redis.toRedisKey scope key) as [e |]; simpl; [| done].
  by destruct (isExpired (Redis.env_expiresAt e) now).
Qed.

(** What [get] returns is the active item. *)
Lemma redis_get_state now store scope key :
  version <$> (Redis.get now store scope key).1
  = active_version (redis_state now store scope key).
Proof.
  unfold Redis.get, redis_state, state_of.
  destruct (store !! Redis.toRedisKey scope key) as [e |]; simpl; [| done].
  by destruct (isExpired (Redis.env_expiresAt e) now).
Qed.

Lemma redis_next_version_get now store scope key :
  next_version (redis_state now store scope key)
  = version_after (Redis.get now store scope key).1.
Proof.
  pose proof (redis_get_state now store scope key) as H.
  destruct (Redis.get now store scope key).1, (redis_state now store scope key);
    simpl in *; congruence.
Qed.

(** A refused [put] is refused at its first attempt, whatever the other
    clients do. *)
Lemma redis_put_refused others now store scope key value ttl v :
  active_version (redis_state now store scope key) <> Some v ->
  Redis.put_under others now store scope key value
    {| ttlSeconds := ttl; ifMatchVersion := Some v |}
  = (Err ifMatchError, store).
Proof.
  intros Hv. unfold Redis.put_under, Redis.retries. simpl.
  rewrite redis_active_state. simpl.
  destruct (active_version _) as [cur |]; simpl; [| done].
  destruct (Z.eqb_spec cur v); [congruence | done].
Qed.

Lemma redis_put_accepted now store scope key value options expiry :
  put_precondition_fails (ifMatchVersion options)
    (active_version (redis_state now store scope key)) = false ->
  expiry_of now (ttlSeconds options) = Ok expiry ->
  exists item store',
    Redis.put now store scope key value options = (Ok item, store')
    /\ version item = next_version (redis_state now store scope key)
    /\ updatedAt item = now
    /\ (exists e, store' !! Redis.toRedisKey scope key = Some e
          /\ Redis.env_version e = version item
          /\ Redis.valueJson e = value
          /\ Redis.env_expiresAt e = expiry)
    /\ (forall k, k <> Redis.toRedisKey scope key -> store' !! k = store !! k).
Proof.
  intros Hpre Hexpiry. unfold Redis.put, Redis.put_under, Redis.retries. simpl.
  rewrite redis_active_state, Hpre, Hexpiry.
  eexists _, _. split; [reflexivity |]. simpl.
  split_and!; [| done | |].
  - unfold redis_state, state_of.
    destruct (store !! Redis.toRedisKey scope key) as [e |]; simpl; [| done].
    by destruct (isExpired (Redis.env_expiresAt e) now).
  - rewrite lookup_insert_eq. eexists; split_and!; reflexivity.
  - intros k Hk. by rewrite lookup_insert_ne.
Qed.

(** A [put] that passes the check and whose expiry is no valid date
    throws at its first attempt, whatever the other clients do, and has
    written nothing. *)
Lemma redis_put_invalid_time others now store scope key value options x :
  put_precondition_fails (ifMatchVersion options)
    (active_version (redis_state now store scope key)) = false ->
  expiry_of now (ttlSeconds options) = Throw x ->
  Redis.put_under others now store scope key value options = (Throw x, store).
Proof.
  intros Hpre Hexpiry. unfold Redis.put_under, Redis.retries. simpl.
  by rewrite redis_active_state, Hpre, Hexpiry.
Qed.

Lemma redis_put_unconditional now store scope key value ttl expiry :
  expiry_of now ttl = Ok expiry ->
  exists item store',
    Redis.put now store scope key value {| ttlSeconds := ttl; ifMatchVersion := None |}
    = (Ok item, store')
    /\ Redis.valueJson <$> store' !! Redis.toRedisKey scope key = Some value.
Proof.
  intros Hexpiry.
  destruct (redis_put_accepted now store scope key value
              {| ttlSeconds := ttl; ifMatchVersion := None |} expiry eq_refl Hexpiry)
    as (item & store' & Hput & _ & _ & (e & He & _ & Hvalue & _) & _).
  exists item, store'. split; [done |]. by rewrite He, <- Hvalue.
Qed.

Lemma redis_delete_not_active now store scope key options :
  active_version (redis_state now store scope key) = None ->
  Redis.delete now store scope key options
  = match redis_state now store scope key, del_ifMatchVersion options with
    | Expired, Some _ => (Err ifMatchError, store)
    | Expired, None => (Ok false, base.delete (Redis.toRedisKey scope key) store)
    | _, _ => (Ok false, store)
    end.
Proof.
  unfold Redis.delete, Redis.delete_under, Redis.retries, redis_state, state_of.
  simpl.
  destruct (store !! Redis.toRedisKey scope key) as [e |] eqn:He; simpl; [| done].
  destruct (isExpired (Redis.env_expiresAt e) now) eqn:Hexp; [| done]. intros _.
  by destruct (del_ifMatchVersion options).
Qed.

(** Without a record, and with an expired record and a precondition,
    [delete] ends at its first attempt, whatever the other clients do. *)
Lemma redis_delete_first_attempt others now store scope key options :
  match redis_state now store scope key, del_ifMatchVersion options with
  | Absent, _ | Expired, Some _ => True
  | _, _ => False
  end ->
  Redis.delete_under others now store scope key options
  = Redis.delete now store scope key options.
Proof.
  unfold Redis.delete, Redis.delete_under, Redis.retries, redis_state, state_of.
  simpl.
  destruct (store !! Redis.toRedisKey scope key) as [e |] eqn:He; simpl; [| done].
  destruct (isExpired (Redis.env_expiresAt e) now) eqn:Hexp; [| done].
  by destruct (del_ifMatchVersion options).
Qed.

(** An unconditional [put] with a valid expiry succeeds as soon as one
    of its five attempts meets no write of another client. *)
Lemma redis_put_unconditional_retry attempts others now store redisKey key value ttl
    expiry :
  expiry_of now ttl = Ok expiry ->
  (exists i, (i < attempts)%nat /\ (others !! i = None \/ others !! i = Some None)) ->
  isOk (Redis.put_attempts attempts others now store redisKey key value
          {| ttlSeconds := ttl; ifMatchVersion := None |}).1 = true.
Proof.
  intros Hexpiry.
  revert others store. induction attempts as [| n IH]; intros others store (i & Hi & Hq);
    [lia |].
  simpl. rewrite Hexpiry. destruct others as [| [o |] others']; [done | | done].
  apply IH. destruct i as [| i]; simpl in Hq.
  - by destruct Hq.
  - exists i. split; [lia | done].
Qed.

(** The retry budget: five conflicts in a row end an unconditional
    [put] with a precondition failure. *)
Lemma redis_put_budget o1 o2 o3 o4 o5 others now store scope key value ttl expiry :
  expiry_of now ttl = Ok expiry ->
  raisesPrecondition
    (Redis.put_under (Some o1 :: Some o2 :: Some o3 :: Some o4 :: Some o5 :: others)
       now store scope key value {| ttlSeconds := ttl; ifMatchVersion := None |}).1
  = true.
Proof.
  intros Hexpiry. unfold Redis.put_under, Redis.retries. simpl.
  by rewrite !Hexpiry.
Qed.

(** An unconditional [put] with a valid expiry, attempt by attempt: the
    writes of the other clients go through, and the first attempt that
    is not interrupted writes. *)
Lemma redis_put_attempts_unconditional attempts others now store redisKey k v ttl
    expiry :
  let options := {| ttlSeconds := ttl; ifMatchVersion := None |} in
  expiry_of now ttl = Ok expiry ->
  Redis.put_attempts attempts others now store redisKey k v options
  = if decide (length (interrupted others) < attempts)%nat
    then Redis.put_attempts 1 [] now (after_others redisKey (interrupted others) store)
           redisKey k v options
    else (Err concurrentWriteError,
          after_others redisKey (take attempts (interrupted others)) store).
Proof.
  intros options Hexpiry. revert others store.
  induction attempts as [| n IH]; intros others store.
  - destruct (decide (length (interrupted others) < 0)%nat); [lia | done].
  - destruct others as [| [o |] others].
    + destruct (decide (length (interrupted (@nil (option Redis.OtherClient))) < S n)%nat);
        [| simpl in *; lia].
      cbn [Redis.put_attempts interrupted after_others foldl].
      simpl put_precondition_fails. cbv iota. simpl ttlSeconds. by rewrite Hexpiry.
    + cbn [Redis.put_attempts interrupted]. simpl put_precondition_fails. cbv iota.
      simpl ttlSeconds. rewrite Hexpiry.
      rewrite IH. simpl length. simpl after_others.
      destruct (decide (length (interrupted others) < n)%nat),
        (decide (S (length (interrupted others)) < S n)%nat); try lia; [| done].
      cbn [Redis.put_attempts]. simpl put_precondition_fails. cbv iota.
      simpl ttlSeconds. by rewrite Hexpiry.
    + destruct (decide (length (interrupted (None :: others)) < S n)%nat);
        [| simpl in *; lia].
      cbn [Redis.put_attempts interrupted after_others foldl].
      simpl put_precondition_fails. cbv iota. simpl ttlSeconds. by rewrite Hexpiry.
Qed.

End RedisKey.

(* ================================================================== *)
(** * Preconditions, versions and deletion *)

(** C1 (amended).  A [put] with [ifMatchVersion = v] on a scope and key
    whose active item has another version, or that has no active item,
    raises the precondition failure and leaves the backend as it was, on
    the SQL adapters and on the key-value adapter (there at the first
    attempt, whatever other clients do).  A [put] without
    [ifMatchVersion] whose expiry, [now + ttlSeconds * 1000], is a valid
    date succeeds and stores the value on the SQL adapters, and on the
    key-value adapter when other clients interrupt fewer than five of its
    attempts; interrupted five times, it raises the precondition failure
    of a concurrent write.  When the expiry is no valid date, it throws a
    [RangeError] and writes nothing.  The active item is the one [get]
    returns. *)
Theorem C1_put_if_match :
  forall (now : Timestamp) (scope : StorageScope) (key : string) (value : JsonValue)
         (ttl : option Z) (v : Z)
         (table : gmap Sql.PK Sql.Cols) (store : gmap string Redis.RedisEnvelope)
         (others : Redis.Schedule),
    version <$> Sql.get now table scope key <> Some v ->
    version <$> (Redis.get now store scope key).1 <> Some v ->
    let unconditional := {| ttlSeconds := ttl; ifMatchVersion := None |} in
    Sql.put now table scope key value {| ttlSeconds := ttl; ifMatchVersion := Some v |}
    = (Err ifMatchError, table)
    /\ Redis.put_under others now store scope key value
         {| ttlSeconds := ttl; ifMatchVersion := Some v |}
       = (Err ifMatchError, store)
    /\ isPreconditionFailed ifMatchError = true
    /\ match expiry_of now ttl with
       | Ok _ =>
           (exists item table',
              Sql.put now table scope key value unconditional = (Ok item, table')
              /\ Sql.valueJson <$> table' !! Sql.pk_of scope key = Some value)
           /\ (if decide (length (interrupted others) < 5)%nat
               then exists item store',
                      Redis.put_under others now store scope key value unconditional
                      = (Ok item, store')
                      /\ Redis.valueJson <$> store' !! Redis.toRedisKey scope key
                         = Some value
               else Redis.put_under others now store scope key value unconditional
                    = (Err concurrentWriteError,
                       after_others (Redis.toRedisKey scope key)
                         (take 5 (interrupted others)) store))
       | _ =>
           Sql.put now table scope key value unconditional = (Throw invalidTime, table)
           /\ Redis.put_under others now store scope key value unconditional
              = (Throw invalidTime, store)
       end.
Proof.
  intros now scope key value ttl v table store others Hsql Hredis unconditional.
  rewrite sql_get_state in Hsql. rewrite redis_get_state in Hredis.
  split_and!.
  - by apply sql_put_refused.
  - by apply redis_put_refused.
  - reflexivity.
  - destruct (expiry_of_cases now ttl) as [[expiry Hexpiry] | Hexpiry]; rewrite Hexpiry.
    + split; [by eapply sql_put_unconditional |].
      unfold Redis.put_under, Redis.retries.
      rewrite (redis_put_attempts_unconditional _ _ _ _ _ _ _ _ expiry Hexpiry).
      destruct (decide (length (interrupted others) < 5)%nat); [| done].
      destruct (redis_put_unconditional now
                  (after_others (Redis.toRedisKey scope key) (interrupted others) store)
                  scope key value ttl expiry Hexpiry) as (item & store' & Hput & Hvalue).
      exists item, store'. split; [| done].
      unfold Redis.put, Redis.put_under, Redis.retries in Hput.
      simpl in Hput. simpl. exact Hput.
    + split.
      * by apply sql_put_invalid_time.
      * by apply redis_put_invalid_time.
Qed.

(** C1 with [ifMatchVersion = 999] on an item of version [1], and
    without [ifMatchVersion] and with a time to live of one minute. *)
Lemma C1_put_if_match_witness :
  let scope := mkScope "default" "ns" "u1" in
  let table := (Sql.put 0 ∅ scope "alpha" "1" (mkPutOptions None None)).2 in
  let store := (Redis.put 0 ∅ scope "alpha" "1" (mkPutOptions None None)).2 in
  (Sql.put 5 table scope "alpha" "2" (mkPutOptions (Some 60) (Some 999))
   = (Err ifMatchError, table)
   /\ Redis.put 5 store scope "alpha" "2" (mkPutOptions (Some 60) (Some 999))
      = (Err ifMatchError, store))
  /\ exists item table',
       Sql.put 5 table scope "alpha" "2" (mkPutOptions (Some 60) None) = (Ok item, table')
       /\ Sql.valueJson <$> table' !! Sql.pk_of scope "alpha" = Some "2".
Proof.
  intros scope table store.
  destruct (C1_put_if_match 5 scope "alpha" "2" (Some 60) 999 table store [])
    as (Hsql & Hredis & _ & Hput & _).
  - vm_compute. discriminate.
  - vm_compute. discriminate.
  - split; [split; [exact Hsql | exact Hredis] | exact Hput].
Defined.

(** C1 as stated fails for the [put] without [ifMatchVersion]: it does
    not always succeed.  With a time to live of [10^13] seconds the
    expiry is beyond the dates of the platform, and the [put] throws a
    [RangeError] and writes nothing, on either adapter; on the key-value
    adapter a [put] that other clients interrupt five times raises the
    precondition failure of a concurrent write. *)
Lemma C1_counterexample :
  let scope := mkScope "default" "ns" "u1" in
  let far := mkPutOptions (Some (10 ^ 13)) None in
  let other := Some (Redis.OtherDel) in
  Sql.put 0 ∅ scope "k" "1" far = (Throw invalidTime, ∅)
  /\ Redis.put 0 ∅ scope "k" "1" far = (Throw invalidTime, ∅)
  /\ Redis.put_under [other; other; other; other; other] 0 ∅ scope "k" "1"
       (mkPutOptions None None)
     = (Err concurrentWriteError, ∅).
Proof. by split_and!; vm_compute. Qed.

(** C4 (amended).  On a scope and key without an active item ([get]
    returns none): without a record, [delete] returns [false] and leaves
    the backend as it was, with or without [ifMatchVersion]; on an
    expired record it returns [false] and removes the record when
    [ifMatchVersion] is absent, and raises the precondition failure,
    leaving the record, when [ifMatchVersion] is given. *)
Theorem C4_delete_not_active :
  forall (now : Timestamp) (scope : StorageScope) (key : string)
         (options : DeleteOptions)
         (table : gmap Sql.PK Sql.Cols) (store : gmap string Redis.RedisEnvelope),
    Sql.get now table scope key = None ->
    (Redis.get now store scope key).1 = None ->
    Sql.delete now table scope key options
    = match sql_state now table scope key, del_ifMatchVersion options with
      | Expired, Some _ => (Err ifMatchError, table)
      | Expired, None => (Ok false, base.delete (Sql.pk_of scope key) table)
      | _, _ => (Ok false, table)
      end
    /\ Redis.delete now store scope key options
       = match redis_state now store scope key, del_ifMatchVersion options with
         | Expired, Some _ => (Err ifMatchError, store)
         | Expired, None => (Ok false, base.delete (Redis.toRedisKey scope key) store)
         | _, _ => (Ok false, store)
         end.
Proof.
  intros now scope key options table store Hsql Hredis. split.
  - apply sql_delete_not_active. by rewrite <- sql_get_state, Hsql.
  - apply redis_delete_not_active. by rewrite <- redis_get_state, Hredis.
Qed.

(** C4 on an empty backend with a precondition, and on an expired record
    without one. *)
Lemma C4_delete_not_active_witness :
  let scope := mkScope "default" "ns" "u1" in
  let table := (Sql.put 0 ∅ scope "k" "1" (mkPutOptions (Some 1) None)).2 in
  let store := (Redis.put 0 ∅ scope "k" "1" (mkPutOptions (Some 1) None)).2 in
  (Sql.delete 5 ∅ scope "k" (mkDeleteOptions (Some 1)) = (Ok false, ∅)
   /\ Redis.delete 5 ∅ scope "k" (mkDeleteOptions (Some 1)) = (Ok false, ∅))
  /\ ((Sql.delete 2000 table scope "k" (mkDeleteOptions None)).1 = Ok false
      /\ (Redis.delete 2000 store scope "k" (mkDeleteOptions None)).1 = Ok false).
Proof.
  intros scope table store. split.
  - exact (C4_delete_not_active 5 scope "k" (mkDeleteOptions (Some 1)) ∅ ∅
             eq_refl eq_refl).
  - destruct (C4_delete_not_active 2000 scope "k" (mkDeleteOptions None) table store
                eq_refl eq_refl) as [Hsql Hredis].
    split; [by rewrite Hsql | by rewrite Hredis].
Defined.

(** C4 as stated fails on an expired row when [ifMatchVersion] is given:
    [delete] raises the precondition failure instead of returning
    [false].  Here: a row written with a time to live of one second, and
    a [delete] with its version two seconds later. *)
Lemma C4_counterexample :
  let scope := mkScope "default" "ns" "u1" in
  let table := (Sql.put 0 ∅ scope "k" "1" (mkPutOptions (Some 1) None)).2 in
  sql_state 2000 table scope "k" = Expired
  /\ Sql.get 2000 table scope "k" = None
  /\ Sql.delete 2000 table scope "k" (mkDeleteOptions (Some 1)) = (Err ifMatchError, table)
  /\ raisesPrecondition (Sql.delete 2000 table scope "k" (mkDeleteOptions (Some 1))).1 = true.
Proof. by split_and!. Qed.

(** ** Sequences of writes to one key *)

Section PutSequence.

Context {S : Type}.

(** A [put] on a fixed scope and key, and the version and expiry of the
    record a state holds for them. *)
Variable put : Timestamp -> S -> JsonValue -> PutOptions -> Result StoredItem * S.
Variable record : S -> option (Z * option Timestamp).

Hypothesis put_ok :
  forall now st value options item st',
    put now st value options = (Ok item, st') ->
    version item = next_version (state_of now (record st))
    /\ record st' = Some (version item, expiry_instant now options).

Lemma run_puts_versions calls st k :
  match calls with
  | c :: _ => next_version (state_of (call_now c) (record st)) = k
  | [] => True
  end ->
  chain_active calls = true ->
  all_ok (run_puts put st calls) = true ->
  versions_of (run_puts put st calls) = versions_from k (length calls).
Proof.
  revert st k. induction calls as [| c rest IH]; intros st k Hk Hchain Hok;
    [done |].
  simpl in *.
  destruct (put (call_now c) st (call_value c) (call_options c)) as [r st'] eqn:Hput.
  simpl in Hok. apply andb_true_iff in Hok as [Hr Hok].
  destruct r as [item | e | x]; [| done | done].
  apply put_ok in Hput as [Hv Hrec].
  apply andb_true_iff in Hchain as [[Hyear Hnext]%andb_true_iff Hchain].
  unfold versions_of. simpl. fold (versions_of (run_puts put st' rest)).
  rewrite Hv, Hk. f_equal.
  apply IH; [| done | done].
  destruct rest as [| c2 rest]; [done |].
  rewrite Hrec. unfold state_of, isExpired.
  destruct (expiry_instant (call_now c) (call_options c)) as [e |]; [| simpl; lia].
  apply andb_true_iff in Hnext as [He Hlt%Z.ltb_lt].
  simpl in Hchain. apply andb_true_iff in Hchain as [[Hyear2 _]%andb_true_iff _].
  rewrite text_leb_four_digit by done.
  destruct (Z.leb_spec e (call_now c2)); [lia |]. simpl. lia.
Qed.

End PutSequence.

Lemma expiry_of_instant now options expiry :
  expiry_of now (ttlSeconds options) = Ok expiry -> expiry = expiry_instant now options.
Proof.
  unfold expiry_of, expiry_instant.
  destruct (Js.truthy_num (ttlSeconds options)) as [t |]; [| by intros [= <-]].
  unfold Date.ofTime. destruct (_ && _); [| done]. by intros [= <-].
Qed.

Lemma sql_put_ok now table scope key value options item table' :
  Sql.put now table scope key value options = (Ok item, table') ->
  version item = next_version (sql_state now table scope key)
  /\ (λ c, (Sql.row_version c, Sql.row_expiresAt c)) <$> table' !! Sql.pk_of scope key
     = Some (version item, expiry_instant now options).
Proof.
  intros Hput.
  destruct (put_precondition_fails (ifMatchVersion options)
              (active_version (sql_state now table scope key))) eqn:Hpre.
  - unfold Sql.put in Hput. by rewrite sql_activeCurrent_state, Hpre in Hput.
  - destruct (expiry_of_cases now (ttlSeconds options)) as [[expiry Hexpiry] | Hexpiry].
    + destruct (sql_put_accepted now table scope key value options expiry Hpre Hexpiry)
        as (item0 & table0 & Hput0 & Hv & _ & (c & Hc & Hcv & _ & Hce) & _).
      rewrite Hput in Hput0. injection Hput0 as <- <-.
      split; [done |]. rewrite Hc. simpl.
      by rewrite Hcv, Hce, (expiry_of_instant _ _ _ Hexpiry).
    + by rewrite (sql_put_invalid_time _ _ _ _ _ _ _ Hpre Hexpiry) in Hput.
Qed.

Lemma redis_put_ok now store scope key value options item store' :
  Redis.put now store scope key value options = (Ok item, store') ->
  version item = next_version (redis_state now store scope key)
  /\ (λ e, (Redis.env_version e, Redis.env_expiresAt e))
       <$> store' !! Redis.toRedisKey scope key
     = Some (version item, expiry_instant now options).
Proof.
  intros Hput.
  destruct (put_precondition_fails (ifMatchVersion options)
              (active_version (redis_state now store scope key))) eqn:Hpre.
  - unfold Redis.put, Redis.put_under, Redis.retries in Hput. simpl in Hput.
    by rewrite redis_active_state, Hpre in Hput.
  - destruct (expiry_of_cases now (ttlSeconds options)) as [[expiry Hexpiry] | Hexpiry].
    + destruct (redis_put_accepted now store scope key value options expiry Hpre Hexpiry)
        as (item0 & store0 & Hput0 & Hv & _ & (e & He & Hev & _ & Hee) & _).
      rewrite Hput in Hput0. injection Hput0 as <- <-.
      split; [done |]. rewrite He. simpl.
      by rewrite Hev, Hee, (expiry_of_instant _ _ _ Hexpiry).
    + unfold Redis.put in Hput.
      by rewrite (redis_put_invalid_time _ _ _ _ _ _ _ _ Hpre Hexpiry) in Hput.
Qed.

(** C2 (amended).  A successful [put] returns and stores the version of
    the active item (the one [get] returns) plus [1], and [1] when there
    is no active item (no record, or an expired one).  Hence a sequence of
    successful [put]s to one scope and key that starts without an active
    item, and in which every later [put] is made before the expiry the
    one before it has set, has the versions [1], [2], [3], ..., as long
    as the clock and the expiries are in the years 0 to 9999. *)
Theorem C2_versions :
  forall (scope : StorageScope) (key : string) (calls : list PutCall)
         (table : gmap Sql.PK Sql.Cols) (store : gmap string Redis.RedisEnvelope),
    let sql_put now t := Sql.put now t scope key in
    let redis_put now s := Redis.put now s scope key in
    match calls with
    | c :: _ =>
        Sql.get (call_now c) table scope key = None
        /\ (Redis.get (call_now c) store scope key).1 = None
    | [] => True
    end ->
    chain_active calls = true ->
    all_ok (run_puts sql_put table calls) = true ->
    all_ok (run_puts redis_put store calls) = true ->
    (forall now value options item table',
        Sql.put now table scope key value options = (Ok item, table') ->
        version item = version_after (Sql.get now table scope key)
        /\ Sql.row_version <$> table' !! Sql.pk_of scope key = Some (version item))
    /\ (forall now value options item store',
          Redis.put now store scope key value options = (Ok item, store') ->
          version item = version_after (Redis.get now store scope key).1
          /\ Redis.env_version <$> store' !! Redis.toRedisKey scope key
             = Some (version item))
    /\ versions_of (run_puts sql_put table calls) = versions_from 1 (length calls)
    /\ versions_of (run_puts redis_put store calls) = versions_from 1 (length calls).
Proof.
  intros scope key calls table store sql_put redis_put Hfresh Hchain Hsql Hredis.
  split_and!.
  - intros now value options item table' Hput.
    apply sql_put_ok in Hput as [Hv Hrec]. rewrite <- sql_next_version_get.
    split; [done |].
    destruct (table' !! Sql.pk_of scope key) as [c |]; simpl in *; congruence.
  - intros now value options item store' Hput.
    apply redis_put_ok in Hput as [Hv Hrec]. rewrite <- redis_next_version_get.
    split; [done |].
    destruct (store' !! Redis.toRedisKey scope key) as [e |]; simpl in *; congruence.
  - apply (run_puts_versions sql_put
             (λ t, (λ c, (Sql.row_version c, Sql.row_expiresAt c))
                     <$> t !! Sql.pk_of scope key)); try done.
    + intros now st value options item st'. apply sql_put_ok.
    + destruct calls as [| c rest]; [done |]. destruct Hfresh as [Hf _].
      fold (sql_state (call_now c) table scope key).
      by rewrite sql_next_version_get, Hf.
  - apply (run_puts_versions redis_put
             (λ s, (λ e, (Redis.env_version e, Redis.env_expiresAt e))
                     <$> s !! Redis.toRedisKey scope key)); try done.
    + intros now st value options item st'. apply redis_put_ok.
    + destruct calls as [| c rest]; [done |]. destruct Hfresh as [_ Hf].
      fold (redis_state (call_now c) store scope key).
      by rewrite redis_next_version_get, Hf.
Qed.

(** C2 on three writes, the second under [ifMatchVersion = 1] and with a
    time to live of one minute, the third ten seconds later. *)
Lemma C2_versions_witness :
  let scope := mkScope "default" "ns" "u1" in
  let calls :=
    [mkPutCall 0 "1" (mkPutOptions None None);
     mkPutCall 1000 "2" (mkPutOptions (Some 60) (Some 1));
     mkPutCall 11000 "3" (mkPutOptions None None)] in
  versions_of (run_puts (λ now t, Sql.put now t scope "k") ∅ calls) = [1; 2; 3]
  /\ versions_of (run_puts (λ now s, Redis.put now s scope "k") ∅ calls) = [1; 2; 3].
Proof.
  intros scope calls.
  destruct (C2_versions scope "k" calls ∅ ∅) as (_ & _ & Hsql & Hredis).
  - split; reflexivity.
  - reflexivity.
  - vm_compute. reflexivity.
  - vm_compute. reflexivity.
  - split; [exact Hsql | exact Hredis].
Defined.

(** C2 as stated fails for a sequence in which the item expires between
    two writes: both writes succeed and both have version [1].  It also
    fails when the first write sets an expiry beyond the year 9999 (here
    a time to live of [3 * 10^11] seconds, an expiry in the year 11476):
    the next write, one second later, finds the record expired. *)
Lemma C2_counterexample :
  let scope := mkScope "default" "ns" "u1" in
  let calls :=
    [mkPutCall 0 "1" (mkPutOptions (Some 1) None);
     mkPutCall 2000 "2" (mkPutOptions None None)] in
  let far :=
    [mkPutCall 0 "1" (mkPutOptions (Some (3 * 10 ^ 11)) None);
     mkPutCall 1000 "2" (mkPutOptions None None)] in
  (all_ok (run_puts (λ now t, Sql.put now t scope "k") ∅ calls) = true
   /\ versions_of (run_puts (λ now t, Sql.put now t scope "k") ∅ calls) = [1; 1])
  /\ (all_ok (run_puts (λ now t, Sql.put now t scope "k") ∅ far) = true
      /\ versions_of (run_puts (λ now t, Sql.put now t scope "k") ∅ far) = [1; 1]
      /\ all_ok (run_puts (λ now s, Redis.put now s scope "k") ∅ far) = true
      /\ versions_of (run_puts (λ now s, Redis.put now s scope "k") ∅ far) = [1; 1]).
Proof. by split_and!; vm_compute. Qed.

(** ** A write over an expired record *)

(** On the SQL adapters the statement of [put] updates [value_json],
    [version], [expires_at] and [updated_at] of a row in place, and
    [created_at] keeps the time of the expired row, while the item [put]
    returns carries the time of the write. *)
Lemma sql_put_over_expired now table scope key value options old item table' :
  table !! Sql.pk_of scope key = Some old ->
  isExpired (Sql.row_expiresAt old) now = true ->
  Sql.put now table scope key value options = (Ok item, table') ->
  version item = 1
  /\ createdAt item = now
  /\ updatedAt item = now
  /\ Sql.row_createdAt <$> table' !! Sql.pk_of scope key = Some (Sql.row_createdAt old).
Proof.
  intros Hold Hexp. unfold Sql.put, Sql.activeCurrent, Sql.getRow.
  rewrite Hold. simpl. rewrite Hexp. simpl.
  destruct (put_precondition_fails _ _); [done |].
  destruct (expiry_of now (ttlSeconds options)); [| done | done].
  intros [= <- <-]. simpl. split_and!; try done.
  unfold Sql.insertOnConflictDoUpdate. rewrite Hold.
  by rewrite lookup_insert_eq.
Qed.

(** The key-value adapter replaces the whole envelope: the record of a
    write over an expired one is created at the time of the write. *)
Lemma redis_put_over_expired now store scope key value options old item store' :
  store !! Redis.toRedisKey scope key = Some old ->
  isExpired (Redis.env_expiresAt old) now = true ->
  Redis.put now store scope key value options = (Ok item, store') ->
  version item = 1
  /\ createdAt item = now
  /\ updatedAt item = now
  /\ Redis.env_createdAt <$> store' !! Redis.toRedisKey scope key = Some now.
Proof.
  intros Hold Hexp. unfold Redis.put, Redis.put_under, Redis.retries. simpl.
  rewrite Hold. simpl. rewrite Hexp. simpl.
  destruct (put_precondition_fails _ _); [done |].
  destruct (expiry_of now (ttlSeconds options)); [| done | done].
  intros [= <- <-]. simpl. split_and!; try done.
  by rewrite lookup_insert_eq.
Qed.

(** C5, on the SQL adapters: a write with a time to live of one second
    at instant [0], then a write at instant [2000].  The second write finds
    the row expired and returns version [1] with [createdAt = updatedAt =
    2000]; the row it leaves has version [1] and still [created_at = 0],
    and that is what the next [get] returns.  The key-value adapter
    returns [createdAt = 2000] from that [get]. *)
Theorem C5_sql_put_over_expired_row :
  let scope := mkScope "default" "ns" "u1" in
  let table := (Sql.put 0 ∅ scope "k" "1" (mkPutOptions (Some 1) None)).2 in
  let store := (Redis.put 0 ∅ scope "k" "1" (mkPutOptions (Some 1) None)).2 in
  let written := Sql.put 2000 table scope "k" "2" (mkPutOptions None None) in
  let redis_written := Redis.put 2000 store scope "k" "2" (mkPutOptions None None) in
  sql_state 2000 table scope "k" = Expired
  /\ (λ item, (version item, createdAt item, updatedAt item)) <$> Sql.get 2000 written.2 scope "k"
     = Some (1, 0, 2000)
  /\ match written.1 with
     | Ok item => (version item, createdAt item, updatedAt item) = (1, 2000, 2000)
     | Err _ | Throw _ => False
     end
  /\ (λ item, (version item, createdAt item, updatedAt item))
       <$> (Redis.get 2000 redis_written.2 scope "k").1
     = Some (1, 2000, 2000).
Proof. by split_and!; vm_compute. Qed.

(* ================================================================== *)
(** * Scopes *)

Section SqlScopes.

Implicit Types (table t : gmap Sql.PK Sql.Cols) (row : Sql.Row).

Lemma pk_of_inj scope scope' key key' :
  Sql.pk_of scope key = Sql.pk_of scope' key' -> scope = scope' /\ key = key'.
Proof.
  destruct scope, scope'. unfold Sql.pk_of. simpl. by intros [= -> -> -> ->].
Qed.

Lemma pk_in_scope_pk_of scope pk :
  Sql.pk_in_scope scope pk = true -> pk = Sql.pk_of scope (Sql.pk_key pk).
Proof.
  unfold Sql.pk_in_scope, Sql.pk_of, Sql.pk_key.
  intros H%bool_decide_eq_true. destruct pk as [triple key]. simpl in *.
  by rewrite H.
Qed.

(** The rows of one scope that pass a filter have pairwise different
    keys. *)
Lemma scope_rows_key_inj scope table (P : Sql.Row -> bool) row1 row2 :
  (forall row, P row = true -> Sql.pk_in_scope scope row.1 = true) ->
  row1 ∈ filter (λ row, P row = true) (map_to_list table) ->
  row2 ∈ filter (λ row, P row = true) (map_to_list table) ->
  Sql.pk_key row1.1 = Sql.pk_key row2.1 ->
  row1 = row2.
Proof.
  intros Hscope [HP1 H1]%list_elem_of_filter [HP2 H2]%list_elem_of_filter Hkey.
  destruct row1 as [pk1 c1], row2 as [pk2 c2]. simpl in *.
  apply elem_of_map_to_list in H1, H2.
  pose proof (pk_in_scope_pk_of scope pk1 (Hscope _ HP1)) as E1.
  pose proof (pk_in_scope_pk_of scope pk2 (Hscope _ HP2)) as E2.
  assert (pk1 = pk2) as -> by congruence.
  congruence.
Qed.

Global Instance key_le_trans : Transitive Sql.key_le.
Proof. intros x y z. unfold Sql.key_le. apply transitivity. Qed.

Global Instance key_le_total : Total Sql.key_le.
Proof. intros x y. unfold Sql.key_le. apply total, _. Qed.

(** Two tables that hold the same rows for a scope give the same rows
    to a query on that scope, in the same order. *)
Lemma orderByKey_agree scope t t' (P : Sql.Row -> bool) :
  (forall row, P row = true -> Sql.pk_in_scope scope row.1 = true) ->
  (forall key, t !! Sql.pk_of scope key = t' !! Sql.pk_of scope key) ->
  Sql.orderByKey (filter (λ row, P row = true) (map_to_list t))
  = Sql.orderByKey (filter (λ row, P row = true) (map_to_list t')).
Proof.
  intros Hscope Hagree. unfold Sql.orderByKey.
  assert (filter (λ row, P row = true) (map_to_list t)
          ≡ₚ filter (λ row, P row = true) (map_to_list t')) as Hperm.
  { apply NoDup_Permutation.
    - apply NoDup_filter, NoDup_map_to_list.
    - apply NoDup_filter, NoDup_map_to_list.
    - intros [pk c]. rewrite !list_elem_of_filter, !elem_of_map_to_list.
      split; intros [HP Hrow]; (split; [done |]);
        rewrite (pk_in_scope_pk_of scope pk (Hscope _ HP)) in *;
        by rewrite ?Hagree in *. }
  apply (StronglySorted_unique_strong Sql.key_le).
  - intros row1 row2 H1 H2 Hle1 Hle2.
    rewrite merge_sort_Permutation in H1, H2. rewrite <- Hperm in H2.
    apply (scope_rows_key_inj scope t P); try done.
    by apply (anti_symm String.le).
  - apply StronglySorted_merge_sort; apply _.
  - apply StronglySorted_merge_sort; apply _.
  - by rewrite !merge_sort_Permutation.
Qed.

Lemma list_where_scope like now scope prefix cursorKey row :
  Sql.list_where like now scope prefix cursorKey row = true ->
  Sql.pk_in_scope scope row.1 = true.
Proof.
  unfold Sql.list_where. by intros [[[H _]%andb_true_iff _]%andb_true_iff _]%andb_true_iff.
Qed.

Lemma sql_reads_agree scope t t' :
  (forall key, t !! Sql.pk_of scope key = t' !! Sql.pk_of scope key) ->
  sql_same_reads scope t t'.
Proof.
  intros Hagree.
  assert (forall now key, Sql.get now t scope key = Sql.get now t' scope key) as Hget.
  { intros now key. unfold Sql.get, Sql.getRow. by rewrite Hagree. }
  split_and!; [done | |].
  - intros now keys. unfold Sql.batchGet.
    generalize (@Js.emptyDict (option StoredItem)).
    induction keys as [| k keys IH]; intros acc; simpl; [done |].
    by rewrite Hget, IH.
  - intros like now options. unfold Sql.list, Sql.list_matching.
    by rewrite (orderByKey_agree scope t t'
                  (Sql.list_where like now scope (prefix options)
                     (decodeCursor (cursor options))))
      by eauto using list_where_scope.
Qed.

Lemma sql_put_other_scope now table scope key value options scope' key' :
  scope <> scope' ->
  (Sql.put now table scope key value options).2 !! Sql.pk_of scope' key'
  = table !! Sql.pk_of scope' key'.
Proof.
  intros Hne. unfold Sql.put.
  destruct (put_precondition_fails _ _); [done |].
  destruct (expiry_of now (ttlSeconds options)); [| done | done]. simpl.
  unfold Sql.insertOnConflictDoUpdate.
  destruct (table !! Sql.pk_of scope key);
    rewrite lookup_insert_ne; try done;
    by intros [? _]%pk_of_inj.
Qed.

Lemma sql_delete_other_scope now table scope key options scope' key' :
  scope <> scope' ->
  (Sql.delete now table scope key options).2 !! Sql.pk_of scope' key'
  = table !! Sql.pk_of scope' key'.
Proof.
  intros Hne. unfold Sql.delete.
  destruct (Sql.getRow now table scope key false); [| done].
  destruct (match del_ifMatchVersion options with Some _ => _ | None => _ end);
    [done |]. simpl.
  rewrite lookup_delete_ne; [done |]. by intros [? _]%pk_of_inj.
Qed.

Lemma sql_batchPut_other_scope now table scope entries scope' key' :
  scope <> scope' ->
  (Sql.batchPut now table scope entries).2 !! Sql.pk_of scope' key'
  = table !! Sql.pk_of scope' key'.
Proof.
  intros Hne. unfold Sql.batchPut.
  generalize (@Js.emptyDict StoredItem). revert table.
  induction entries as [| entry rest IH]; intros table acc; simpl; [done |].
  pose proof (sql_put_other_scope now table scope (entry_key entry)
                (entry_value entry)
                {| ttlSeconds := entry_ttlSeconds entry;
                   ifMatchVersion := entry_ifMatchVersion entry |}
                scope' key' Hne) as Hput.
  destruct (Sql.put now table scope (entry_key entry) _ _) as [[item | e | x] table'];
    simpl in *; [| done | done].
  by rewrite IH.
Qed.

(** Scope isolation on the SQL adapters: no [put], [delete] or
    [batchPut] under a scope changes what [get], [batchGet] and [list]
    give under another scope. *)
Theorem sql_scope_isolation now table scopeA scopeB key value options dopts entries :
  scopeA <> scopeB ->
  sql_same_reads scopeB table (Sql.put now table scopeA key value options).2
  /\ sql_same_reads scopeB table (Sql.delete now table scopeA key dopts).2
  /\ sql_same_reads scopeB table (Sql.batchPut now table scopeA entries).2.
Proof.
  intros Hne. split_and!; apply sql_reads_agree; intros k; symmetry.
  - by apply sql_put_other_scope.
  - by apply sql_delete_other_scope.
  - by apply sql_batchPut_other_scope.
Qed.

End SqlScopes.

(** C9, on the key-value adapter.  The scopes [(a, b:u:c, d)] and
    [(a, b, c:u:d)] differ and compose the same record prefix, so a [put]
    under the first changes what [get], [batchGet] and [list] give under
    the second; and the scope [( *, n, u)], whose prefix is read as a
    pattern by the scan of [list], lists the item of the scope
    [(t1, n, u)].  On the SQL adapters the claim holds
    ([sql_scope_isolation]). *)
Theorem C9_redis_scopes_collide :
  forall localeCompare : string -> string -> Z,
    let scopeA := mkScope "a" "b:u:c" "d" in
    let scopeB := mkScope "a" "b" "c:u:d" in
    let written := (Redis.put 0 ∅ scopeA "k" "1" (mkPutOptions None None)).2 in
    let tenant1 := mkScope "t1" "n" "u" in
    let anyTenant := mkScope "*" "n" "u" in
    let written1 := (Redis.put 0 ∅ tenant1 "k" "1" (mkPutOptions None None)).2 in
    scopeA <> scopeB
    /\ Redis.toScopePrefix scopeA = Redis.toScopePrefix scopeB
    /\ (Redis.get 0 ∅ scopeB "k").1 = None
    /\ value <$> (Redis.get 0 written scopeB "k").1 = Some "1"
    /\ Redis.batchGet 0 ∅ scopeB ["k"] !! "k" = Some None
    /\ (λ r : option StoredItem, value <$> r) <$> Redis.batchGet 0 written scopeB ["k"] !! "k"
       = Some (Some "1")
    /\ items (Redis.list localeCompare 0 ∅ scopeB (mkListOptions None None None)) = []
    /\ key <$> items (Redis.list localeCompare 0 written scopeB
                        (mkListOptions None None None)) = ["k"]
    /\ tenant1 <> anyTenant
    /\ items (Redis.list localeCompare 0 ∅ anyTenant (mkListOptions None None None)) = []
    /\ key <$> items (Redis.list localeCompare 0 written1 anyTenant
                        (mkListOptions None None None)) = ["k"].
Proof. intros localeCompare. by split_and!; vm_compute. Qed.

(* ================================================================== *)
(** * The order of [list] *)

(** C3, on the key-value adapter, with the keys [a] and [B] in one
    scope.  [list] sorts the keys by [localeCompare], and a collation that
    ranks [a] before [B] gives the page [a], [B], which is not the byte
    order ([B] is byte [66], [a] is byte [97]).  The cursor is compared in
    byte order: after the page [a] of a [list] with limit [1], the [list]
    with its cursor is empty and [B] is never listed. *)
Theorem C3_redis_list_order :
  forall localeCompare : string -> string -> Z,
    localeCompare "a" "B" < 0 ->
    0 < localeCompare "B" "a" ->
    let scope := mkScope "default" "ns" "u1" in
    let store :=
      (Redis.put 0 (Redis.put 0 ∅ scope "a" "1" (mkPutOptions None None)).2
         scope "B" "2" (mkPutOptions None None)).2 in
    let page1 := Redis.list localeCompare 0 store scope (mkListOptions None None (Some 1)) in
    key <$> items (Redis.list localeCompare 0 store scope (mkListOptions None None None))
    = ["a"; "B"]
    /\ String.ltb "B" "a" = true
    /\ key <$> items page1 = ["a"]
    /\ nextCursor page1 = Some (encodeCursor "a")
    /\ items (Redis.list localeCompare 0 store scope
                (mkListOptions None (nextCursor page1) (Some 1))) = [].
Proof.
  intros localeCompare Hab Hba scope store page1.
  assert ((localeCompare "a" "B" <=? 0) = true) as Hab' by lia.
  assert ((localeCompare "B" "a" <=? 0) = false) as Hba' by lia.
  assert (key <$> items (Redis.list localeCompare 0 store scope
                           (mkListOptions None None None)) = ["a"; "B"]
          /\ key <$> items page1 = ["a"]
          /\ nextCursor page1 = Some (encodeCursor "a")) as (H1 & H2 & H3).
  { unfold page1, Redis.list.
    assert (Redis.list_found 0 store scope (mkListOptions None None None)
            = Redis.list_found 0 store scope (mkListOptions None None (Some 1))) as <-
      by reflexivity.
    destruct (Redis.list_found 0 store scope (mkListOptions None None None))
      as [| e1 [| e2 [| e3 rest]]] eqn:Hfound; try (vm_compute in Hfound; discriminate).
    vm_compute in Hfound.
    injection Hfound as <- <-. simpl.
    rewrite ?Hab', ?Hba'. by vm_compute. }
  split_and!; [exact H1 | reflexivity | exact H2 | exact H3 |].
  rewrite H3. vm_compute. reflexivity.
Qed.

(** C3 with the collation [Collation.localeCompare]. *)
Lemma C3_redis_list_order_witness :
  let scope := mkScope "default" "ns" "u1" in
  let store :=
    (Redis.put 0 (Redis.put 0 ∅ scope "a" "1" (mkPutOptions None None)).2
       scope "B" "2" (mkPutOptions None None)).2 in
  key <$> items (Redis.list Collation.localeCompare 0 store scope
                   (mkListOptions None None None))
  = ["a"; "B"].
Proof.
  intros scope store.
  refine (proj1 (C3_redis_list_order Collation.localeCompare _ _)); reflexivity.
Defined.

(* ================================================================== *)
(** * Pages and cursors *)

Section StringOrder.

Lemma string_compare_refl s : String.compare s s = Eq.
Proof.
  pose proof (String.compare_antisym s s) as H.
  destruct (String.compare s s); simpl in H; congruence.
Qed.

Lemma string_ltb_le_ne a b :
  String.ltb a b = true <-> String.le a b /\ a <> b.
Proof.
  unfold String.le, String.ltb, String.leb. split.
  - destruct (String.compare a b) eqn:Hc; try done. intros _. split; [done |].
    intros ->. by rewrite string_compare_refl in Hc.
  - intros [Hle Hne]. destruct (String.compare a b) eqn:Hc; try done.
    by apply String.compare_eq_iff in Hc.
Qed.

Lemma string_leb_false_ltb a b : String.leb a b = false -> String.ltb b a = true.
Proof.
  unfold String.ltb, String.leb. rewrite (String.compare_antisym b a).
  by destruct (String.compare a b).
Qed.

(** The order of the code units. *)
Lemma units_compare_antisym a b :
  Js.units_compare b a = CompOpp (Js.units_compare a b).
Proof.
  revert b. induction a as [| x a IH]; intros [| y b]; simpl; try done.
  rewrite (N.compare_antisym x y). destruct (x ?= y)%N; simpl; [apply IH | done | done].
Qed.

Lemma js_ltb_leb a b : Js.ltb a b = negb (Js.leb b a).
Proof.
  unfold Js.ltb, Js.leb. rewrite (units_compare_antisym (Js.codeUnits a)).
  by destruct (Js.units_compare _ _).
Qed.

Lemma units_compare_refl a : Js.units_compare a a = Eq.
Proof. induction a as [| x a IH]; simpl; [done |]. by rewrite N.compare_refl. Qed.

Lemma js_ltb_irrefl a : Js.ltb a a = false.
Proof. unfold Js.ltb. by rewrite units_compare_refl. Qed.

End StringOrder.

Section Cursors.

Lemma sextet_roundtrip s : Base64Url.b64val (Base64Url.b64char s) = Some s.
Proof. by destruct s as [[] [] [] [] [] []]. Qed.

Lemma sextets_roundtrip (l : list Base64Url.sextet) :
  omap Base64Url.b64val (Base64Url.b64char <$> l) = l.
Proof.
  induction l as [| s l IH]; [done |].
  rewrite fmap_cons. cbn [omap list_omap]. rewrite sextet_roundtrip.
  fold (omap Base64Url.b64val (Base64Url.b64char <$> l)). by rewrite IH.
Qed.

(** Strings, three bytes at a time. *)
Lemma string_ind3 (P : string -> Prop) :
  P "" ->
  (forall a, P (String a "")) ->
  (forall a b, P (String a (String b ""))) ->
  (forall a b c r, P r -> P (String a (String b (String c r)))) ->
  forall s, P s.
Proof.
  intros H0 H1 H2 H3. fix IH 1.
  intros [| a [| b [| c r]]]; [done | done | done |]. apply H3, IH.
Qed.

Lemma bytes_roundtrip s :
  Base64Url.bytes_of_sextets (Base64Url.sextets_of_bytes s) = s.
Proof.
  induction s as [| a | a b | a b c r IH] using string_ind3.
  - done.
  - by destruct a.
  - by destruct a, b.
  - destruct a, b, c. simpl. by rewrite IH.
Qed.

(** Decoding an encoded key gives the key back. *)
Lemma base64url_roundtrip s : Base64Url.decode (Base64Url.encode s) = s.
Proof.
  unfold Base64Url.decode, Base64Url.encode.
  by rewrite list_ascii_of_string_of_list_ascii, sextets_roundtrip, bytes_roundtrip.
Qed.

Lemma encode_nonempty s : s <> "" -> Base64Url.encode s <> "".
Proof.
  destruct s as [| a [| b [| c r]]]; [done | ..]; intros _;
    unfold Base64Url.encode; by destruct a; try destruct b; try destruct c.
Qed.

Lemma decodeCursor_encodeCursor k :
  k <> "" -> decodeCursor (Some (encodeCursor k)) = Some k.
Proof.
  intros Hk. unfold decodeCursor, encodeCursor.
  pose proof (encode_nonempty k Hk) as Hne.
  destruct (Base64Url.encode k) eqn:He; [done |].
  by rewrite <- He, base64url_roundtrip.
Qed.

Lemma truthy_nonempty k : k <> "" -> Js.truthy (Some k) = Some k.
Proof. by destruct k. Qed.

End Cursors.

Lemma elem_of_take_in {A} (x : A) (n : nat) (l : list A) : x ∈ take n l -> x ∈ l.
Proof. intros (i & Hi & _)%elem_of_take. by eapply list_elem_of_lookup_2. Qed.

Section SqlPages.

Variable like : string -> string -> bool.

Implicit Types (table : gmap Sql.PK Sql.Cols) (row : Sql.Row).

(** The rows [list] ranges over are the rows of the table that pass its
    [WHERE] clause: of the scope, active, with the prefix, after the
    cursor. *)
Lemma sql_list_matching_spec now table scope options row :
  row ∈ Sql.list_matching like now table scope options
  <-> table !! row.1 = Some row.2
      /\ Sql.list_where like now scope (prefix options)
           (decodeCursor (cursor options)) row = true.
Proof.
  unfold Sql.list_matching, Sql.orderByKey.
  rewrite merge_sort_Permutation, list_elem_of_filter.
  destruct row as [pk c]. simpl.
  pose proof (elem_of_map_to_list table pk c) as Hrow. tauto.
Qed.

Lemma sql_list_matching_sorted now table scope options :
  StronglySorted (λ a b : Sql.Row, String.ltb (Sql.pk_key a.1) (Sql.pk_key b.1) = true)
    (Sql.list_matching like now table scope options).
Proof.
  unfold Sql.list_matching.
  set (P := Sql.list_where like now scope (prefix options)
              (decodeCursor (cursor options))).
  set (rows := filter (λ row, P row = true) (map_to_list table)).
  assert (NoDup (Sql.orderByKey rows)) as Hnd.
  { unfold Sql.orderByKey. rewrite merge_sort_Permutation.
    apply NoDup_filter, NoDup_map_to_list. }
  assert (forall row, row ∈ Sql.orderByKey rows -> row ∈ rows) as Hin.
  { intros row. unfold Sql.orderByKey. by rewrite merge_sort_Permutation. }
  assert (StronglySorted Sql.key_le (Sql.orderByKey rows)) as Hs
    by (apply StronglySorted_merge_sort; apply _).
  induction Hs as [| x l Hl IH Hx]; [constructor |].
  apply NoDup_cons in Hnd as [Hxl Hnd].
  constructor.
  - apply IH; [done |]. intros row Hrow. apply Hin. by right.
  - rewrite Forall_forall in Hx. apply Forall_forall. intros y Hy.
    apply string_ltb_le_ne. split; [by apply Hx |].
    intros Hkey. apply Hxl.
    assert (x = y) as ->; [| done].
    apply (scope_rows_key_inj scope table P); try done.
    + intros row. apply list_where_scope.
    + apply Hin. by left.
    + apply Hin. by right.
Qed.

(** The page is a first part of the rows [list] ranges over. *)
Lemma sql_page_take {A} (l : Z) (m : list A) :
  exists n, Js.slice0 l (Sql.sql_limit (l + 1) m) = take n m
            /\ (0 <= l -> n = Z.to_nat l).
Proof.
  unfold Js.slice0, Sql.sql_limit.
  destruct (Z.ltb_spec (l + 1) 0), (Z.ltb_spec l 0); try lia.
  - eexists. split; [reflexivity | lia].
  - exists 0%nat. split; [| lia].
    assert (l = -1) as -> by lia. simpl. by rewrite take_0.
  - exists (Z.to_nat l). split; [| done].
    rewrite take_take. f_equal. lia.
Qed.

Lemma sql_list_items now table scope options :
  exists n,
    items (Sql.list like now table scope options)
    = Sql.toStoredItem <$> take n (Sql.list_matching like now table scope options)
    /\ (0 <= default 50 (limit options) -> n = Z.to_nat (default 50 (limit options))).
Proof.
  unfold Sql.list. simpl.
  destruct (sql_page_take (default 50 (limit options))
              (Sql.list_matching like now table scope options)) as (n & -> & Hn).
  by exists n.
Qed.

(** On the SQL adapters the page of [list] is in strictly ascending
    byte order of key. *)
Lemma sql_list_ascending now table scope options :
  strictly_ascending (items (Sql.list like now table scope options)).
Proof.
  destruct (sql_list_items now table scope options) as (n & -> & _).
  unfold strictly_ascending.
  apply StronglySorted_fmap
    with (R1 := λ a b : Sql.Row, String.ltb (Sql.pk_key a.1) (Sql.pk_key b.1) = true).
  - by intros a b.
  - pose proof (sql_list_matching_sorted now table scope options) as Hs.
    rewrite <- (take_drop n (Sql.list_matching like now table scope options)) in Hs.
    by apply StronglySorted_app_1_l in Hs.
Qed.

(** Every item of the page is an active item of the scope that passes
    the prefix and cursor filters. *)
Lemma sql_list_elem now table scope options item :
  item ∈ items (Sql.list like now table scope options) ->
  exists row, item = Sql.toStoredItem row
    /\ table !! row.1 = Some row.2
    /\ Sql.list_where like now scope (prefix options)
         (decodeCursor (cursor options)) row = true.
Proof.
  destruct (sql_list_items now table scope options) as (n & -> & _).
  intros (row & -> & Hrow%elem_of_take_in)%list_elem_of_fmap.
  exists row. split; [done |]. by apply sql_list_matching_spec.
Qed.

Lemma sql_list_after_cursor now table scope options k item :
  decodeCursor (cursor options) = Some k -> k <> "" ->
  item ∈ items (Sql.list like now table scope options) ->
  String.ltb k (key item) = true.
Proof.
  intros Hc Hk (row & -> & _ & Hw)%sql_list_elem.
  unfold Sql.list_where in Hw. rewrite Hc, truthy_nonempty in Hw by done.
  by apply andb_true_iff in Hw as [_ Hw].
Qed.

Lemma sql_list_cursor now table scope options l :
  limit options = Some l -> 1 <= l ->
  let r := Sql.list like now table scope options in
  let m := Sql.list_matching like now table scope options in
  items r = Sql.toStoredItem <$> take (Z.to_nat l) m
  /\ (is_Some (nextCursor r) <-> (length (items r) < length m)%nat)
  /\ nextCursor r = (if decide (length (items r) < length m)%nat
                     then encodeCursor ∘ key <$> last (items r) else None).
Proof.
  intros Hl Hl1 r m. unfold r, Sql.list. rewrite Hl. simpl. fold m.
  destruct (sql_page_take l m) as (n & -> & Hn). rewrite Hn by lia.
  assert (Js.length_gt (Sql.sql_limit (l + 1) m) l
          = bool_decide (Z.to_nat l < length m)%nat) as ->.
  { unfold Js.length_gt, Sql.sql_limit.
    destruct (Z.ltb_spec (l + 1) 0); [lia |].
    rewrite length_take.
    destruct (Z.ltb_spec l (Z.of_nat (Z.to_nat (l + 1) `min` length m)));
      [rewrite bool_decide_eq_true_2 | rewrite bool_decide_eq_false_2]; (done || lia). }
  rewrite length_fmap, length_take.
  split; [done |].
  assert (Js.length_gt (Sql.toStoredItem <$> take (Z.to_nat l) m) 0
          = bool_decide (0 < length m)%nat) as ->.
  { unfold Js.length_gt. rewrite length_fmap, length_take.
    destruct (Z.ltb_spec 0 (Z.of_nat (Z.to_nat l `min` length m)));
      [rewrite bool_decide_eq_true_2 | rewrite bool_decide_eq_false_2]; (done || lia). }
  destruct (decide (Z.to_nat l `min` length m < length m)%nat) as [Hlt | Hge].
  - rewrite !bool_decide_eq_true_2 by lia. simpl. split; [| done].
    split; [done |]. intros _.
    destruct (last (Sql.toStoredItem <$> take (Z.to_nat l) m)) eqn:Hlast; [done |].
    apply last_None in Hlast. apply fmap_nil_inv in Hlast.
    apply (f_equal length) in Hlast. rewrite length_take in Hlast. simpl in Hlast. lia.
  - rewrite (bool_decide_eq_false_2 (Z.to_nat l < length m)%nat) by lia. simpl.
    split; [| done]. split; [by intros [? ?] | lia].
Qed.

(** The prefix reaches the database as a [LIKE] pattern and is not
    escaped: with SQLite's [LIKE], the prefix [user_] lists the keys
    [USER:1] and [userA1], and the prefix [user:] lists the key [USER:1]. *)
Example sql_list_prefix_is_a_pattern :
  let scope := mkScope "default" "ns" "u1" in
  let table :=
    (Sql.batchPut 0 ∅ scope
       [mkEntry "userA1" "1" None None; mkEntry "USER:1" "2" None None;
        mkEntry "other" "3" None None]).2 in
  key <$> items (Sql.list Sql.sqlite_like 1 table scope
                   (mkListOptions (Some "user_") None None)) = ["USER:1"; "userA1"]
  /\ key <$> items (Sql.list Sql.sqlite_like 1 table scope
                      (mkListOptions (Some "user:") None None)) = ["USER:1"].
Proof. split; vm_compute; reflexivity. Qed.

(** In terms of the rows: the cursor is there iff the table holds an
    active row of the scope, passing the prefix and cursor filters, whose
    key comes after every key of the page. *)
Lemma sql_next_cursor_beyond now table scope options l :
  limit options = Some l -> 1 <= l ->
  let r := Sql.list like now table scope options in
  is_Some (nextCursor r)
  <-> exists row,
        table !! row.1 = Some row.2
        /\ Sql.list_where like now scope (prefix options)
             (decodeCursor (cursor options)) row = true
        /\ Forall (λ item, String.ltb (key item) (Sql.pk_key row.1) = true) (items r).
Proof.
  intros Hl Hl1 r.
  destruct (sql_list_cursor now table scope options l Hl Hl1) as (Hitems & Hiff & _).
  fold r in Hitems, Hiff. rewrite Hiff, Hitems, length_fmap, length_take.
  set (m := Sql.list_matching like now table scope options).
  pose proof (sql_list_matching_sorted now table scope options) as Hsorted. fold m in Hsorted.
  split.
  - intros Hlt.
    destruct (lookup_lt_is_Some_2 m (Z.to_nat l)) as [row Hrow]; [lia |].
    exists row.
    assert (row ∈ m) as Hin by (by eapply list_elem_of_lookup_2).
    apply sql_list_matching_spec in Hin as [Htable Hwhere].
    split_and!; [done | done |].
    apply Forall_fmap, Forall_forall. intros x Hx. simpl.
    rewrite <- (take_drop (Z.to_nat l) m) in Hsorted.
    apply (StronglySorted_app_1_elem_of _ _ _ x row Hsorted Hx).
    apply list_elem_of_lookup. exists 0%nat. by rewrite lookup_drop, Nat.add_0_r.
  - intros (row & Htable & Hwhere & Hall).
    assert (row ∈ m) as Hin by (by apply sql_list_matching_spec).
    destruct (decide (Z.to_nat l `min` length m < length m)%nat) as [| Hge]; [done |].
    exfalso. rewrite take_ge in Hall by lia.
    rewrite Forall_fmap, Forall_forall in Hall.
    specialize (Hall row Hin). simpl in Hall.
    by apply string_ltb_le_ne in Hall as [_ Hne].
Qed.

End SqlPages.

Section RedisPages.

Variable localeCompare : string -> string -> Z.

Implicit Types (store : gmap string Redis.RedisEnvelope).

Lemma sort_insert_Permutation {A} (le : A -> A -> bool) x (xs : list A) :
  Redis.sort_insert le x xs ≡ₚ x :: xs.
Proof.
  induction xs as [| y ys IH]; simpl; [done |].
  destruct (le x y); [done |]. rewrite IH. apply Permutation_swap.
Qed.

(** Sorting rearranges. *)
Lemma sort_Permutation {A} (le : A -> A -> bool) (xs : list A) :
  Redis.sort le xs ≡ₚ xs.
Proof.
  induction xs as [| x xs IH]; simpl; [done |].
  by rewrite sort_insert_Permutation, IH.
Qed.

(** What the scan of [list] keeps: the records whose composed key
    matches the pattern of the scope and prefix, whose key is not empty
    and comes after the cursor, and which have not expired. *)
Lemma redis_found_spec now store scope options entry :
  entry ∈ Redis.list_found now store scope options
  <-> exists redisKey envelope,
        store !! redisKey = Some envelope
        /\ Redis.glob (Redis.toScopePrefix scope +:+ default "" (prefix options) +:+ "*")
             redisKey = true
        /\ Redis.list_entry now (decodeCursor (cursor options)) (redisKey, envelope)
           = Some entry.
Proof.
  unfold Redis.list_found. rewrite list_elem_of_omap. split.
  - intros ([redisKey envelope] & [Hglob Hin]%list_elem_of_filter & Hentry).
    exists redisKey, envelope. split_and!; try done.
    by apply (elem_of_map_to_list store redisKey envelope).
  - intros (redisKey & envelope & Hst & Hglob & Hentry).
    exists (redisKey, envelope). split; [| done].
    apply list_elem_of_filter. split; [done |].
    by apply (elem_of_map_to_list store redisKey envelope).
Qed.

Lemma redis_list_entry_key now cursorKey record entry :
  Redis.list_entry now cursorKey record = Some entry ->
  key entry.2 = entry.1
  /\ entry.1 <> ""
  /\ isExpired (expiresAt entry.2) now = false
  /\ (forall k, cursorKey = Some k -> k <> "" -> Js.ltb k entry.1 = true).
Proof.
  unfold Redis.list_entry.
  destruct (Redis.fromRedisKey record.1) as [[| a k] |]; try done.
  destruct (match Js.truthy cursorKey with Some c => _ | None => false end) eqn:Hc;
    [done |].
  destruct (isExpired (Redis.env_expiresAt record.2) now) eqn:Hexp; [done |].
  intros [= <-]. simpl. split_and!; try done.
  intros c -> Hne. rewrite truthy_nonempty in Hc by done.
  by rewrite js_ltb_leb, Hc.
Qed.

Lemma redis_list_items now store scope options :
  exists n,
    items (Redis.list localeCompare now store scope options)
    = snd <$> take n (Redis.sort (λ left right, localeCompare left.1 right.1 <=? 0)
                        (Redis.list_found now store scope options))
    /\ (0 <= default 50 (limit options) -> n = Z.to_nat (default 50 (limit options))).
Proof.
  unfold Redis.list, Js.slice0. simpl.
  destruct (Z.ltb_spec (default 50 (limit options)) 0);
    eexists; (split; [reflexivity | lia]).
Qed.

Lemma redis_list_elem now store scope options item :
  item ∈ items (Redis.list localeCompare now store scope options) ->
  exists entry, entry ∈ Redis.list_found now store scope options /\ item = entry.2.
Proof.
  destruct (redis_list_items now store scope options) as (n & -> & _).
  intros (entry & -> & Hin%elem_of_take_in)%list_elem_of_fmap.
  rewrite sort_Permutation in Hin. eauto.
Qed.

(** The key-value adapter never lists an item at or before the cursor,
    in the order of the code units. *)
Lemma redis_list_after_cursor now store scope options k item :
  decodeCursor (cursor options) = Some k -> k <> "" ->
  item ∈ items (Redis.list localeCompare now store scope options) ->
  Js.ltb k (key item) = true.
Proof.
  intros Hc Hk (entry & Hin & ->)%redis_list_elem.
  apply redis_found_spec in Hin as (redisKey & envelope & _ & _ & Hentry).
  apply redis_list_entry_key in Hentry as (-> & _ & _ & Hafter). eauto.
Qed.

Lemma redis_list_key_nonempty now store scope options item :
  item ∈ items (Redis.list localeCompare now store scope options) -> key item <> "".
Proof.
  intros (entry & Hin & ->)%redis_list_elem.
  apply redis_found_spec in Hin as (redisKey & envelope & _ & _ & Hentry).
  by apply redis_list_entry_key in Hentry as (-> & Hne & _).
Qed.

Lemma redis_list_cursor now store scope options l :
  limit options = Some l -> 1 <= l ->
  let r := Redis.list localeCompare now store scope options in
  let m := Redis.list_found now store scope options in
  (is_Some (nextCursor r) <-> (length (items r) < length m)%nat)
  /\ nextCursor r = (if decide (length (items r) < length m)%nat
                     then encodeCursor ∘ key <$> last (items r) else None).
Proof.
  intros Hl Hl1 r m. unfold r, Redis.list. rewrite Hl. simpl. fold m.
  set (sorted := Redis.sort (λ left right, localeCompare left.1 right.1 <=? 0) m).
  assert (length sorted = length m) as Hlen
    by (unfold sorted; by rewrite sort_Permutation).
  assert (forall entry, entry ∈ sorted -> key entry.2 = entry.1) as Hkey.
  { intros entry Hin. unfold sorted in Hin. rewrite sort_Permutation in Hin.
    apply redis_found_spec in Hin as (redisKey & envelope & _ & _ & Hentry).
    by apply redis_list_entry_key in Hentry as (-> & _). }
  unfold Js.slice0. destruct (Z.ltb_spec l 0); [lia |].
  unfold Js.length_gt. rewrite length_fmap, !length_take, Hlen.
  assert (encodeCursor ∘ fst <$> last (take (Z.to_nat l) sorted)
          = encodeCursor ∘ key <$> last (snd <$> take (Z.to_nat l) sorted)) as Hlast.
  { rewrite fmap_last.
    destruct (last (take (Z.to_nat l) sorted)) as [entry |] eqn:He; [| done].
    simpl. rewrite Hkey; [done |].
    apply last_Some_elem_of in He. by apply elem_of_take_in in He. }
  destruct (decide (Z.to_nat l `min` length m < length m)%nat) as [Hlt | Hge].
  - destruct (Z.ltb_spec l (Z.of_nat (length m))); [| lia].
    destruct (Z.ltb_spec 0 (Z.of_nat (Z.to_nat l `min` length m))); [| lia].
    simpl. split; [| done]. split; [done |]. intros _.
    destruct (last (take (Z.to_nat l) sorted)) eqn:He; [done |].
    apply last_None in He. apply (f_equal length) in He.
    rewrite length_take, Hlen in He. simpl in He. lia.
  - destruct (Z.ltb_spec l (Z.of_nat (length m))); [lia |]. simpl.
    split; [| done]. split; [by intros [? ?] | lia].
Qed.

End RedisPages.


(* ================================================================== *)
(** * Further properties of the utility layer *)

Lemma b64char_url_safe s : url_safe (Base64Url.b64char s) = true.
Proof. by destruct s as [[] [] [] [] [] []]. Qed.

Lemma string_forall_of_list p (l : list ascii) :
  string_forall p (string_of_list_ascii l) = forallb p l.
Proof. induction l as [| c l IH]; simpl; [done | by rewrite IH]. Qed.

Lemma length_string_of_list (l : list ascii) :
  String.length (string_of_list_ascii l) = length l.
Proof. induction l as [| c l IH]; simpl; [done | by rewrite IH]. Qed.

Lemma sextets_length s :
  length (Base64Url.sextets_of_bytes s) = ((4 * String.length s + 2) / 3)%nat.
Proof.
  induction s as [| a | a b | a b c r IH] using string_ind3.
  - done.
  - by destruct a.
  - by destruct a, b.
  - destruct a, b, c. simpl Base64Url.sextets_of_bytes. simpl length.
    rewrite IH. simpl String.length.
    generalize (String.length r). intros n.
    replace (4 * S (S (S n)) + 2)%nat with ((4 * n + 2) + 4 * 3)%nat by lia.
    rewrite Nat.div_add by lia. lia.
Qed.

(** X1.  Decoding the cursor of a non-empty key gives the key back, and
    two keys with the same cursor are the same key. *)
Theorem X1_cursor_round_trip :
  forall k k' : string,
    k <> "" ->
    decodeCursor (Some (encodeCursor k)) = Some k
    /\ (encodeCursor k = encodeCursor k' -> k = k').
Proof.
  intros k k' Hk. split; [by apply decodeCursor_encodeCursor |].
  intros He. apply (f_equal Base64Url.decode) in He.
  unfold encodeCursor in He. by rewrite !base64url_roundtrip in He.
Qed.

(** X1 at the key [user:1]. *)
Lemma X1_cursor_round_trip_witness :
  decodeCursor (Some (encodeCursor "user:1")) = Some "user:1".
Proof. refine (proj1 (X1_cursor_round_trip "user:1" "" _)). discriminate. Defined.

(** X2.  A cursor is written in the URL-safe alphabet only, without
    padding: it has [ceil(4n/3)] characters for a key of [n] bytes, each a
    letter, a digit, [-] or [_]. *)
Theorem X2_cursor_alphabet :
  forall k : string,
    string_forall url_safe (encodeCursor k) = true
    /\ String.length (encodeCursor k) = ((4 * String.length k + 2) / 3)%nat.
Proof.
  intros k. unfold encodeCursor, Base64Url.encode. split.
  - rewrite string_forall_of_list. apply forallb_forall.
    intros c (s & <- & _)%in_map_iff. apply b64char_url_safe.
  - by rewrite length_string_of_list, length_fmap, sextets_length.
Qed.

Lemma unquoted_etag n : unquoted (etagFromVersion n) = string_of_Z n.
Proof.
  rewrite <- (append_empty_r (etagFromVersion n)).
  exact (unquoted_quoted "" "" n eq_refl eq_refl).
Qed.

Lemma unquoted_decimal n : unquoted (string_of_Z n) = string_of_Z n.
Proof.
  rewrite <- (append_empty_r (string_of_Z n)) at 1.
  exact (unquoted_bare "" "" n eq_refl eq_refl).
Qed.

(** X3.  [normalizeIfMatch] never gives a version below [1], and it reads
    the ETag of a version back to that version: for a safe integer [n]
    (below [2^53] in absolute value, where the platform reads and prints
    integers exactly), the text of [etagFromVersion n], and the bare
    decimal of [n], give [n] when [n] is positive and nothing
    otherwise. *)
Theorem X3_normalizeIfMatch_etag :
  forall (s : option string) (v n : Z),
    safe_integer n = true ->
    (normalizeIfMatch s = Some v -> 0 < v)
    /\ normalizeIfMatch (Some (etagFromVersion n)) = (if 0 <? n then Some n else None)
    /\ normalizeIfMatch (Some (string_of_Z n)) = (if 0 <? n then Some n else None).
Proof.
  intros s v n _. split_and!.
  - destruct s as [s |]; [| done]. rewrite normalizeIfMatch_unquoted.
    destruct (parseInt (unquoted s)) as [p |]; [| done].
    destruct (Z.leb_spec p 0); [done |]. intros [= <-]. lia.
  - rewrite normalizeIfMatch_unquoted, unquoted_etag, parseInt_string_of_Z.
    destruct (Z.leb_spec n 0), (Z.ltb_spec 0 n); (done || lia).
  - rewrite normalizeIfMatch_unquoted, unquoted_decimal, parseInt_string_of_Z.
    destruct (Z.leb_spec n 0), (Z.ltb_spec 0 n); (done || lia).
Qed.

(** X3 at the version [7] and at [0]. *)
Lemma X3_normalizeIfMatch_etag_witness :
  normalizeIfMatch (Some (etagFromVersion 7)) = Some 7
  /\ normalizeIfMatch (Some "0") = None.
Proof.
  split.
  - exact (proj1 (proj2 (X3_normalizeIfMatch_etag None 0 7 eq_refl))).
  - exact (proj2 (proj2 (X3_normalizeIfMatch_etag None 0 0 eq_refl))).
Defined.

(* ================================================================== *)
(** * Further properties of the adapters, one key at a time *)

(** The item a successful SQL [put] returns and the row it leaves. *)
Lemma sql_put_result now table scope k v options item table' :
  Sql.put now table scope k v options = (Ok item, table') ->
  key item = k /\ value item = v
  /\ etag item = etagFromVersion (version item)
  /\ updatedAt item = now
  /\ expiry_of now (ttlSeconds options) = Ok (expiresAt item)
  /\ createdAt item = match Sql.get now table scope k with
                      | Some current => createdAt current
                      | None => now
                      end
  /\ table' !! Sql.pk_of scope k
     = Some {| Sql.valueJson := v;
               Sql.row_version := version item;
               Sql.row_expiresAt := expiresAt item;
               Sql.row_createdAt :=
                 match table !! Sql.pk_of scope k with
                 | Some old => Sql.row_createdAt old
                 | None => now
                 end;
               Sql.row_updatedAt := now |}
  /\ (forall pk, pk <> Sql.pk_of scope k -> table' !! pk = table !! pk).
Proof.
  unfold Sql.put, Sql.get, Sql.activeCurrent, Sql.getRow,
    Sql.insertOnConflictDoUpdate.
  destruct (put_precondition_fails _ _); [done |].
  destruct (expiry_of now (ttlSeconds options)) as [expiry | |]; [| done | done].
  intros [= <- <-]. simpl.
  destruct (table !! Sql.pk_of scope k) as [old |] eqn:Hold; simpl.
  - rewrite notExpiredClause_isExpired.
    destruct (isExpired (Sql.row_expiresAt old) now); simpl;
      rewrite lookup_insert_eq; split_and!; try done;
      intros pk Hpk; by rewrite lookup_insert_ne.
  - rewrite lookup_insert_eq. split_and!; try done.
    intros pk Hpk. by rewrite lookup_insert_ne.
Qed.

(** The item a successful [put] of the key-value adapter returns and the
    record it leaves. *)
Lemma redis_put_result now store scope k v options item store' :
  Redis.put now store scope k v options = (Ok item, store') ->
  key item = k /\ value item = v
  /\ etag item = etagFromVersion (version item)
  /\ updatedAt item = now
  /\ expiry_of now (ttlSeconds options) = Ok (expiresAt item)
  /\ createdAt item = match (Redis.get now store scope k).1 with
                      | Some current => createdAt current
                      | None => now
                      end
  /\ Redis.toStoredItem k <$> store' !! Redis.toRedisKey scope k = Some item
  /\ (forall rk, rk <> Redis.toRedisKey scope k -> store' !! rk = store !! rk).
Proof.
  unfold Redis.put, Redis.put_under, Redis.retries, Redis.get. simpl.
  destruct (put_precondition_fails _ _); [done |].
  destruct (expiry_of now (ttlSeconds options)) as [expiry | |]; [| done | done].
  intros [= <- <-]. simpl. rewrite lookup_insert_eq.
  split_and!; try done.
  - destruct (store !! Redis.toRedisKey scope k) as [old |]; simpl; [| done].
    by destruct (isExpired (Redis.env_expiresAt old) now).
  - intros rk Hrk. by rewrite lookup_insert_ne.
Qed.

(** X4.  Read your write.  After a successful [put], a [get] of the same
    scope and key at any instant at which the item has not expired
    returns the written value with the version, ETag, [updatedAt] and
    [expiresAt] that [put] returned, and [updatedAt] is the instant of the
    write.  The item has not expired when it has no expiry, and (the
    test compares the texts of the dates) when its expiry and the instant
    are in the years 0 to 9999 and the instant is before the expiry.
    When an active item was updated its [createdAt] is kept.  On the
    key-value adapter [get] returns the very item [put] returned; on the
    SQL adapters it does so whenever the write did not go over an expired
    row. *)
Theorem X4_read_your_write :
  forall (now later : Timestamp) (scope : StorageScope) (k : string) (v : JsonValue)
         (options : PutOptions)
         (table table' : gmap Sql.PK Sql.Cols) (item : StoredItem)
         (store store' : gmap string Redis.RedisEnvelope) (item' : StoredItem),
    Sql.put now table scope k v options = (Ok item, table') ->
    Redis.put now store scope k v options = (Ok item', store') ->
    isExpired (expiresAt item) later = false ->
    (expiresAt item' = expiresAt item
     /\ match expiresAt item with
        | Some e =>
            four_digit_year e = true -> four_digit_year later = true ->
            isExpired (expiresAt item) later = false <-> later < e
        | None => True
        end)
    /\ (exists got,
          Sql.get later table' scope k = Some got
          /\ key got = k /\ value got = v
          /\ version got = version item /\ etag got = etag item
          /\ updatedAt got = now /\ updatedAt item = now
          /\ expiresAt got = expiresAt item
          /\ (sql_state now table scope k <> Expired -> got = item))
    /\ (forall current, Sql.get now table scope k = Some current ->
          createdAt item = createdAt current)
    /\ Redis.get later store' scope k = (Some item', store')
    /\ (forall current, (Redis.get now store scope k).1 = Some current ->
          createdAt item' = createdAt current).
Proof.
  intros now later scope k v options table table' item store store' item'
    Hsql Hredis Hlater.
  apply sql_put_result in Hsql
    as (Hk & Hv & He & Hu & Hx & Hc & Hrow & _).
  apply redis_put_result in Hredis
    as (Hk' & Hv' & He' & Hu' & Hx' & Hc' & Hrec & _).
  assert (expiresAt item' = expiresAt item) as Hsame by congruence.
  split_and!.
  - done.
  - destruct (expiresAt item) as [e |]; [| done]. intros He4 Hl4.
    unfold isExpired. rewrite text_leb_four_digit by done.
    destruct (Z.leb_spec e later); split; (done || lia).
  - unfold Sql.get, Sql.getRow. rewrite Hrow. simpl.
    rewrite notExpiredClause_isExpired. simpl. rewrite Hlater. simpl.
    eexists. split; [reflexivity |]. unfold Sql.toStoredItem. simpl.
    split_and!; try done.
    intros Hstate.
    assert (match table !! Sql.pk_of scope k with
            | Some old => Sql.row_createdAt old
            | None => now
            end = createdAt item) as ->.
    { rewrite Hc. revert Hstate. unfold sql_state, Sql.get, Sql.getRow, state_of.
      destruct (table !! Sql.pk_of scope k) as [old |]; simpl; [| done].
      rewrite notExpiredClause_isExpired.
      by destruct (isExpired (Sql.row_expiresAt old) now). }
    destruct item as [ik iv ivers ie ic iu ix]. simpl in *. by subst.
  - intros current Hcur. by rewrite Hc, Hcur.
  - unfold Redis.get.
    destruct (store' !! Redis.toRedisKey scope k) as [e |]; simpl in Hrec; [| done].
    injection Hrec as Hrec.
    assert (Redis.env_expiresAt e = expiresAt item') as -> by (by rewrite <- Hrec).
    by rewrite Hsame, Hlater, Hrec.
  - intros current Hcur. by rewrite Hc', Hcur.
Qed.

(** X4 on an update under [ifMatchVersion = 1], read one second later. *)
Lemma X4_read_your_write_witness :
  let scope := mkScope "default" "ns" "u1" in
  let table := (Sql.put 0 ∅ scope "k" "1" (mkPutOptions None None)).2 in
  let options := mkPutOptions (Some 60) (Some 1) in
  let item := mkItem "k" "2" 2 (etagFromVersion 2) 0 5000 (Some 65000) in
  Sql.get 6000 (Sql.put 5000 table scope "k" "2" options).2 scope "k" = Some item.
Proof.
  intros scope table options item.
  pose (store := (Redis.put 0 ∅ scope "k" "1" (mkPutOptions None None)).2).
  destruct (X4_read_your_write 5000 6000 scope "k" "2" options
              table (Sql.put 5000 table scope "k" "2" options).2 item
              store (Redis.put 5000 store scope "k" "2" options).2 item)
    as (_ & (got & Hget & _ & _ & _ & _ & _ & _ & _ & Hsame) & _).
  - apply injective_projections; [vm_compute; reflexivity | reflexivity].
  - apply injective_projections; [vm_compute; reflexivity | reflexivity].
  - vm_compute. reflexivity.
  - rewrite Hget. f_equal. apply Hsame. vm_compute. discriminate.
Defined.

(* ================================================================== *)
(** * Expiry and deletion *)

Lemma expiry_instant_ttl now t ifMatch :
  t <> 0 ->
  expiry_instant now {| ttlSeconds := Some t; ifMatchVersion := ifMatch |}
  = Some (now + t * 1000).
Proof.
  intros Ht. unfold expiry_instant, Js.truthy_num. simpl.
  by destruct (Z.eqb_spec t 0).
Qed.

Lemma sql_state_after_put now later table scope k v options item table' :
  Sql.put now table scope k v options = (Ok item, table') ->
  sql_state later table' scope k
  = if isExpired (expiry_instant now options) later then Expired
    else Active (version item).
Proof.
  intros [_ Hrow]%sql_put_ok. unfold sql_state. by rewrite Hrow.
Qed.

Lemma redis_state_after_put now later store scope k v options item store' :
  Redis.put now store scope k v options = (Ok item, store') ->
  redis_state later store' scope k
  = if isExpired (expiry_instant now options) later then Expired
    else Active (version item).
Proof.
  intros [_ Hrec]%redis_put_ok. unfold redis_state. by rewrite Hrec.
Qed.

Lemma put_expiresAt_instant now options item :
  expiry_of now (ttlSeconds options) = Ok (expiresAt item) ->
  expiresAt item = expiry_instant now options.
Proof. apply expiry_of_instant. Qed.

Lemma sql_get_none_state now table scope k :
  Sql.get now table scope k = None
  <-> active_version (sql_state now table scope k) = None.
Proof.
  rewrite <- sql_get_state. by destruct (Sql.get now table scope k).
Qed.

Lemma redis_get_none_state now store scope k :
  (Redis.get now store scope k).1 = None
  <-> active_version (redis_state now store scope k) = None.
Proof.
  rewrite <- redis_get_state. by destruct (Redis.get now store scope k).1.
Qed.

(** X5.  Time to live.  An item written with [ttlSeconds = t] (not [0])
    at [now] carries [expiresAt = now + 1000 t].  When that instant and
    the instant of a read are in the years 0 to 9999, [get] returns the
    item at every instant before the expiry and nothing from the expiry
    on (the bound is inclusive); a write without precondition (and with a
    valid expiry of its own) made once the item has expired starts over
    at version [1]; and the key-value adapter removes the expired record
    when it is read.  When the expiry is in a year after 9999, the item
    has expired at once: no [get] of these years returns it. *)
Theorem X5_ttl_expiry :
  forall (now later : Timestamp) (scope : StorageScope) (k : string) (v v2 : JsonValue)
         (t : Z) (ifMatch ttl2 : option Z)
         (table table' : gmap Sql.PK Sql.Cols) (item : StoredItem)
         (store store' : gmap string Redis.RedisEnvelope) (item' : StoredItem),
    t <> 0 ->
    four_digit_year later = true ->
    Sql.put now table scope k v {| ttlSeconds := Some t; ifMatchVersion := ifMatch |}
    = (Ok item, table') ->
    Redis.put now store scope k v {| ttlSeconds := Some t; ifMatchVersion := ifMatch |}
    = (Ok item', store') ->
    expiresAt item = Some (now + t * 1000)
    /\ expiresAt item' = Some (now + t * 1000)
    /\ (four_digit_year (now + t * 1000) = true ->
        (Sql.get later table' scope k = None <-> now + t * 1000 <= later)
        /\ ((Redis.get later store' scope k).1 = None <-> now + t * 1000 <= later)
        /\ (now + t * 1000 <= later ->
            (forall expiry2, expiry_of later ttl2 = Ok expiry2 ->
               (exists item2 table2,
                   Sql.put later table' scope k v2
                     {| ttlSeconds := ttl2; ifMatchVersion := None |}
                   = (Ok item2, table2) /\ version item2 = 1)
               /\ (exists item2 store2,
                     Redis.put later store' scope k v2
                       {| ttlSeconds := ttl2; ifMatchVersion := None |}
                     = (Ok item2, store2) /\ version item2 = 1))
            /\ (Redis.get later store' scope k).2
               = base.delete (Redis.toRedisKey scope k) store'))
    /\ (9999 < Date.year (now + t * 1000) ->
        Sql.get later table' scope k = None
        /\ (Redis.get later store' scope k).1 = None).
Proof.
  intros now later scope k v v2 t ifMatch ttl2 table table' item store store' item'
    Ht Hlater Hsql Hredis.
  pose proof (sql_state_after_put _ later _ _ _ _ _ _ _ Hsql) as Hst.
  pose proof (redis_state_after_put _ later _ _ _ _ _ _ _ Hredis) as Hst'.
  pose proof (sql_put_result _ _ _ _ _ _ _ _ Hsql) as (_ & _ & _ & _ & Hx & _).
  pose proof (redis_put_result _ _ _ _ _ _ _ _ Hredis)
    as (_ & _ & _ & _ & Hx' & _ & Hrec & _).
  apply put_expiresAt_instant in Hx, Hx'.
  rewrite expiry_instant_ttl in Hst, Hst', Hx, Hx' by done.
  unfold isExpired in Hst, Hst'.
  split; [done |]. split; [done |]. split.
  - intros He. rewrite text_leb_four_digit in Hst, Hst' by done.
    split; [| split].
    + rewrite sql_get_none_state, Hst.
      destruct (Z.leb_spec (now + t * 1000) later); simpl; split; (done || lia).
    + rewrite redis_get_none_state, Hst'.
      destruct (Z.leb_spec (now + t * 1000) later); simpl; split; (done || lia).
    + intros Hlate.
      assert ((now + t * 1000 <=? later) = true) as Hb by lia.
      rewrite Hb in Hst, Hst'. split.
      * intros expiry2 Hexpiry2. split.
        -- destruct (sql_put_accepted later table' scope k v2
                       {| ttlSeconds := ttl2; ifMatchVersion := None |} expiry2
                       eq_refl Hexpiry2)
             as (item2 & table2 & Hput & Hver & _).
           exists item2, table2. split; [done |]. by rewrite Hver, Hst.
        -- destruct (redis_put_accepted later store' scope k v2
                       {| ttlSeconds := ttl2; ifMatchVersion := None |} expiry2
                       eq_refl Hexpiry2)
             as (item2 & store2 & Hput & Hver & _).
           exists item2, store2. split; [done |]. by rewrite Hver, Hst'.
      * unfold Redis.get.
        destruct (store' !! Redis.toRedisKey scope k) as [e |]; simpl in Hrec; [| done].
        injection Hrec as Hrec.
        assert (Redis.env_expiresAt e = expiresAt item') as -> by (by rewrite <- Hrec).
        rewrite Hx'. unfold isExpired. rewrite text_leb_four_digit by done.
        by rewrite Hb.
  - intros Hfar. rewrite (text_leb_beyond _ _ Hfar Hlater) in Hst, Hst'.
    by rewrite sql_get_none_state, redis_get_none_state, Hst, Hst'.
Qed.

(** X5 on a write with a time to live of one second: read at the last
    millisecond before the expiry and at the expiry. *)
Lemma X5_ttl_expiry_witness :
  let scope := mkScope "default" "ns" "u1" in
  let options := mkPutOptions (Some 1) None in
  let table' := (Sql.put 5000 ∅ scope "k" "1" options).2 in
  let store' := (Redis.put 5000 ∅ scope "k" "1" options).2 in
  (value <$> Sql.get 5999 table' scope "k" = Some "1"
   /\ Sql.get 6000 table' scope "k" = None)
  /\ (value <$> (Redis.get 5999 store' scope "k").1 = Some "1"
      /\ (Redis.get 6000 store' scope "k").1 = None).
Proof.
  intros scope options table' store'.
  pose (item := mkItem "k" "1" 1 (etagFromVersion 1) 5000 5000 (Some 6000)).
  assert (Sql.put 5000 ∅ scope "k" "1" options = (Ok item, table')) as Hsql
    by (apply injective_projections; [vm_compute; reflexivity | reflexivity]).
  assert (Redis.put 5000 ∅ scope "k" "1" options = (Ok item, store')) as Hredis
    by (apply injective_projections; [vm_compute; reflexivity | reflexivity]).
  assert (1 <> 0) as Ht by lia.
  assert (four_digit_year 6000 = true) as Hlater by (vm_compute; reflexivity).
  destruct (X5_ttl_expiry 5000 6000 scope "k" "1" "2" 1 None None
              ∅ table' item ∅ store' item Ht Hlater Hsql Hredis)
    as (_ & _ & Hnear & _).
  destruct Hnear as (Hs & Hr & _); [vm_compute; reflexivity |].
  split; split.
  - vm_compute. reflexivity.
  - apply Hs. lia.
  - vm_compute. reflexivity.
  - apply Hr. lia.
Defined.

(** An expiry beyond the year 9999: with a time to live of [3 * 10^11]
    seconds the item is written with an expiry in the year 11476 and is
    not returned by a [get] made one second later; with [10^13] seconds
    nothing is written. *)
Example put_far_expiry :
  let scope := mkScope "default" "ns" "u1" in
  let written := Sql.put 0 ∅ scope "k" "1" (mkPutOptions (Some (3 * 10 ^ 11)) None) in
  isOk written.1 = true
  /\ Sql.row_expiresAt <$> written.2 !! Sql.pk_of scope "k" = Some (Some (3 * 10 ^ 14))
  /\ Date.year (3 * 10 ^ 14) = 11476
  /\ Sql.get 1000 written.2 scope "k" = None
  /\ Sql.put 0 ∅ scope "k" "1" (mkPutOptions (Some (10 ^ 13)) None)
     = (Throw invalidTime, ∅).
Proof. by split_and!; vm_compute. Qed.

(** What [delete] does, by the state of the key. *)
Lemma sql_delete_outcome now table scope k options :
  Sql.delete now table scope k options
  = match sql_state now table scope k, del_ifMatchVersion options with
    | Absent, _ => (Ok false, table)
    | Expired, Some _ => (Err ifMatchError, table)
    | Expired, None => (Ok false, base.delete (Sql.pk_of scope k) table)
    | Active cur, Some v =>
        if cur =? v then (Ok true, base.delete (Sql.pk_of scope k) table)
        else (Err ifMatchError, table)
    | Active _, None => (Ok true, base.delete (Sql.pk_of scope k) table)
    end.
Proof.
  unfold Sql.delete, Sql.getRow, sql_state, state_of.
  destruct (table !! Sql.pk_of scope k) as [c |]; simpl; [| done].
  destruct (isExpired (Sql.row_expiresAt c) now), (del_ifMatchVersion options) as [v |];
    simpl; try done.
  by destruct (Sql.row_version c =? v).
Qed.

Lemma redis_delete_outcome now store scope k options :
  Redis.delete now store scope k options
  = match redis_state now store scope k, del_ifMatchVersion options with
    | Absent, _ => (Ok false, store)
    | Expired, Some _ => (Err ifMatchError, store)
    | Expired, None => (Ok false, base.delete (Redis.toRedisKey scope k) store)
    | Active cur, Some v =>
        if cur =? v then (Ok true, base.delete (Redis.toRedisKey scope k) store)
        else (Err ifMatchError, store)
    | Active _, None => (Ok true, base.delete (Redis.toRedisKey scope k) store)
    end.
Proof.
  unfold Redis.delete, Redis.delete_under, Redis.retries, redis_state, state_of. simpl.
  destruct (store !! Redis.toRedisKey scope k) as [e |]; simpl; [| done].
  destruct (isExpired (Redis.env_expiresAt e) now), (del_ifMatchVersion options) as [v |];
    simpl; try done.
  by destruct (Redis.env_version e =? v).
Qed.

Lemma sql_get_state_cases now table scope k :
  match sql_state now table scope k with
  | Active cur => version <$> Sql.get now table scope k = Some cur
  | _ => Sql.get now table scope k = None
  end.
Proof.
  pose proof (sql_get_state now table scope k) as H.
  destruct (sql_state now table scope k); simpl in H; [| | done];
    by destruct (Sql.get now table scope k).
Qed.

Lemma redis_get_state_cases now store scope k :
  match redis_state now store scope k with
  | Active cur => version <$> (Redis.get now store scope k).1 = Some cur
  | _ => (Redis.get now store scope k).1 = None
  end.
Proof.
  pose proof (redis_get_state now store scope k) as H.
  destruct (redis_state now store scope k); simpl in H; [| | done];
    by destruct (Redis.get now store scope k).1.
Qed.

Lemma sql_state_absent now table scope k :
  sql_state now table scope k = Absent <-> table !! Sql.pk_of scope k = None.
Proof.
  unfold sql_state, state_of.
  destruct (table !! Sql.pk_of scope k) as [c |]; simpl; [| done].
  by destruct (isExpired (Sql.row_expiresAt c) now).
Qed.

Lemma redis_state_absent now store scope k :
  redis_state now store scope k = Absent <-> store !! Redis.toRedisKey scope k = None.
Proof.
  unfold redis_state, state_of.
  destruct (store !! Redis.toRedisKey scope k) as [e |]; simpl; [| done].
  by destruct (isExpired (Redis.env_expiresAt e) now).
Qed.

Lemma sql_get_deleted later table scope k :
  Sql.get later (base.delete (Sql.pk_of scope k) table) scope k = None.
Proof. unfold Sql.get, Sql.getRow. by rewrite lookup_delete_eq. Qed.

Lemma redis_get_deleted later store scope k :
  Redis.get later (base.delete (Redis.toRedisKey scope k) store) scope k
  = (None, base.delete (Redis.toRedisKey scope k) store).
Proof. unfold Redis.get. by rewrite lookup_delete_eq. Qed.

(** X6.  What [delete] answers and leaves.  A [delete] that returns has
    removed the record of the key, whatever its state: no later [get]
    finds it; the answer is [true] exactly when [get] would have returned
    an item, and with [ifMatchVersion] it is [true] only for an item of
    that version.  A [delete] that raises raises the precondition failure
    of [ifMatchVersion], has changed nothing, and was given a version that
    is not the version of an active item; nothing else is thrown. *)
Theorem X6_delete_outcome :
  forall (now later : Timestamp) (scope : StorageScope) (k : string)
         (options : DeleteOptions)
         (table : gmap Sql.PK Sql.Cols) (store : gmap string Redis.RedisEnvelope),
    let out := Sql.delete now table scope k options in
    let out' := Redis.delete now store scope k options in
    match out.1 with
    | Ok removed =>
        removed = bool_decide (is_Some (Sql.get now table scope k))
        /\ out.2 = base.delete (Sql.pk_of scope k) table
        /\ Sql.get later out.2 scope k = None
        /\ (forall v, del_ifMatchVersion options = Some v -> removed = true ->
              version <$> Sql.get now table scope k = Some v)
    | Err e =>
        e = ifMatchError /\ out.2 = table
        /\ exists v, del_ifMatchVersion options = Some v
             /\ version <$> Sql.get now table scope k <> Some v
    | Throw _ => False
    end
    /\ match out'.1 with
       | Ok removed =>
           removed = bool_decide (is_Some (Redis.get now store scope k).1)
           /\ out'.2 = base.delete (Redis.toRedisKey scope k) store
           /\ (Redis.get later out'.2 scope k).1 = None
           /\ (forall v, del_ifMatchVersion options = Some v -> removed = true ->
                 version <$> (Redis.get now store scope k).1 = Some v)
       | Err e =>
           e = ifMatchError /\ out'.2 = store
           /\ exists v, del_ifMatchVersion options = Some v
                /\ version <$> (Redis.get now store scope k).1 <> Some v
       | Throw _ => False
       end.
Proof.
  intros now later scope k options table store out out'. subst out out'. split.
  - rewrite sql_delete_outcome.
    pose proof (sql_get_state_cases now table scope k) as Hget.
    pose proof (sql_state_absent now table scope k) as Habs.
    destruct (sql_state now table scope k) as [| | cur],
      (del_ifMatchVersion options) as [v |]; simpl.
    + rewrite Hget. split_and!; try done.
      * symmetry. apply delete_id. by apply Habs.
      * unfold Sql.get, Sql.getRow. by rewrite (proj1 Habs eq_refl).
    + rewrite Hget. split_and!; try done.
      * symmetry. apply delete_id. by apply Habs.
      * unfold Sql.get, Sql.getRow. by rewrite (proj1 Habs eq_refl).
    + split_and!; try done. exists v. by rewrite Hget.
    + rewrite Hget. split_and!; try done. apply sql_get_deleted.
    + destruct (Z.eqb_spec cur v) as [-> | Hne]; simpl.
      * destruct (Sql.get now table scope k); [| done].
        split_and!; try done; [apply sql_get_deleted |].
        by intros ? [= <-] _.
      * split_and!; try done. exists v. split; [done |]. rewrite Hget. congruence.
    + destruct (Sql.get now table scope k); [| done].
      split_and!; try done. apply sql_get_deleted.
  - rewrite redis_delete_outcome.
    pose proof (redis_get_state_cases now store scope k) as Hget.
    pose proof (redis_state_absent now store scope k) as Habs.
    destruct (redis_state now store scope k) as [| | cur],
      (del_ifMatchVersion options) as [v |]; simpl.
    + rewrite Hget. split_and!; try done.
      * symmetry. apply delete_id. by apply Habs.
      * unfold Redis.get. by rewrite (proj1 Habs eq_refl).
    + rewrite Hget. split_and!; try done.
      * symmetry. apply delete_id. by apply Habs.
      * unfold Redis.get. by rewrite (proj1 Habs eq_refl).
    + split_and!; try done. exists v. by rewrite Hget.
    + rewrite Hget. split_and!; try done. by rewrite redis_get_deleted.
    + destruct (Z.eqb_spec cur v) as [-> | Hne]; simpl.
      * destruct (Redis.get now store scope k).1; [| done].
        split_and!; try done; [by rewrite redis_get_deleted |].
        by intros ? [= <-] _.
      * split_and!; try done. exists v. split; [done |]. rewrite Hget. congruence.
    + destruct (Redis.get now store scope k).1; [| done].
      split_and!; try done. by rewrite redis_get_deleted.
Qed.

(* ================================================================== *)
(** * One key at a time, and many *)

Lemma append_inj_r (p a b : string) : p +:+ a = p +:+ b -> a = b.
Proof. induction p as [| c p IH]; simpl; [done |]. intros [= H]. by apply IH. Qed.

Lemma toRedisKey_inj_key scope k k' :
  Redis.toRedisKey scope k = Redis.toRedisKey scope k' -> k = k'.
Proof. apply append_inj_r. Qed.

Lemma sql_put_lookup_ne now table scope k v options pk :
  pk <> Sql.pk_of scope k ->
  (Sql.put now table scope k v options).2 !! pk = table !! pk.
Proof.
  intros Hpk. unfold Sql.put, Sql.insertOnConflictDoUpdate.
  destruct (put_precondition_fails _ _); [done |].
  destruct (expiry_of now (ttlSeconds options)); [| done | done]. simpl.
  destruct (table !! Sql.pk_of scope k); by rewrite lookup_insert_ne.
Qed.

Lemma sql_delete_lookup_ne now table scope k options pk :
  pk <> Sql.pk_of scope k ->
  (Sql.delete now table scope k options).2 !! pk = table !! pk.
Proof.
  intros Hpk. unfold Sql.delete.
  destruct (Sql.getRow now table scope k false); [| done].
  destruct (match del_ifMatchVersion options with Some _ => _ | None => _ end);
    [done |]. simpl. by rewrite lookup_delete_ne.
Qed.

Lemma other_apply_lookup_ne redisKey o store rk :
  rk <> redisKey -> Redis.other_apply redisKey o store !! rk = store !! rk.
Proof.
  intros Hrk. destruct o; simpl; [by rewrite lookup_insert_ne | by rewrite lookup_delete_ne].
Qed.

Lemma redis_put_attempts_lookup_ne attempts others now store redisKey k v options rk :
  rk <> redisKey ->
  (Redis.put_attempts attempts others now store redisKey k v options).2 !! rk
  = store !! rk.
Proof.
  intros Hrk. revert others store.
  induction attempts as [| n IH]; intros others store; simpl; [done |].
  destruct (put_precondition_fails _ _); [done |].
  destruct (expiry_of now (ttlSeconds options)); [| done | done].
  destruct others as [| [o |] others]; simpl.
  - by rewrite lookup_insert_ne.
  - by rewrite IH, other_apply_lookup_ne.
  - by rewrite lookup_insert_ne.
Qed.

Lemma redis_delete_attempts_lookup_ne attempts others now store redisKey options rk :
  rk <> redisKey ->
  (Redis.delete_attempts attempts others now store redisKey options).2 !! rk
  = store !! rk.
Proof.
  intros Hrk. revert others store.
  induction attempts as [| n IH]; intros others store; simpl; [done |].
  destruct (store !! redisKey) as [e |]; [| done].
  destruct (match del_ifMatchVersion options with Some _ => _ | None => _ end);
    [done |].
  destruct others as [| [o |] others]; simpl.
  - by rewrite lookup_delete_ne.
  - by rewrite IH, other_apply_lookup_ne.
  - by rewrite lookup_delete_ne.
Qed.

Lemma redis_get_lookup_ne now store scope k rk :
  rk <> Redis.toRedisKey scope k ->
  (Redis.get now store scope k).2 !! rk = store !! rk.
Proof.
  intros Hrk. unfold Redis.get.
  destruct (store !! Redis.toRedisKey scope k) as [e |]; [| done].
  destruct (isExpired (Redis.env_expiresAt e) now); [| done].
  simpl. by rewrite lookup_delete_ne.
Qed.

(** [get] looks at the record of its key only. *)
Lemma sql_get_ext now table table' scope k :
  table' !! Sql.pk_of scope k = table !! Sql.pk_of scope k ->
  Sql.get now table' scope k = Sql.get now table scope k.
Proof. intros H. unfold Sql.get, Sql.getRow. by rewrite H. Qed.

Lemma redis_get_ext now store store' scope k :
  store' !! Redis.toRedisKey scope k = store !! Redis.toRedisKey scope k ->
  (Redis.get now store' scope k).1 = (Redis.get now store scope k).1.
Proof.
  intros H. unfold Redis.get. rewrite H.
  destruct (store !! Redis.toRedisKey scope k) as [e |]; [| done].
  by destruct (isExpired (Redis.env_expiresAt e) now).
Qed.

(** X7.  A write touches one key.  [put] and [delete] on a key, whether
    they succeed or raise, leave what [get] returns for every other key
    of the scope as it was, at every instant; on the key-value adapter
    this holds whatever other clients do to the key being written, and
    also for the removal of an expired record by [get]. *)
Theorem X7_other_keys_untouched :
  forall (now later : Timestamp) (scope : StorageScope) (k k' : string) (v : JsonValue)
         (options : PutOptions) (dopts : DeleteOptions) (others : Redis.Schedule)
         (table : gmap Sql.PK Sql.Cols) (store : gmap string Redis.RedisEnvelope),
    k' <> k ->
    Sql.get later (Sql.put now table scope k v options).2 scope k'
    = Sql.get later table scope k'
    /\ Sql.get later (Sql.delete now table scope k dopts).2 scope k'
       = Sql.get later table scope k'
    /\ (Redis.get later (Redis.put_under others now store scope k v options).2 scope k').1
       = (Redis.get later store scope k').1
    /\ (Redis.get later (Redis.delete_under others now store scope k dopts).2 scope k').1
       = (Redis.get later store scope k').1
    /\ (Redis.get later (Redis.get now store scope k).2 scope k').1
       = (Redis.get later store scope k').1.
Proof.
  intros now later scope k k' v options dopts others table store Hk.
  assert (Sql.pk_of scope k' <> Sql.pk_of scope k) as Hpk
    by (by intros [_ ?]%pk_of_inj).
  assert (Redis.toRedisKey scope k' <> Redis.toRedisKey scope k) as Hrk
    by (by intros ?%toRedisKey_inj_key).
  split_and!.
  - apply sql_get_ext. by apply sql_put_lookup_ne.
  - apply sql_get_ext. by apply sql_delete_lookup_ne.
  - apply redis_get_ext. by apply redis_put_attempts_lookup_ne.
  - apply redis_get_ext. by apply redis_delete_attempts_lookup_ne.
  - apply redis_get_ext. by apply redis_get_lookup_ne.
Qed.

(** X7 on the keys [a] and [b]: overwriting and deleting [a] leaves [b]. *)
Lemma X7_other_keys_untouched_witness :
  let scope := mkScope "default" "ns" "u1" in
  let table :=
    (Sql.batchPut 0 ∅ scope [mkEntry "a" "1" None None; mkEntry "b" "2" None None]).2 in
  Sql.get 9 (Sql.put 5 table scope "a" "3" (mkPutOptions None None)).2 scope "b"
  = Sql.get 9 table scope "b"
  /\ Sql.get 9 (Sql.delete 5 table scope "a" (mkDeleteOptions None)).2 scope "b"
     = Sql.get 9 table scope "b".
Proof.
  intros scope table.
  assert ("b" <> "a") as Hk by discriminate.
  destruct (X7_other_keys_untouched 5 9 scope "a" "b" "3" (mkPutOptions None None)
              (mkDeleteOptions None) [] table ∅ Hk) as (Hput & Hdel & _).
  split; [exact Hput | exact Hdel].
Defined.

(** ** Objects filled by assignments *)

Section Dicts.

Context {V : Type} (isNull : V -> bool).

Lemma assign_lookup key v (result : Js.Dict V) k :
  k <> "__proto__" ->
  Js.assign isNull key v result !! k
  = if decide (k = key) then Some v else result !! k.
Proof.
  intros Hk. unfold Js.assign, lookup, Dict_lookup.
  destruct (bool_decide (key = "__proto__") && negb (Js.nullProto result)) eqn:Hp; simpl.
  - apply andb_true_iff in Hp as [->%bool_decide_eq_true _].
    by destruct (decide (k = "__proto__")).
  - destruct (decide (k = key)) as [-> | Hne];
      [by rewrite lookup_insert_eq | by rewrite lookup_insert_ne].
Qed.

Lemma assign_lookup_ne key v (result : Js.Dict V) k :
  k <> key -> Js.assign isNull key v result !! k = result !! k.
Proof.
  intros Hk. unfold Js.assign, lookup, Dict_lookup.
  destruct (bool_decide (key = "__proto__") && negb (Js.nullProto result)); simpl;
    [done | by rewrite lookup_insert_ne].
Qed.

Variable f : string -> V.

Lemma assign_foldl_lookup keys (acc : Js.Dict V) k :
  k <> "__proto__" ->
  foldl (λ result key, Js.assign isNull key (f key) result) acc keys !! k
  = if bool_decide (k ∈ keys) then Some (f k) else acc !! k.
Proof.
  intros Hk. revert acc. induction keys as [| x keys IH]; intros acc; simpl; [done |].
  rewrite IH. destruct (decide (k ∈ keys)) as [Hin | Hin].
  - rewrite !bool_decide_eq_true_2; [done | by right | done].
  - rewrite (bool_decide_eq_false_2 _ Hin), assign_lookup by done.
    destruct (decide (k = x)) as [-> | Hne].
    + rewrite bool_decide_eq_true_2; [done | by left].
    + rewrite bool_decide_eq_false_2; [done |].
      by intros [? | ?]%elem_of_cons.
Qed.

Lemma assign_foldl_lookup_ne keys (acc : Js.Dict V) k :
  k ∉ keys ->
  foldl (λ result key, Js.assign isNull key (f key) result) acc keys !! k = acc !! k.
Proof.
  revert acc. induction keys as [| x keys IH]; intros acc Hk; simpl; [done |].
  apply not_elem_of_cons in Hk as [Hne Hk].
  by rewrite IH, assign_lookup_ne.
Qed.

(** The key [__proto__], assigned once at most, gets no entry. *)
Lemma assign_foldl_proto keys (acc : Js.Dict V) :
  NoDup keys -> Js.nullProto acc = false -> acc !! "__proto__" = None ->
  foldl (λ result key, Js.assign isNull key (f key) result) acc keys !! "__proto__" = None.
Proof.
  revert acc. induction keys as [| x keys IH]; intros acc Hnd Hproto Hacc; simpl; [done |].
  apply NoDup_cons in Hnd as [Hx Hnd].
  destruct (decide (x = "__proto__")) as [-> | Hne].
  - rewrite assign_foldl_lookup_ne by done.
    unfold Js.assign. by rewrite Hproto, bool_decide_eq_true_2.
  - apply IH; [done | |].
    + unfold Js.assign. by rewrite bool_decide_eq_false_2.
    + by rewrite assign_lookup_ne.
Qed.


End Dicts.

Lemma redis_batchGet_step now store scope (result : Js.Dict (option StoredItem)) key :
  match store !! Redis.toRedisKey scope key with
  | None => Js.assign Js.isNull key None result
  | Some envelope =>
      if isExpired (Redis.env_expiresAt envelope) now
      then Js.assign Js.isNull key None result
      else Js.assign Js.isNull key (Some (Redis.toStoredItem key envelope)) result
  end
  = Js.assign Js.isNull key (Redis.get now store scope key).1 result.
Proof.
  unfold Redis.get.
  destruct (store !! Redis.toRedisKey scope key) as [e |]; [| done].
  by destruct (isExpired (Redis.env_expiresAt e) now).
Qed.

Lemma redis_batchGet_assign now store scope keys :
  Redis.batchGet now store scope keys
  = foldl (λ result key, Js.assign Js.isNull key (Redis.get now store scope key).1 result)
      Js.emptyDict keys.
Proof.
  unfold Redis.batchGet. generalize (@Js.emptyDict (option StoredItem)).
  induction keys as [| x keys IH]; intros acc; simpl; [done |].
  by rewrite redis_batchGet_step, IH.
Qed.

(** X8.  [batchGet] is [get], key by key.  The answer has an entry for
    exactly the requested keys, and the entry of a key is what [get]
    returns for it at the same instant: the item, or the absence of an
    active item; a key asked for twice has one entry.  The key
    [__proto__] is the exception: the answer is a plain object, in which
    an assignment to that key sets the prototype, and has no entry for
    it when it is asked for once. *)
Theorem X8_batchGet_is_get :
  forall (now : Timestamp) (scope : StorageScope) (keys : list string) (k : string)
         (table : gmap Sql.PK Sql.Cols) (store : gmap string Redis.RedisEnvelope),
    (k <> "__proto__" ->
     Sql.batchGet now table scope keys !! k
     = (if bool_decide (k ∈ keys) then Some (Sql.get now table scope k) else None)
     /\ Redis.batchGet now store scope keys !! k
        = (if bool_decide (k ∈ keys) then Some (Redis.get now store scope k).1 else None))
    /\ (NoDup keys ->
        Sql.batchGet now table scope keys !! "__proto__" = None
        /\ Redis.batchGet now store scope keys !! "__proto__" = None).
Proof.
  intros now scope keys k table store. split.
  - intros Hk. split.
    + unfold Sql.batchGet.
      by rewrite (assign_foldl_lookup Js.isNull (λ key, Sql.get now table scope key)).
    + rewrite redis_batchGet_assign.
      by rewrite (assign_foldl_lookup Js.isNull (λ key, (Redis.get now store scope key).1)).
  - intros Hnd. split.
    + unfold Sql.batchGet.
      by apply (assign_foldl_proto Js.isNull (λ key, Sql.get now table scope key)).
    + rewrite redis_batchGet_assign.
      by apply (assign_foldl_proto Js.isNull (λ key, (Redis.get now store scope key).1)).
Qed.

(** The key [__proto__] in [batchGet]: asked for with a key that holds an
    item, it has no entry; asked for twice when it holds nothing, it has
    one, the first assignment having set the prototype to [null]. *)
Example batchGet_proto :
  let scope := mkScope "default" "ns" "u1" in
  let table := (Sql.put 0 ∅ scope "__proto__" "1" (mkPutOptions None None)).2 in
  is_Some (Sql.get 1 table scope "__proto__")
  /\ Sql.batchGet 1 table scope ["a"; "__proto__"] !! "__proto__" = None
  /\ Sql.batchGet 1 table scope ["a"; "__proto__"] !! "a" = Some None
  /\ Sql.batchGet 1 ∅ scope ["__proto__"; "__proto__"] !! "__proto__" = Some None.
Proof. split_and!; [by eexists | done | done | done]. Qed.

(* ================================================================== *)
(** * [batchPut] *)

Lemma sql_put_err now table scope k v options e table' :
  Sql.put now table scope k v options = (Err e, table') ->
  e = ifMatchError /\ table' = table /\ is_Some (ifMatchVersion options).
Proof.
  unfold Sql.put.
  destruct (put_precondition_fails _ _) eqn:Hp.
  - intros [= <- <-]. split_and!; try done.
    by destruct (ifMatchVersion options).
  - destruct (expiry_of_cases now (ttlSeconds options)) as [[expiry ->] | ->]; done.
Qed.

Lemma sql_put_throw now table scope k v options x table' :
  Sql.put now table scope k v options = (Throw x, table') ->
  x = invalidTime /\ table' = table
  /\ expiry_of now (ttlSeconds options) = Throw invalidTime.
Proof.
  unfold Sql.put.
  destruct (put_precondition_fails _ _) eqn:Hp; [done |].
  destruct (expiry_of_cases now (ttlSeconds options)) as [[expiry ->] | ->]; [done |].
  by intros [= <- <-].
Qed.

Lemma redis_put_err now store scope k v options e store' :
  Redis.put now store scope k v options = (Err e, store') ->
  e = ifMatchError /\ store' = store /\ is_Some (ifMatchVersion options).
Proof.
  unfold Redis.put, Redis.put_under, Redis.retries. simpl.
  destruct (put_precondition_fails _ _) eqn:Hp.
  - intros [= <- <-]. split_and!; try done.
    by destruct (ifMatchVersion options).
  - destruct (expiry_of_cases now (ttlSeconds options)) as [[expiry ->] | ->]; done.
Qed.

Lemma redis_put_throw now store scope k v options x store' :
  Redis.put now store scope k v options = (Throw x, store') ->
  x = invalidTime /\ store' = store
  /\ expiry_of now (ttlSeconds options) = Throw invalidTime.
Proof.
  unfold Redis.put, Redis.put_under, Redis.retries. simpl.
  destruct (put_precondition_fails _ _) eqn:Hp; [done |].
  destruct (expiry_of_cases now (ttlSeconds options)) as [[expiry ->] | ->]; [done |].
  by intros [= <- <-].
Qed.






(** X9 on three entries of which the second is refused: the first is
    written, the third is not. *)
Example batchPut_not_atomic :
  let scope := mkScope "default" "ns" "u1" in
  let out :=
    Sql.batchPut 0 ∅ scope
      [mkEntry "a" "1" None None; mkEntry "b" "2" None (Some 7);
       mkEntry "c" "3" None None] in
  out.1 = Err ifMatchError
  /\ is_Some (Sql.get 1 out.2 scope "a")
  /\ Sql.get 1 out.2 scope "c" = None.
Proof. split_and!; [done | by eexists | done]. Qed.

(* ================================================================== *)
(** * Pages of the SQL adapters *)

Section StrictlySorted.

Context {A : Type} (R : relation A).
Hypothesis R_irrefl : forall x, ~ R x x.
Hypothesis R_trans : forall x y z, R x y -> R y z -> R x z.

Lemma sorted_NoDup (l : list A) : StronglySorted R l -> NoDup l.
Proof.
  induction 1 as [| x l Hl IH Hx]; constructor; [| done].
  intros Hin. rewrite Forall_forall in Hx. by apply (R_irrefl x), Hx.
Qed.

Lemma sorted_ext (l1 l2 : list A) :
  StronglySorted R l1 -> StronglySorted R l2 ->
  (forall x, x ∈ l1 <-> x ∈ l2) -> l1 = l2.
Proof.
  intros H1 H2 Hin. apply (StronglySorted_unique_strong R); try done.
  - intros x1 x2 _ _ H12 H21. destruct (R_irrefl x1). by eapply R_trans.
  - apply NoDup_Permutation; [by apply sorted_NoDup | by apply sorted_NoDup | done].
Qed.

Lemma sorted_drop_elem (l : list A) (n : nat) (x y : A) :
  StronglySorted R l -> l !! n = Some x ->
  y ∈ drop (S n) l <-> y ∈ l /\ R x y.
Proof.
  intros Hs Hx.
  assert (x ∈ take (S n) l) as Hxin.
  { apply list_elem_of_lookup. exists n. rewrite lookup_take_lt by lia. done. }
  pose proof Hs as Hs'. rewrite <- (take_drop (S n) l) in Hs'.
  split.
  - intros Hy. split.
    + rewrite <- (take_drop (S n) l). apply elem_of_app. by right.
    + by apply (StronglySorted_app_1_elem_of R _ _ x y Hs').
  - intros [Hy Hxy]. rewrite <- (take_drop (S n) l) in Hy.
    apply elem_of_app in Hy as [Hy | Hy]; [| done]. exfalso.
    rewrite (take_S_r l n x Hx) in Hy. apply elem_of_app in Hy as [Hy | Hy].
    + pose proof Hs as Hs''. rewrite <- (take_drop n l) in Hs''.
      apply (R_irrefl x), (R_trans x y x); [done |].
      apply (StronglySorted_app_1_elem_of R _ _ y x Hs'' Hy).
      apply list_elem_of_lookup. exists 0%nat. by rewrite lookup_drop, Nat.add_0_r.
    + apply list_elem_of_singleton in Hy as ->. by apply (R_irrefl x).
Qed.

End StrictlySorted.

Lemma string_ltb_irrefl s : String.ltb s s <> true.
Proof. unfold String.ltb. by rewrite string_compare_refl. Qed.

Lemma string_ltb_trans a b c :
  String.ltb a b = true -> String.ltb b c = true -> String.ltb a c = true.
Proof.
  rewrite !string_ltb_le_ne. intros [Hab Hne] [Hbc Hne']. split.
  - by trans b.
  - intros ->. apply Hne. by apply (anti_symm String.le).
Qed.

Section SqlSelection.

Variable like : string -> string -> bool.

Implicit Types (table : gmap Sql.PK Sql.Cols) (row : Sql.Row).

(** The [WHERE] clause of [list], condition by condition. *)
Lemma sql_list_where_selected now scope options row :
  Sql.list_where like now scope (prefix options) (decodeCursor (cursor options)) row
  = Sql.pk_in_scope scope row.1 && Sql.notExpiredClause now row.2
    && key_selected like options (Sql.pk_key row.1).
Proof.
  unfold Sql.list_where, key_selected.
  by rewrite <- !andb_assoc.
Qed.

(** A row that [list] ranges over is the row that [get] reads for its
    key. *)
Lemma sql_matching_get now table scope options row :
  row ∈ Sql.list_matching like now table scope options
  <-> Sql.get now table scope (Sql.pk_key row.1) = Some (Sql.toStoredItem row)
      /\ Sql.getRow now table scope (Sql.pk_key row.1) true = Some row
      /\ key_selected like options (Sql.pk_key row.1) = true.
Proof.
  rewrite sql_list_matching_spec, sql_list_where_selected.
  unfold Sql.get, Sql.getRow. split.
  - intros [Hrow [[Hscope Hactive]%andb_true_iff Hsel]%andb_true_iff].
    apply pk_in_scope_pk_of in Hscope.
    rewrite <- Hscope, Hrow, Hactive. simpl. by destruct row.
  - intros (_ & Hget & Hsel).
    destruct (table !! Sql.pk_of scope (Sql.pk_key row.1)) as [c |] eqn:Hc; [| done].
    destruct (Sql.notExpiredClause now c) eqn:Hactive; [| done]. simpl in Hget.
    injection Hget as <-. simpl. rewrite Hc, Hactive, Hsel. split; [done |].
    unfold Sql.pk_in_scope. by rewrite bool_decide_eq_true_2.
Qed.

Lemma sql_get_row_item now table scope k item :
  Sql.get now table scope k = Some item ->
  exists row, Sql.getRow now table scope k true = Some row
    /\ item = Sql.toStoredItem row /\ Sql.pk_key row.1 = k.
Proof.
  unfold Sql.get. destruct (Sql.getRow now table scope k true) as [row |] eqn:Hrow; [| done].
  intros [= <-]. exists row. split_and!; try done.
  unfold Sql.getRow in Hrow.
  destruct (table !! Sql.pk_of scope k); [| done].
  destruct (_ && _); [done |]. by injection Hrow as <-.
Qed.

(** [list] reads its limit with the default [50]. *)
Lemma sql_list_default now table scope options :
  Sql.list like now table scope options
  = Sql.list like now table scope
      {| prefix := prefix options; cursor := cursor options;
         limit := Some (default 50 (limit options)) |}.
Proof. done. Qed.

Lemma sql_list_complete now table scope options k item :
  1 <= default 50 (limit options) ->
  nextCursor (Sql.list like now table scope options) = None ->
  Sql.get now table scope k = Some item ->
  key_selected like options k = true ->
  item ∈ items (Sql.list like now table scope options).
Proof.
  intros Hl Hnone (row & Hrow & -> & <-)%sql_get_row_item Hsel.
  assert (row ∈ Sql.list_matching like now table scope options) as Hin.
  { apply sql_matching_get. split_and!; try done. unfold Sql.get. by rewrite Hrow. }
  rewrite sql_list_default in Hnone |- *.
  set (options' := {| prefix := prefix options; cursor := cursor options;
                      limit := Some (default 50 (limit options)) |}) in *.
  destruct (sql_list_cursor like now table scope options' _ eq_refl Hl)
    as (Hitems & Hiff & _).
  change (Sql.list_matching like now table scope options')
    with (Sql.list_matching like now table scope options) in Hitems, Hiff.
  rewrite Hitems in Hiff |- *. apply list_elem_of_fmap. exists row. split; [done |].
  rewrite take_ge; [done |].
  destruct (decide (Z.to_nat (default 50%Z (limit options))
                    < length (Sql.list_matching like now table scope options))%nat)
    as [Hlt | Hge]; [| lia].
  exfalso. rewrite Hnone in Hiff. apply (is_Some_None (A := string)), Hiff.
  rewrite length_fmap, length_take. lia.
Qed.

End SqlSelection.

(** X10.  A page of the SQL adapters agrees with [get].  The page is in
    strictly ascending byte order of key and has at most [limit] items
    (by default [50]); every item of the page is, whole, what [get]
    returns for its key at that instant, and its key passes the prefix
    pattern and comes after the cursor; and when a page of a limit of
    at least [1] has no next cursor, every item that [get] returns for a
    key passing these conditions is on the page. *)
Theorem X10_sql_list_is_get :
  forall (like : string -> string -> bool) (now : Timestamp)
         (table : gmap Sql.PK Sql.Cols) (scope : StorageScope) (options : ListOptions),
    let r := Sql.list like now table scope options in
    let l := default 50 (limit options) in
    strictly_ascending (items r)
    /\ (0 <= l -> (length (items r) <= Z.to_nat l)%nat)
    /\ (forall item, item ∈ items r ->
          Sql.get now table scope (key item) = Some item
          /\ key_selected like options (key item) = true)
    /\ (1 <= l -> nextCursor r = None ->
        forall k item,
          Sql.get now table scope k = Some item ->
          key_selected like options k = true ->
          item ∈ items r).
Proof.
  intros like now table scope options r l. subst r l. split_and!.
  - apply sql_list_ascending.
  - intros Hl. destruct (sql_list_items like now table scope options) as (n & -> & Hn).
    rewrite length_fmap, length_take, (Hn Hl). lia.
  - intros item.
    destruct (sql_list_items like now table scope options) as (n & -> & _).
    intros (row & -> & Hrow%elem_of_take_in)%list_elem_of_fmap.
    apply sql_matching_get in Hrow as (Hget & _ & Hsel). by split.
  - intros Hl Hnone k item Hget Hsel. by apply (sql_list_complete like now table scope options k).
Qed.

Section SqlNextPage.

Variable like : string -> string -> bool.

Implicit Types (table : gmap Sql.PK Sql.Cols) (row : Sql.Row).

(** The rows after the cursor of a page are the rows after the page. *)
Lemma sql_matching_after_cursor now table scope p c l lim c' :
  1 <= l ->
  Sql.get now table scope "" = None ->
  nextCursor (Sql.list like now table scope {| prefix := p; cursor := c; limit := Some l |})
  = Some c' ->
  Sql.list_matching like now table scope {| prefix := p; cursor := Some c'; limit := lim |}
  = drop (Z.to_nat l)
      (Sql.list_matching like now table scope {| prefix := p; cursor := c; limit := Some l |}).
Proof.
  intros Hl Hempty Hnext.
  set (options := {| prefix := p; cursor := c; limit := Some l |}) in *.
  set (m0 := Sql.list_matching like now table scope options).
  destruct (sql_list_cursor like now table scope options l eq_refl Hl)
    as (Hitems & _ & Hcur).
  fold m0 in Hitems, Hcur. rewrite Hnext, Hitems in Hcur.
  rewrite length_fmap, length_take in Hcur.
  destruct (decide (Z.to_nat l `min` length m0 < length m0)%nat) as [Hlt | ?]; [| done].
  rewrite fmap_last in Hcur.
  assert (exists n, Z.to_nat l = S n) as [n Hn] by (exists (Z.to_nat (l - 1)); lia).
  rewrite Hn in *.
  destruct (lookup_lt_is_Some_2 m0 n) as [last_row Hlast]; [lia |].
  assert (last (take (S n) m0) = Some last_row) as Hl0.
  { rewrite last_lookup, length_take, Nat.min_l by lia. simpl.
    by rewrite lookup_take_lt by lia. }
  rewrite Hl0 in Hcur. set (kl := Sql.pk_key last_row.1).
  assert (c' = encodeCursor kl) as Hc' by (simpl in Hcur; by injection Hcur).
  clear Hcur Hnext. subst c'.
  assert (last_row ∈ m0) as Hin by (by eapply list_elem_of_lookup_2).
  assert (kl <> "") as Hkl.
  { intros Hk. apply sql_matching_get in Hin as (Hget & _). fold kl in Hget.
    by rewrite Hk, Hempty in Hget. }
  pose proof (sql_list_matching_sorted like now table scope options) as Hs0.
  fold m0 in Hs0.
  apply (sorted_ext row_key_lt).
  - intros x. apply string_ltb_irrefl.
  - intros x y z. apply string_ltb_trans.
  - apply sql_list_matching_sorted.
  - rewrite <- (take_drop (S n) m0) in Hs0. by apply StronglySorted_app_1_r in Hs0.
  - intros row.
    rewrite (sorted_drop_elem row_key_lt) with (x := last_row);
      [| intros x; apply string_ltb_irrefl | intros x y z; apply string_ltb_trans
       | done | done].
    unfold m0. rewrite !sql_list_matching_spec. cbn [prefix cursor options].
    rewrite (decodeCursor_encodeCursor kl Hkl).
    apply sql_list_matching_spec in Hin as [_ Hw0]. cbn [prefix cursor options] in Hw0.
    unfold Sql.list_where in *. rewrite (truthy_nonempty kl Hkl).
    unfold row_key_lt. fold kl.
    destruct (Js.truthy (decodeCursor c)) as [c0 |].
    + apply andb_true_iff in Hw0 as [_ Hc0].
      rewrite !andb_true_iff. split.
      * intros (Htable & [[Hscope Hactive] Hprefix] & Hafter). split_and!; try done.
        by apply (string_ltb_trans c0 kl).
      * intros ((Htable & [[[Hscope Hactive] Hprefix] _]) & Hafter). by split_and!.
    + rewrite !andb_true_iff. split.
      * intros (Htable & [[Hscope Hactive] Hprefix] & Hafter). by split_and!.
      * intros ((Htable & [[[Hscope Hactive] Hprefix] _]) & Hafter). by split_and!.
Qed.

End SqlNextPage.

(** X11.  Pages of the SQL adapters follow one another.  On a table
    without an active item under the empty key, a page of a limit
    [l >= 1] is the first [l] items of the selection (the active items
    of the scope that pass the prefix and the cursor, in key order); a
    page without next cursor is all of it; and the selection after the
    next cursor of a page is the selection after the page, so that the
    next page, read at the same instant on the same table, continues
    where the page ended: nothing is skipped and nothing comes twice. *)
Theorem X11_sql_pagination :
  forall (like : string -> string -> bool) (now : Timestamp)
         (table : gmap Sql.PK Sql.Cols) (scope : StorageScope)
         (p c : option string) (l l' : Z),
    1 <= l -> 0 <= l' ->
    Sql.get now table scope "" = None ->
    let all := sql_selection like now table scope p c in
    let page :=
      Sql.list like now table scope {| prefix := p; cursor := c; limit := Some l |} in
    items page = take (Z.to_nat l) all
    /\ (nextCursor page = None -> items page = all)
    /\ (forall c', nextCursor page = Some c' ->
          sql_selection like now table scope p (Some c') = drop (Z.to_nat l) all
          /\ items (Sql.list like now table scope
                      {| prefix := p; cursor := Some c'; limit := Some l' |})
             = take (Z.to_nat l') (drop (Z.to_nat l) all)).
Proof.
  intros like now table scope p c l l' Hl Hl' Hempty all page. subst all page.
  unfold sql_selection.
  set (options := {| prefix := p; cursor := c; limit := Some l |}).
  change (Sql.list_matching like now table scope
            {| prefix := p; cursor := c; limit := None |})
    with (Sql.list_matching like now table scope options).
  destruct (sql_list_cursor like now table scope options l eq_refl Hl)
    as (Hitems & Hiff & _).
  split_and!.
  - by rewrite Hitems, fmap_take.
  - intros Hnone. rewrite Hitems. f_equal. apply take_ge.
    destruct (decide (Z.to_nat l
                      < length (Sql.list_matching like now table scope options))%nat)
      as [Hlt | Hge]; [| lia].
    exfalso. rewrite Hnone in Hiff. apply (is_Some_None (A := string)), Hiff.
    rewrite Hitems, length_fmap, length_take. lia.
  - intros c' Hnext.
    pose proof (sql_matching_after_cursor like now table scope p c l) as Hafter.
    split.
    + by rewrite (Hafter None c' Hl Hempty Hnext), fmap_drop.
    + destruct (sql_list_items like now table scope
                  {| prefix := p; cursor := Some c'; limit := Some l' |})
        as (n & -> & Hn).
      rewrite (Hn Hl'). simpl.
      by rewrite (Hafter (Some l') c' Hl Hempty Hnext), fmap_take, fmap_drop.
Qed.

(** X11 on four keys read two by two. *)
Lemma X11_sql_pagination_witness :
  let scope := mkScope "default" "ns" "u1" in
  let table :=
    (Sql.batchPut 0 ∅ scope
       [mkEntry "d" "4" None None; mkEntry "b" "2" None None;
        mkEntry "a" "1" None None; mkEntry "c" "3" None None]).2 in
  let page := Sql.list Sql.sqlite_like 1 table scope (mkListOptions None None (Some 2)) in
  key <$> items page = ["a"; "b"]
  /\ key <$> items (Sql.list Sql.sqlite_like 1 table scope
                      (mkListOptions None (nextCursor page) (Some 2)))
     = ["c"; "d"].
Proof.
  intros scope table page.
  assert (1 <= 2) as Hl by lia. assert (0 <= 2) as Hl' by lia.
  assert (Sql.get 1 table scope "" = None) as Hempty by (vm_compute; reflexivity).
  destruct (X11_sql_pagination Sql.sqlite_like 1 table scope None None 2 2 Hl Hl' Hempty)
    as (Hpage & _ & Hnext).
  assert (nextCursor page = Some (encodeCursor "b")) as Hc by (vm_compute; reflexivity).
  destruct (Hnext _ Hc) as [_ Hpage2]. split.
  - unfold page. rewrite Hpage. vm_compute. reflexivity.
  - rewrite Hc, Hpage2. vm_compute. reflexivity.
Defined.

(* ================================================================== *)
(** * The key-value adapter under concurrent writers *)

(** X12.  The retry budget of [put].  A [put] without [ifMatchVersion]
    whose expiry is a valid date and that other clients interrupt fewer
    than five times succeeds, and does what it would have done running
    alone on the store the last interruption left: it re-reads the record
    on every attempt.  Interrupted five times it gives up: it raises the
    precondition failure of a concurrent write and leaves the store as
    the other clients wrote it.  When the expiry is no valid date it
    throws a [RangeError] at its first attempt and writes nothing. *)
Theorem X12_redis_put_retries :
  forall (others : Redis.Schedule) (now : Timestamp)
         (store : gmap string Redis.RedisEnvelope) (scope : StorageScope)
         (k : string) (v : JsonValue) (ttl : option Z),
    let options := {| ttlSeconds := ttl; ifMatchVersion := None |} in
    let os := interrupted others in
    let left := after_others (Redis.toRedisKey scope k) (take 5 os) store in
    match expiry_of now ttl with
    | Ok expiry =>
        Redis.put_under others now store scope k v options
        = (if decide (length os < 5)%nat
           then Redis.put now left scope k v options
           else (Err concurrentWriteError, left))
        /\ isOk (Redis.put now left scope k v options).1 = true
        /\ version <$> (Redis.get now (Redis.put now left scope k v options).2 scope k).1
           = (if isExpired expiry now then None
              else Some (version_after (Redis.get now left scope k).1))
    | _ =>
        Redis.put_under others now store scope k v options = (Throw invalidTime, store)
    end.
Proof.
  intros others now store scope k v ttl options os left. subst options.
  destruct (expiry_of_cases now ttl) as [[expiry Hexpiry] | Hexpiry]; rewrite Hexpiry;
    [| by apply redis_put_invalid_time].
  destruct (redis_put_accepted now left scope k v
              {| ttlSeconds := ttl; ifMatchVersion := None |} expiry eq_refl Hexpiry)
    as (item & store' & Hput & Hver & _).
  split_and!.
  - unfold Redis.put_under, Redis.retries.
    rewrite (redis_put_attempts_unconditional _ _ _ _ _ _ _ _ expiry Hexpiry).
    fold os. subst left.
    destruct (decide (length os < 5)%nat) as [Hlt | Hge]; [| done].
    rewrite take_ge by lia.
    unfold Redis.put, Redis.put_under, Redis.retries. by simpl.
  - by rewrite Hput.
  - rewrite Hput. simpl. rewrite redis_get_state.
    rewrite (redis_state_after_put _ now _ _ _ _ _ _ _ Hput).
    rewrite <- (expiry_of_instant now {| ttlSeconds := ttl; ifMatchVersion := None |}
                  expiry Hexpiry).
    destruct (isExpired expiry now); [done |]. simpl.
    by rewrite Hver, redis_next_version_get.
Qed.

(** X12 on a [put] interrupted twice, by a write and by a removal of
    another client: it succeeds at the third attempt, with version [1]. *)
Example redis_put_third_attempt :
  let scope := mkScope "default" "ns" "u1" in
  let other := Redis.mkEnvelope "9" 4 0 0 None in
  let out :=
    Redis.put_under [Some (Redis.OtherSet other); Some Redis.OtherDel] 5 ∅ scope "k" "1"
      (mkPutOptions (Some 60) None) in
  version <$> (Redis.get 6 out.2 scope "k").1 = Some 1.
Proof. done. Qed.

(** [get], [batchGet] and the outcome of [put] look at the active record
    of their key only. *)
Lemma redis_get_active now store scope k :
  (Redis.get now store scope k).1
  = Redis.toStoredItem k <$> redis_active now store (Redis.toRedisKey scope k).
Proof.
  unfold Redis.get, redis_active.
  destruct (store !! Redis.toRedisKey scope k) as [e |]; [| done].
  by destruct (isExpired (Redis.env_expiresAt e) now).
Qed.

Lemma redis_put_active now store store' scope k v options :
  redis_active now store' (Redis.toRedisKey scope k)
  = redis_active now store (Redis.toRedisKey scope k) ->
  (Redis.put now store' scope k v options).1 = (Redis.put now store scope k v options).1.
Proof.
  unfold Redis.put, Redis.put_under, Redis.retries, redis_active. simpl.
  intros Hactive.
  assert (match store' !! Redis.toRedisKey scope k with
          | Some e => if negb (isExpired (Redis.env_expiresAt e) now) then Some e else None
          | None => None
          end
          = match store !! Redis.toRedisKey scope k with
            | Some e => if negb (isExpired (Redis.env_expiresAt e) now) then Some e else None
            | None => None
            end) as ->.
  { destruct (store' !! Redis.toRedisKey scope k) as [e' |],
      (store !! Redis.toRedisKey scope k) as [e |]; simpl;
      try destruct (isExpired (Redis.env_expiresAt e') now);
      try destruct (isExpired (Redis.env_expiresAt e) now);
      simpl in *; congruence. }
  destruct (put_precondition_fails _ _); [done |].
  by destruct (expiry_of now (ttlSeconds options)).
Qed.

Lemma redis_batchGet_ext now store store' scope keys :
  (forall k, (Redis.get now store' scope k).1 = (Redis.get now store scope k).1) ->
  Redis.batchGet now store' scope keys = Redis.batchGet now store scope keys.
Proof.
  intros Hget. rewrite !redis_batchGet_assign.
  generalize (@Js.emptyDict (option StoredItem)).
  induction keys as [| x keys IH]; intros acc; simpl; [done |].
  by rewrite Hget, IH.
Qed.

Section TextOrder.

Lemma text_leb_spec a b :
  Date.text_leb a b = true
  <-> (Date.textKey a).1.1 < (Date.textKey b).1.1
      \/ (Date.textKey a).1.1 = (Date.textKey b).1.1
         /\ ((Date.textKey a).1.2 < (Date.textKey b).1.2
             \/ (Date.textKey a).1.2 = (Date.textKey b).1.2
                /\ (Date.textKey a).2 <= (Date.textKey b).2).
Proof.
  unfold Date.text_leb, Date.text_compare.
  destruct (Date.textKey a) as [[ra ya] ta], (Date.textKey b) as [[rb yb] tb]. simpl.
  destruct (Z.compare_spec ra rb), (Z.compare_spec ya yb), (Z.compare_spec ta tb);
    split; (done || lia).
Qed.

Lemma text_leb_trans a b c :
  Date.text_leb a b = true -> Date.text_leb b c = true -> Date.text_leb a c = true.
Proof. rewrite !text_leb_spec. lia. Qed.

End TextOrder.

(** With a clock in the years 0 to 9999, what has expired stays
    expired. *)
Lemma isExpired_mono e now later :
  four_digit_year now = true -> four_digit_year later = true ->
  now <= later -> isExpired e now = true -> isExpired e later = true.
Proof.
  intros Hn Hl Hle. destruct e as [t |]; simpl; [| done].
  intros Hx. apply (text_leb_trans t now later); [done |].
  rewrite text_leb_four_digit by done. lia.
Qed.

(** The store after a [get]: the record read is gone if it had expired. *)
Lemma redis_get_store now store scope k :
  (Redis.get now store scope k).2
  = match store !! Redis.toRedisKey scope k with
    | Some e =>
        if isExpired (Redis.env_expiresAt e) now
        then base.delete (Redis.toRedisKey scope k) store else store
    | None => store
    end.
Proof.
  unfold Redis.get.
  destruct (store !! Redis.toRedisKey scope k) as [e |]; [| done].
  by destruct (isExpired (Redis.env_expiresAt e) now).
Qed.

Lemma redis_active_after_get now later store scope k rk :
  four_digit_year now = true -> four_digit_year later = true ->
  now <= later ->
  redis_active later (Redis.get now store scope k).2 rk = redis_active later store rk.
Proof.
  intros Hn Hl Hle. rewrite redis_get_store. unfold redis_active.
  destruct (store !! Redis.toRedisKey scope k) as [e |] eqn:He; [| done].
  destruct (isExpired (Redis.env_expiresAt e) now) eqn:Hx; [| done].
  destruct (decide (rk = Redis.toRedisKey scope k)) as [-> | Hne].
  - by rewrite lookup_delete_eq, He, (isExpired_mono _ _ _ Hn Hl Hle Hx).
  - by rewrite lookup_delete_ne.
Qed.

(** X13.  The removal of an expired record by [get] cannot be observed
    by [get], [batchGet] and [put], nor by a [delete] without
    [ifMatchVersion]; a [delete] with [ifMatchVersion] does observe it.
    With a clock of the years 0 to 9999 that does not go back, a [get]
    leaves a store on which every later [get] and [batchGet], of any
    scope and key, returns what it would have returned without it, and
    every later [put] and every later [delete] without [ifMatchVersion]
    has the same outcome; and the [get] itself, repeated at once,
    returns the same and changes nothing more.  But when the [get] has
    removed an expired record, a later [delete] of that key with an
    [ifMatchVersion] returns [false], where it raises the precondition
    failure as long as the expired record is there. *)
Theorem X13_redis_lazy_removal :
  forall (now later : Timestamp) (store : gmap string Redis.RedisEnvelope)
         (scope scope' : StorageScope) (k k' : string) (keys : list string)
         (v : JsonValue) (options : PutOptions) (version : Z),
    four_digit_year now = true -> four_digit_year later = true ->
    now <= later ->
    let store' := (Redis.get now store scope k).2 in
    Redis.get now store' scope k = ((Redis.get now store scope k).1, store')
    /\ (Redis.get later store' scope' k').1 = (Redis.get later store scope' k').1
    /\ Redis.batchGet later store' scope' keys = Redis.batchGet later store scope' keys
    /\ (Redis.put later store' scope' k' v options).1
       = (Redis.put later store scope' k' v options).1
    /\ (Redis.delete later store' scope' k' (mkDeleteOptions None)).1
       = (Redis.delete later store scope' k' (mkDeleteOptions None)).1
    /\ (redis_state now store scope k = Expired ->
        Redis.delete later store scope k (mkDeleteOptions (Some version))
        = (Err ifMatchError, store)
        /\ Redis.delete later store' scope k (mkDeleteOptions (Some version))
           = (Ok false, store')).
Proof.
  intros now later store scope scope' k k' keys v options version Hn Hl Hle store'.
  subst store'.
  split_and!.
  - apply injective_projections; simpl.
    + rewrite !redis_get_active.
      by rewrite (redis_active_after_get now now) by (done || lia).
    + rewrite (redis_get_store now (Redis.get now store scope k).2), redis_get_store.
      destruct (store !! Redis.toRedisKey scope k) as [e |] eqn:He; [| by rewrite He].
      destruct (isExpired (Redis.env_expiresAt e) now) eqn:Hx.
      * by rewrite lookup_delete_eq.
      * by rewrite He, Hx.
  - rewrite !redis_get_active. by rewrite redis_active_after_get.
  - apply redis_batchGet_ext. intros k0.
    rewrite !redis_get_active. by rewrite redis_active_after_get.
  - apply redis_put_active. by apply redis_active_after_get.
  - pose proof (redis_active_after_get now later store scope k
                  (Redis.toRedisKey scope' k') Hn Hl Hle) as Hactive.
    unfold Redis.delete, Redis.delete_under, Redis.retries, redis_active in *. simpl.
    destruct ((Redis.get now store scope k).2 !! Redis.toRedisKey scope' k') as [e' |],
      (store !! Redis.toRedisKey scope' k') as [e |]; simpl;
      try destruct (isExpired (Redis.env_expiresAt e') later);
      try destruct (isExpired (Redis.env_expiresAt e) later);
      simpl in *; congruence.
  - intros Hstate. unfold redis_state, state_of in Hstate.
    rewrite redis_get_store.
    unfold Redis.delete, Redis.delete_under, Redis.retries. simpl.
    destruct (store !! Redis.toRedisKey scope k) as [e |] eqn:He; simpl in Hstate;
      [| done].
    destruct (isExpired (Redis.env_expiresAt e) now) eqn:Hx; [| done].
    rewrite lookup_delete_eq. simpl.
    by rewrite (isExpired_mono _ _ _ Hn Hl Hle Hx).
Qed.

(** X13 on a record with a time to live of one second, read after it
    has expired. *)
Lemma X13_redis_lazy_removal_witness :
  let scope := mkScope "default" "ns" "u1" in
  let store := (Redis.put 0 ∅ scope "k" "1" (mkPutOptions (Some 1) None)).2 in
  let store' := (Redis.get 2000 store scope "k").2 in
  store' = ∅
  /\ (Redis.put 3000 store' scope "k" "2" (mkPutOptions None None)).1
     = (Redis.put 3000 store scope "k" "2" (mkPutOptions None None)).1
  /\ (Redis.delete 3000 store scope "k" (mkDeleteOptions (Some 1))).1 = Err ifMatchError
  /\ (Redis.delete 3000 store' scope "k" (mkDeleteOptions (Some 1))).1 = Ok false.
Proof.
  intros scope store store'.
  assert (2000 <= 3000) as Hle by lia.
  destruct (X13_redis_lazy_removal 2000 3000 store scope scope "k" "k" []
              "2" (mkPutOptions None None) 1 eq_refl eq_refl Hle)
    as (_ & _ & _ & Hput & _ & Hdel).
  destruct Hdel as [Hthere Hgone]; [vm_compute; reflexivity |].
  split_and!;
    [vm_compute; reflexivity | exact Hput | exact (f_equal fst Hthere)
     | exact (f_equal fst Hgone)].
Defined.

(* ================================================================== *)
(** * Composed keys *)

Lemma no_colon_split (a a' r r' : string) :
  no_colon a = true -> no_colon a' = true ->
  a +:+ String ":" r = a' +:+ String ":" r' -> a = a' /\ r = r'.
Proof.
  revert a'. induction a as [| c a IH]; intros [| c' a']; simpl.
  - by intros _ _ [= ->].
  - intros _ [Hc _]%andb_true_iff [= <- _].
    by rewrite bool_decide_eq_true_2 in Hc.
  - intros [Hc _]%andb_true_iff _ [= -> _].
    by rewrite bool_decide_eq_true_2 in Hc.
  - intros [_ Ha]%andb_true_iff [_ Ha']%andb_true_iff [= -> Heq].
    by destruct (IH a' Ha Ha' Heq) as [-> ->].
Qed.

Lemma string_app_assoc (a b c : string) : (a +:+ b) +:+ c = a +:+ (b +:+ c).
Proof. induction a as [| x a IH]; simpl; [done | by rewrite IH]. Qed.

Lemma toRedisKey_parts scope k :
  Redis.toRedisKey scope k
  = String "t" (String ":"
      (tenantId scope +:+ String ":" (String "n" (String ":"
         (namespace scope +:+ String ":" (String "u" (String ":"
            (userId scope +:+ String ":" (String "k" (String ":" k))))))))))%char.
Proof.
  unfold Redis.toRedisKey, Redis.toScopePrefix. simpl.
  by repeat (rewrite string_app_assoc; simpl).
Qed.

(** On scopes without colons the composed key determines the scope and
    the key. *)
Lemma toRedisKey_inj scope scope' k k' :
  plain_scope scope = true -> plain_scope scope' = true ->
  Redis.toRedisKey scope k = Redis.toRedisKey scope' k' ->
  scope = scope' /\ k = k'.
Proof.
  rewrite !toRedisKey_parts.
  destruct scope as [t n u], scope' as [t' n' u'].
  unfold plain_scope. simpl.
  intros [[Ht Hn]%andb_true_iff Hu]%andb_true_iff
         [[Ht' Hn']%andb_true_iff Hu']%andb_true_iff [= Heq].
  apply no_colon_split in Heq as [-> [= Heq]]; [| done | done].
  apply no_colon_split in Heq as [-> [= Heq]]; [| done | done].
  apply no_colon_split in Heq as [-> [= Heq]]; [| done | done].
  by subst.
Qed.

Lemma redis_batchPut_loop_lookup now store scope entries acc rk :
  (forall k, rk <> Redis.toRedisKey scope k) ->
  (Redis.batchPut_loop now store scope entries acc).2 !! rk = store !! rk.
Proof.
  intros Hrk. revert store acc.
  induction entries as [| entry rest IH]; intros store acc; simpl; [done |].
  destruct (Redis.put now store scope (entry_key entry) (entry_value entry) _)
    as [[item | e | x] store'] eqn:Hput.
  - rewrite IH.
    assert (store' = (Redis.put now store scope (entry_key entry) (entry_value entry)
                        (entry_options entry)).2) as ->
      by (unfold entry_options; by rewrite Hput).
    by apply redis_put_attempts_lookup_ne.
  - simpl. apply redis_put_err in Hput as (_ & -> & _). done.
  - simpl. apply redis_put_throw in Hput as (_ & -> & _). done.
Qed.

(** X14.  Scopes without colons are kept apart by the key-value adapter.
    When no component of two different scopes contains a colon, no key
    of one composes to the same record key as a key of the other, and a
    [put], [delete] or [batchPut] in one scope leaves what [get] and
    [batchGet] return in the other as it was. *)
Theorem X14_redis_plain_scopes :
  forall (now later : Timestamp) (store : gmap string Redis.RedisEnvelope)
         (scopeA scopeB : StorageScope) (k k' : string) (keys : list string)
         (v : JsonValue) (options : PutOptions) (dopts : DeleteOptions)
         (entries : list BatchPutEntry) (others : Redis.Schedule),
    plain_scope scopeA = true -> plain_scope scopeB = true ->
    scopeA <> scopeB ->
    Redis.toRedisKey scopeA k <> Redis.toRedisKey scopeB k'
    /\ (forall store',
          store' = (Redis.put_under others now store scopeA k v options).2
          \/ store' = (Redis.delete_under others now store scopeA k dopts).2
          \/ store' = (Redis.batchPut now store scopeA entries).2 ->
          (Redis.get later store' scopeB k').1 = (Redis.get later store scopeB k').1
          /\ Redis.batchGet later store' scopeB keys
             = Redis.batchGet later store scopeB keys).
Proof.
  intros now later store scopeA scopeB k k' keys v options dopts entries others
    HA HB Hne.
  assert (forall k1 k2, Redis.toRedisKey scopeB k2 <> Redis.toRedisKey scopeA k1) as Hkeys.
  { intros k1 k2 Heq. by destruct (toRedisKey_inj _ _ _ _ HB HA Heq). }
  split; [by intros Heq; apply (Hkeys k k') |].
  intros store' Hstore'.
  assert (forall k2, store' !! Redis.toRedisKey scopeB k2
                     = store !! Redis.toRedisKey scopeB k2) as Hsame.
  { intros k2. destruct Hstore' as [-> | [-> | ->]].
    - by apply redis_put_attempts_lookup_ne.
    - by apply redis_delete_attempts_lookup_ne.
    - apply redis_batchPut_loop_lookup. intros k1. apply Hkeys. }
  split.
  - by apply redis_get_ext.
  - apply redis_batchGet_ext. intros k2. by apply redis_get_ext.
Qed.

(** X14 on two tenants: a write for one is not read by the other. *)
Lemma X14_redis_plain_scopes_witness :
  let scopeA := mkScope "t1" "ns" "u" in
  let scopeB := mkScope "t2" "ns" "u" in
  (Redis.get 1 (Redis.put 0 ∅ scopeA "k" "1" (mkPutOptions None None)).2 scopeB "k").1
  = None.
Proof.
  intros scopeA scopeB.
  assert (plain_scope scopeA = true) as HA by reflexivity.
  assert (plain_scope scopeB = true) as HB by reflexivity.
  assert (scopeA <> scopeB) as Hne by discriminate.
  destruct (X14_redis_plain_scopes 0 1 ∅ scopeA scopeB "k" "k" [] "1"
              (mkPutOptions None None) (mkDeleteOptions None) [] [] HA HB Hne)
    as [_ Hreads].
  destruct (Hreads (Redis.put 0 ∅ scopeA "k" "1" (mkPutOptions None None)).2) as [Hget _].
  - by left.
  - rewrite Hget. reflexivity.
Defined.

(* ================================================================== *)
(** * Reading a key back from a composed key *)

Lemma string_length_app (a b : string) :
  String.length (a +:+ b) = (String.length a + String.length b)%nat.
Proof. induction a as [| c a IH]; simpl; [done | by rewrite IH]. Qed.

Lemma substring_length (s : string) (n m : nat) :
  String.length (String.substring n m s) = (m `min` (String.length s - n))%nat.
Proof.
  revert n m. induction s as [| c s IH]; intros [| n] [| m]; simpl;
    rewrite ?IH, ?Nat.sub_0_r; try done; lia.
Qed.

Lemma substring_empty (s : string) (n : nat) : String.substring n 0 s = "".
Proof. revert n. induction s as [| c s IH]; intros [| n]; simpl; done. Qed.

Lemma substring_all (s : string) : String.substring 0 (String.length s) s = s.
Proof. induction s as [| c s IH]; simpl; [done | by rewrite IH]. Qed.

Lemma substring_app_l (a b : string) (n m : nat) :
  (n + m <= String.length a)%nat ->
  String.substring n m (a +:+ b) = String.substring n m a.
Proof.
  revert n m. induction a as [| c a IH]; intros [| n] [| m] H; simpl in *; try lia.
  - by destruct b.
  - by destruct b.
  - by rewrite IH by lia.
  - by rewrite IH by lia.
  - by rewrite IH by lia.
Qed.

Lemma substring_app_r (a b : string) :
  String.substring (String.length a) (String.length b) (a +:+ b) = b.
Proof. induction a as [| c a IH]; simpl; [apply substring_all | done]. Qed.

Lemma substring_tail_app (a b : string) (n : nat) :
  (n <= String.length a)%nat ->
  String.substring n (String.length (a +:+ b) - n) (a +:+ b)
  = String.substring n (String.length a - n) a +:+ b.
Proof.
  revert n. induction a as [| c a IH]; intros [| n]; simpl; try lia; intros H.
  - by rewrite Nat.sub_0_r, substring_all.
  - by rewrite !substring_all.
  - apply IH. lia.
Qed.

Lemma substring_occurrence (s p : string) (i : nat) :
  p <> "" -> String.substring i (String.length p) s = p ->
  (i + String.length p <= String.length s)%nat.
Proof.
  intros Hp Hsub. apply (f_equal String.length) in Hsub.
  rewrite substring_length in Hsub.
  destruct p as [| c p]; [done |].
  change (String.length (String c p)) with (S (String.length p)) in *. lia.
Qed.

(** The first occurrence of a marker in a string is its first occurrence
    in every extension of the string. *)
Lemma index_app (p a b : string) (i : nat) :
  p <> "" -> String.index 0 p a = Some i -> String.index 0 p (a +:+ b) = Some i.
Proof.
  intros Hp Hi.
  pose proof (String.index_correct1 _ _ _ _ Hi) as Hsub.
  pose proof (substring_occurrence _ _ _ Hp Hsub) as Hlen.
  destruct (String.index 0 p (a +:+ b)) as [j |] eqn:Hj.
  - f_equal. destruct (Nat.lt_trichotomy j i) as [Hlt | [-> | Hgt]]; [| done |]; exfalso.
    + apply (String.index_correct2 _ _ _ _ Hi j); [lia | done |].
      rewrite <- (substring_app_l a b) by lia.
      by apply (String.index_correct1 0).
    + apply (String.index_correct2 _ _ _ _ Hj i); [lia | done |].
      by rewrite substring_app_l.
  - exfalso. apply (String.index_correct3 _ i _ _ Hj Hp); [lia |].
    by rewrite substring_app_l.
Qed.

(** The marker occurs in every scope prefix: at its end, if not
    before. *)
Lemma toScopePrefix_marker scope :
  exists i, String.index 0 ":k:" (Redis.toScopePrefix scope) = Some i
            /\ (i + 3 <= String.length (Redis.toScopePrefix scope))%nat.
Proof.
  set (P := Redis.toScopePrefix scope).
  assert (exists P0, P = P0 +:+ ":k:") as [P0 HP].
  { exists ("t:" +:+ tenantId scope +:+ ":n:" +:+ namespace scope
              +:+ ":u:" +:+ userId scope).
    unfold P, Redis.toScopePrefix. simpl.
    by repeat (rewrite string_app_assoc; simpl). }
  destruct (String.index 0 ":k:" P) as [i |] eqn:Hi.
  - exists i. split; [done |].
    apply (substring_occurrence P ":k:" i); [done |].
    by apply (String.index_correct1 0).
  - exfalso. apply (String.index_correct3 _ (String.length P0) _ _ Hi); [done | lia |].
    rewrite HP. apply (substring_app_r P0 ":k:").
Qed.

(** X15.  Reading the key back from a record key.  [fromRedisKey]
    returns what follows the first [:k:] of the record key, which is the
    key given to [toRedisKey] exactly when the scope prefix has no [:k:]
    before the one that ends it; for any other scope (a tenant, a
    namespace or a user named [k], for one) it returns, for every key,
    the key behind a non-empty rest of the prefix. *)
Theorem X15_redis_key_read_back :
  forall scope : StorageScope,
    exists rest : string,
      (forall k, Redis.fromRedisKey (Redis.toRedisKey scope k) = Some (rest +:+ k))
      /\ (rest = ""
          <-> String.index 0 ":k:" (Redis.toScopePrefix scope)
              = Some (String.length (Redis.toScopePrefix scope) - 3)%nat).
Proof.
  intros scope. destruct (toScopePrefix_marker scope) as (i & Hi & Hlen).
  set (P := Redis.toScopePrefix scope) in *.
  exists (String.substring (i + 3) (String.length P - (i + 3)) P). split.
  - intros k. unfold Redis.fromRedisKey, Redis.toRedisKey. fold P.
    rewrite (index_app ":k:" P k i) by done.
    by rewrite substring_tail_app.
  - rewrite Hi. split.
    + intros Hrest. apply (f_equal String.length) in Hrest.
      rewrite substring_length in Hrest.
      change (String.length "") with 0%nat in Hrest. f_equal. lia.
    + intros Heq. apply (inj Some) in Heq.
      replace (i + 3)%nat with (String.length P) by lia.
      rewrite Nat.sub_diag. apply substring_empty.
Qed.

(** A tenant named [k]: [list] reports the key [a] as [n:ns:u:u1:k:a]. *)
Example redis_list_tenant_k :
  let scope := mkScope "k" "ns" "u1" in
  let store := (Redis.put 0 ∅ scope "a" "1" (mkPutOptions None None)).2 in
  Redis.fromRedisKey (Redis.toRedisKey scope "a") = Some "n:ns:u:u1:k:a"
  /\ key <$> items (Redis.list Collation.localeCompare 1 store scope
                      (mkListOptions None None None))
     = ["n:ns:u:u1:k:a"].
Proof. split; vm_compute; reflexivity. Qed.

(* ================================================================== *)
(** * Well-formed records *)

Lemma item_wf_mono now now' item : now <= now' -> item_wf now item -> item_wf now' item.
Proof. unfold item_wf. intros ? (? & ? & ? & ?). split_and!; (done || lia). Qed.

Lemma normalizeIfMatch_etag_positive n :
  1 <= n -> normalizeIfMatch (Some (etagFromVersion n)) = Some n.
Proof.
  intros Hn. rewrite normalizeIfMatch_unquoted, unquoted_etag, parseInt_string_of_Z.
  destruct (Z.leb_spec n 0); [lia | done].
Qed.

Lemma item_wf_etag now item :
  item_wf now item -> normalizeIfMatch (Some (etag item)) = Some (version item).
Proof. intros (Hv & -> & _). by apply normalizeIfMatch_etag_positive. Qed.

Lemma sql_getRow_lookup now table scope k active row :
  Sql.getRow now table scope k active = Some row ->
  row.1 = Sql.pk_of scope k /\ table !! Sql.pk_of scope k = Some row.2.
Proof.
  unfold Sql.getRow. destruct (table !! Sql.pk_of scope k) as [c |]; [| done].
  destruct (_ && _); [done |]. by intros [= <-].
Qed.

Lemma sql_get_wf now table scope k item :
  sql_wf now table -> Sql.get now table scope k = Some item -> item_wf now item.
Proof.
  intros Hwf (row & [Hpk Hrow]%sql_getRow_lookup & -> & _)%sql_get_row_item.
  destruct row as [pk c]. simpl in *. subst pk. by apply Hwf.
Qed.

Lemma sql_put_wf now table scope k v options :
  sql_wf now table ->
  sql_wf now (Sql.put now table scope k v options).2
  /\ (forall item, (Sql.put now table scope k v options).1 = Ok item -> item_wf now item).
Proof.
  intros Hwf.
  destruct (Sql.put now table scope k v options) as [[item | e | x] table'] eqn:Hput;
    simpl; [| | apply sql_put_throw in Hput as (_ & -> & _); by split].
  - pose proof (sql_put_result _ _ _ _ _ _ _ _ Hput)
      as (_ & _ & He & Hu & _ & Hc & Hrow & Hframe).
    pose proof (sql_put_ok _ _ _ _ _ _ _ _ Hput) as [Hver _].
    rewrite sql_next_version_get in Hver.
    assert (item_wf now item) as Hitem.
    { unfold item_wf. rewrite Hver, Hc, Hu, He, Hver.
      destruct (Sql.get now table scope k) as [current |] eqn:Hget; simpl.
      - destruct (sql_get_wf _ _ _ _ _ Hwf Hget) as (? & _ & ? & ?).
        split_and!; (done || lia).
      - split_and!; (done || lia). }
    split; [| by intros ? [= <-]].
    intros pk c. destruct (decide (pk = Sql.pk_of scope k)) as [-> | Hne].
    + rewrite Hrow. intros [= <-]. destruct Hitem as (Hv & _ & _ & _).
      unfold item_wf, Sql.toStoredItem. simpl. split_and!; [done | done | | lia].
      destruct (table !! Sql.pk_of scope k) as [old |] eqn:Hold; [| lia].
      destruct (Hwf _ _ Hold) as (_ & _ & ? & ?). simpl in *. lia.
    + rewrite Hframe by done. apply Hwf.
  - apply sql_put_err in Hput as (_ & -> & _). by split.
Qed.

Lemma sql_delete_wf now table scope k options :
  sql_wf now table -> sql_wf now (Sql.delete now table scope k options).2.
Proof.
  intros Hwf pk c. rewrite sql_delete_outcome.
  destruct (sql_state now table scope k) as [| | cur],
    (del_ifMatchVersion options) as [v |]; simpl;
    try destruct (cur =? v); simpl; try apply Hwf;
    intros [_ ?]%lookup_delete_Some; by apply Hwf.
Qed.

Lemma sql_batchPut_loop_wf now table scope entries acc :
  sql_wf now table -> sql_wf now (Sql.batchPut_loop now table scope entries acc).2.
Proof.
  revert table acc. induction entries as [| entry rest IH]; intros table acc Hwf; [done |].
  simpl.
  pose proof (sql_put_wf now table scope (entry_key entry) (entry_value entry)
                (entry_options entry) Hwf) as [Hwf' _].
  unfold entry_options in Hwf'.
  destruct (Sql.put now table scope (entry_key entry) (entry_value entry) _)
    as [[item | e | x] table']; simpl in *; [by apply IH | done | done].
Qed.

Lemma redis_get_lookup now store scope k item :
  (Redis.get now store scope k).1 = Some item ->
  exists e, store !! Redis.toRedisKey scope k = Some e /\ item = Redis.toStoredItem k e.
Proof.
  unfold Redis.get. destruct (store !! Redis.toRedisKey scope k) as [e |]; [| done].
  destruct (isExpired (Redis.env_expiresAt e) now); [done |].
  intros [= <-]. by exists e.
Qed.

Lemma redis_get_wf now store scope k item :
  redis_wf now store -> (Redis.get now store scope k).1 = Some item -> item_wf now item.
Proof.
  intros Hwf (e & He & ->)%redis_get_lookup. apply (Hwf _ _ He).
Qed.

Lemma redis_put_wf now store scope k v options :
  redis_wf now store ->
  redis_wf now (Redis.put now store scope k v options).2
  /\ (forall item, (Redis.put now store scope k v options).1 = Ok item -> item_wf now item).
Proof.
  intros Hwf.
  destruct (Redis.put now store scope k v options) as [[item | e | x] store'] eqn:Hput;
    simpl; [| | apply redis_put_throw in Hput as (_ & -> & _); by split].
  - pose proof (redis_put_result _ _ _ _ _ _ _ _ Hput)
      as (_ & _ & He & Hu & _ & Hc & Hrec & Hframe).
    pose proof (redis_put_ok _ _ _ _ _ _ _ _ Hput) as [Hver _].
    rewrite redis_next_version_get in Hver.
    assert (item_wf now item) as Hitem.
    { unfold item_wf. rewrite Hver, Hc, Hu, He, Hver.
      destruct (Redis.get now store scope k).1 as [current |] eqn:Hget; simpl.
      - destruct (redis_get_wf _ _ _ _ _ Hwf Hget) as (? & _ & ? & ?).
        split_and!; (done || lia).
      - split_and!; (done || lia). }
    split; [| by intros ? [= <-]].
    intros rk e. destruct (decide (rk = Redis.toRedisKey scope k)) as [-> | Hne].
    + intros He'. rewrite He' in Hrec. injection Hrec as <-. apply Hitem.
    + rewrite Hframe by done. apply Hwf.
  - apply redis_put_err in Hput as (_ & -> & _). by split.
Qed.

Lemma redis_delete_wf now store scope k options :
  redis_wf now store -> redis_wf now (Redis.delete now store scope k options).2.
Proof.
  intros Hwf rk e. rewrite redis_delete_outcome.
  destruct (redis_state now store scope k) as [| | cur],
    (del_ifMatchVersion options) as [v |]; simpl;
    try destruct (cur =? v); simpl; try apply Hwf;
    intros [_ ?]%lookup_delete_Some; by apply Hwf.
Qed.

Lemma redis_batchPut_loop_wf now store scope entries acc :
  redis_wf now store -> redis_wf now (Redis.batchPut_loop now store scope entries acc).2.
Proof.
  revert store acc. induction entries as [| entry rest IH]; intros store acc Hwf; [done |].
  simpl.
  pose proof (redis_put_wf now store scope (entry_key entry) (entry_value entry)
                (entry_options entry) Hwf) as [Hwf' _].
  unfold entry_options in Hwf'.
  destruct (Redis.put now store scope (entry_key entry) (entry_value entry) _)
    as [[item | e | x] store']; simpl in *; [by apply IH | done | done].
Qed.

Lemma redis_get_store_wf now store scope k :
  redis_wf now store -> redis_wf now (Redis.get now store scope k).2.
Proof.
  intros Hwf rk e. rewrite redis_get_store.
  destruct (store !! Redis.toRedisKey scope k) as [e0 |]; [| apply Hwf].
  destruct (isExpired (Redis.env_expiresAt e0) now); [| apply Hwf].
  intros [_ ?]%lookup_delete_Some. by apply Hwf.
Qed.

Lemma sql_list_wf like now table scope options item :
  sql_wf now table ->
  item ∈ items (Sql.list like now table scope options) -> item_wf now item.
Proof.
  intros Hwf (row & -> & Hrow & _)%sql_list_elem.
  destruct row as [pk c]. by apply Hwf.
Qed.

Lemma redis_list_entry_envelope now cursorKey rk e entry :
  Redis.list_entry now cursorKey (rk, e) = Some entry ->
  entry.2 = Redis.toStoredItem entry.1 e.
Proof.
  unfold Redis.list_entry. simpl.
  destruct (Redis.fromRedisKey rk) as [[| c k] |]; [done | | done].
  destruct (match Js.truthy cursorKey with Some _ => _ | None => _ end); [done |].
  destruct (isExpired (Redis.env_expiresAt e) now); [done |].
  by intros [= <-].
Qed.

Lemma redis_list_wf localeCompare now store scope options item :
  redis_wf now store ->
  item ∈ items (Redis.list localeCompare now store scope options) -> item_wf now item.
Proof.
  intros Hwf (entry & Hin & ->)%redis_list_elem.
  apply redis_found_spec in Hin as (rk & e & He & _ & Hentry).
  rewrite (redis_list_entry_envelope _ _ _ _ _ Hentry). apply (Hwf _ _ He).
Qed.

Lemma sql_wf_mono now now' table : now <= now' -> sql_wf now table -> sql_wf now' table.
Proof. intros Hle Hwf pk c Hc. by apply (item_wf_mono now), Hwf. Qed.

Lemma redis_wf_mono now now' store :
  now <= now' -> redis_wf now store -> redis_wf now' store.
Proof. intros Hle Hwf rk e He. by apply (item_wf_mono now), Hwf. Qed.

Lemma sql_wf_empty now : sql_wf now ∅.
Proof. by intros pk c ?. Qed.

Lemma redis_wf_empty now : redis_wf now ∅.
Proof. by intros rk e ?. Qed.

(** X16.  Records stay well formed.  On a backend whose records have a
    version of at least [1] and [createdAt <= updatedAt <= now], every
    write made with a clock that does not go back leaves such a
    backend; and every item that [put], [get] or [list] then returns has
    a version of at least [1], instants in that order, and the ETag of
    its version, which [normalizeIfMatch] reads back to the version: the
    ETag of a returned item is always a valid [If-Match]. *)
Theorem X16_records_well_formed :
  forall (like : string -> string -> bool) (localeCompare : string -> string -> Z)
         (now now' : Timestamp)
         (table : gmap Sql.PK Sql.Cols) (store : gmap string Redis.RedisEnvelope)
         (scope : StorageScope) (k : string) (v : JsonValue) (options : PutOptions)
         (dopts : DeleteOptions) (entries : list BatchPutEntry) (lopts : ListOptions),
    sql_wf now table -> redis_wf now store -> now <= now' ->
    (sql_wf now' (Sql.put now' table scope k v options).2
     /\ sql_wf now' (Sql.delete now' table scope k dopts).2
     /\ sql_wf now' (Sql.batchPut now' table scope entries).2)
    /\ (redis_wf now' (Redis.put now' store scope k v options).2
        /\ redis_wf now' (Redis.delete now' store scope k dopts).2
        /\ redis_wf now' (Redis.batchPut now' store scope entries).2
        /\ redis_wf now' (Redis.get now' store scope k).2)
    /\ (forall item,
          (Sql.put now' table scope k v options).1 = Ok item
          \/ Sql.get now' table scope k = Some item
          \/ item ∈ items (Sql.list like now' table scope lopts)
          \/ (Redis.put now' store scope k v options).1 = Ok item
          \/ (Redis.get now' store scope k).1 = Some item
          \/ item ∈ items (Redis.list localeCompare now' store scope lopts) ->
          item_wf now' item
          /\ normalizeIfMatch (Some (etag item)) = Some (version item)).
Proof.
  intros like localeCompare now now' table store scope k v options dopts entries lopts
    Hsql Hredis Hle.
  apply (sql_wf_mono now now' _ Hle) in Hsql.
  apply (redis_wf_mono now now' _ Hle) in Hredis.
  split_and!.
  - by apply sql_put_wf.
  - by apply sql_delete_wf.
  - by apply sql_batchPut_loop_wf.
  - by apply redis_put_wf.
  - by apply redis_delete_wf.
  - by apply redis_batchPut_loop_wf.
  - by apply redis_get_store_wf.
  - intros item Hitem.
    assert (item_wf now' item) as Hwf.
    { destruct Hitem as [H | [H | [H | [H | [H | H]]]]].
      - by apply (sql_put_wf now' table scope k v options).
      - by apply (sql_get_wf now' table scope k).
      - by apply (sql_list_wf like now' table scope lopts).
      - by apply (redis_put_wf now' store scope k v options).
      - by apply (redis_get_wf now' store scope k).
      - by apply (redis_list_wf localeCompare now' store scope lopts). }
    split; [done | by apply (item_wf_etag now')].
Qed.

(** X16 on the empty backends: the first write, and the read after it. *)
Lemma X16_records_well_formed_witness :
  let scope := mkScope "default" "ns" "u1" in
  let options := mkPutOptions (Some 60) None in
  sql_wf 5 (Sql.put 5 ∅ scope "k" "1" options).2
  /\ redis_wf 5 (Redis.put 5 ∅ scope "k" "1" options).2.
Proof.
  intros scope options.
  assert (0 <= 5) as Hle by lia.
  destruct (X16_records_well_formed Sql.sqlite_like Collation.localeCompare 0 5 ∅ ∅
              scope "k" "1" options (mkDeleteOptions None) []
              (mkListOptions None None None)
              (sql_wf_empty 0) (redis_wf_empty 0) Hle)
    as ((Hsql & _) & (Hredis & _) & _).
  split; [exact Hsql | exact Hredis].
Defined.

(* ================================================================== *)
(** * The service as a gate before the adapter *)

Section Gate.

Variable opts : Service.StorageServiceOptions.

Lemma validateScope_valid scope :
  Service.validateScope scope
  = if valid_scope scope then Ok tt
    else Err (ValidationError "tenantId, namespace, and userId are required").
Proof.
  unfold Service.validateScope, valid_scope.
  by destruct (Service.is_empty (tenantId scope)),
    (Service.is_empty (namespace scope)), (Service.is_empty (userId scope)).
Qed.

Lemma validateKey_valid k :
  if valid_key opts k then Service.validateKey opts k = Ok tt
  else exists m, Service.validateKey opts k = Err (ValidationError m).
Proof.
  unfold Service.validateKey, valid_key.
  destruct (Service.is_empty k); simpl; [eauto |].
  destruct (Z.ltb_spec (Service.maxKeyLength opts) (Service.strlen k)),
    (Z.leb_spec (Service.strlen k) (Service.maxKeyLength opts)); eauto; lia.
Qed.

Lemma validateValue_valid v :
  if valid_value opts v then Service.validateValue opts v = Ok tt
  else exists m, Service.validateValue opts v = Err (ValidationError m).
Proof.
  unfold Service.validateValue, valid_value.
  destruct (Z.ltb_spec (Service.maxValueBytes opts)
              (Service.byteLength (serializeJson v))),
    (Z.leb_spec (Service.byteLength (serializeJson v)) (Service.maxValueBytes opts));
    eauto; lia.
Qed.

Lemma validateTtlSeconds_valid ttl :
  if valid_positive ttl then Service.validateTtlSeconds ttl = Ok ttl
  else exists m, Service.validateTtlSeconds ttl = Err (ValidationError m).
Proof.
  unfold Service.validateTtlSeconds, valid_positive. destruct ttl as [t |]; [| done].
  destruct (Z.leb_spec t 0), (Z.ltb_spec 0 t); eauto; lia.
Qed.

Lemma validateIfMatch_version v :
  Service.validateIfMatch (string_of_Z <$> v)
  = if valid_positive v then Ok v else Err invalidIfMatch.
Proof.
  destruct v as [n |]; [| done]. cbn [fmap option_fmap option_map].
  rewrite validateIfMatch_string_of_Z. unfold ifMatchOutcome, valid_positive.
  by destruct (0 <? n).
Qed.

Lemma validateIfMatch_cases s :
  (exists v, Service.validateIfMatch s = Ok v /\ valid_positive v = true)
  \/ Service.validateIfMatch s = Err invalidIfMatch.
Proof.
  destruct s as [[| c s] |]; [left; by exists None .. | | left; by exists None].
  rewrite validateIfMatch_nonempty by done.
  destruct (normalizeIfMatch (Some (String c s))) as [v |] eqn:Hv; [| by right].
  left. exists (Some v). split; [done |]. simpl.
  rewrite normalizeIfMatch_unquoted in Hv.
  destruct (parseInt _) as [p |]; [| done].
  destruct (Z.leb_spec p 0); [done |]. injection Hv as <-. lia.
Qed.

Lemma validateKeys_valid keys :
  if forallb (valid_key opts) keys then Service.validateKeys opts keys = Ok tt
  else exists m, Service.validateKeys opts keys = Err (ValidationError m).
Proof.
  induction keys as [| k keys IH]; [done |]. simpl.
  pose proof (validateKey_valid k) as Hk.
  destruct (valid_key opts k); simpl.
  - rewrite Hk. simpl. apply IH.
  - destruct Hk as [m ->]. simpl. eauto.
Qed.

(** The loop of [batchPut] accepts exactly the batches of valid
    entries, and hands them on as they are. *)
Lemma validateEntries_valid entries :
  if forallb (valid_entry opts) entries
  then Service.validateEntries opts entries = Ok entries
  else exists e, Service.validateEntries opts entries = Err e
         /\ (isValidation e = true \/ e = invalidIfMatch).
Proof.
  induction entries as [| entry entries IH]; [done |].
  cbn [forallb Service.validateEntries]. unfold valid_entry at 1.
  pose proof (validateKey_valid (entry_key entry)) as Hk.
  pose proof (validateValue_valid (entry_value entry)) as Hv.
  pose proof (validateTtlSeconds_valid (entry_ttlSeconds entry)) as Ht.
  rewrite validateIfMatch_version.
  destruct (valid_key opts (entry_key entry)); simpl;
    [rewrite Hk | destruct Hk as [m ->]; simpl; by eauto].
  destruct (valid_value opts (entry_value entry)); simpl;
    [rewrite Hv | destruct Hv as [m ->]; simpl; by eauto].
  destruct (valid_positive (entry_ttlSeconds entry)); simpl;
    [rewrite Ht | destruct Ht as [m ->]; simpl; by eauto].
  simpl.
  destruct (valid_positive (entry_ifMatchVersion entry)); simpl; [| by eauto].
  destruct (forallb (valid_entry opts) entries).
  - rewrite IH. simpl. by destruct entry.
  - destruct IH as (e & -> & He). simpl. eauto.
Qed.

End Gate.

(** X17.  The service is a gate before the adapter.  Each operation of
    the service calls the adapter exactly when its arguments are valid
    (a scope with its three components, keys of [1] to [maxKeyLength]
    UTF-16 code units, a value of at most [maxValueBytes] bytes, a
    positive time to live, a batch of [1] to [maxBatchSize] elements, a
    prefix of at most [maxKeyLength] code units, a readable [If-Match]),
    and then with the arguments as they were given: [batchPut], whose
    entries carry safe integers as [ifMatchVersion], hands on its entries
    unchanged.  Otherwise the backend is left as it was; the error is a
    validation error, but for an [If-Match] that cannot be read, which
    raises a precondition failure, in [setItem] and [removeItem] only
    when everything else is valid. *)
Theorem X17_service_gate :
  forall (opts : Service.StorageServiceOptions) (S : Type) (adapter : StorageAdapter S)
         (now : Timestamp) (st : S) (scope : StorageScope) (k : string) (v : JsonValue)
         (o : Service.SetItemOptions) (ifMatch : option string)
         (keys : list string) (entries : list BatchPutEntry)
         (lo : Service.ServiceListOptions),
    safe_versions entries = true ->
    (if valid_scope scope && valid_key opts k
     then Service.getItem opts adapter now st scope k = adapter_get adapter now st scope k
     else exists m, Service.getItem opts adapter now st scope k
                    = (Err (ValidationError m), st))
    /\ (if valid_scope scope && valid_key opts k && valid_value opts v
           && valid_positive (Service.set_ttlSeconds o)
        then match Service.validateIfMatch (Service.set_ifMatch o) with
             | Ok ver =>
                 Service.setItem opts adapter now st scope k v o
                 = adapter_put adapter now st scope k v
                     {| ttlSeconds := Service.set_ttlSeconds o; ifMatchVersion := ver |}
             | Err e =>
                 e = invalidIfMatch
                 /\ Service.setItem opts adapter now st scope k v o = (Err e, st)
             | Throw _ => False
             end
        else exists m, Service.setItem opts adapter now st scope k v o
                       = (Err (ValidationError m), st))
    /\ (if valid_scope scope && valid_key opts k
        then match Service.validateIfMatch ifMatch with
             | Ok ver =>
                 Service.removeItem opts adapter now st scope k ifMatch
                 = adapter_delete adapter now st scope k {| del_ifMatchVersion := ver |}
             | Err e =>
                 e = invalidIfMatch
                 /\ Service.removeItem opts adapter now st scope k ifMatch = (Err e, st)
             | Throw _ => False
             end
        else exists m, Service.removeItem opts adapter now st scope k ifMatch
                       = (Err (ValidationError m), st))
    /\ (if valid_scope scope && valid_batch opts keys && forallb (valid_key opts) keys
        then Service.batchGet opts adapter now st scope keys
             = adapter_batchGet adapter now st scope keys
        else exists m, Service.batchGet opts adapter now st scope keys
                       = (Err (ValidationError m), st))
    /\ (if valid_scope scope && valid_batch opts entries
           && forallb (valid_entry opts) entries
        then Service.batchPut opts adapter now st scope entries
             = adapter_batchPut adapter now st scope entries
        else exists e, Service.batchPut opts adapter now st scope entries = (Err e, st)
               /\ (isValidation e = true \/ e = invalidIfMatch))
    /\ (if valid_scope scope && valid_prefix opts (Service.list_prefix lo)
        then Service.list opts adapter now st scope lo
             = adapter_list adapter now st scope
                 {| prefix := Service.list_prefix lo;
                    cursor := Service.list_cursor lo;
                    limit := Some (Service.effectiveLimit opts (Service.list_limit lo)) |}
        else exists m, Service.list opts adapter now st scope lo
                       = (Err (ValidationError m), st)).
Proof.
  intros opts S adapter now st scope k v o ifMatch keys entries lo _.
  pose proof (validateKey_valid opts k) as Hk.
  pose proof (validateValue_valid opts v) as Hv.
  pose proof (validateTtlSeconds_valid (Service.set_ttlSeconds o)) as Ht.
  pose proof (validateKeys_valid opts keys) as Hks.
  pose proof (validateEntries_valid opts entries) as Hes.
  unfold Service.getItem, Service.setItem, Service.removeItem, Service.batchGet,
    Service.batchPut, Service.list, Service.guarded.
  rewrite !validateScope_valid.
  destruct (valid_scope scope); simpl; [| by repeat split; eauto].
  split_and!.
  - destruct (valid_key opts k); [by rewrite Hk | destruct Hk as [m ->]; eauto].
  - destruct (valid_key opts k); simpl; [rewrite Hk | destruct Hk as [m ->]; by eauto].
    destruct (valid_value opts v); simpl; [rewrite Hv | destruct Hv as [m ->]; by eauto].
    destruct (valid_positive (Service.set_ttlSeconds o)); simpl;
      [rewrite Ht | destruct Ht as [m ->]; by eauto].
    simpl.
    by destruct (validateIfMatch_cases (Service.set_ifMatch o)) as [(ver & -> & _) | ->].
  - destruct (valid_key opts k); simpl; [rewrite Hk | destruct Hk as [m ->]; by eauto].
    simpl. by destruct (validateIfMatch_cases ifMatch) as [(ver & -> & _) | ->].
  - unfold valid_batch. destruct (Js.is_nil keys); simpl; [by eauto |].
    destruct (Z.ltb_spec (Service.maxBatchSize opts) (Z.of_nat (length keys))),
      (Z.leb_spec (Z.of_nat (length keys)) (Service.maxBatchSize opts));
      try lia; simpl; [by eauto |].
    destruct (forallb (valid_key opts) keys); [by rewrite Hks | destruct Hks as [m ->]; eauto].
  - unfold valid_batch. destruct (Js.is_nil entries); simpl; [by eauto |].
    destruct (Z.ltb_spec (Service.maxBatchSize opts) (Z.of_nat (length entries))),
      (Z.leb_spec (Z.of_nat (length entries)) (Service.maxBatchSize opts));
      try lia; simpl; [by eauto |].
    destruct (forallb (valid_entry opts) entries);
      [by rewrite Hes | destruct Hes as (e & -> & He); eauto].
  - unfold valid_prefix. destruct (Service.list_prefix lo) as [p |]; [| done].
    destruct (Z.ltb_spec (Service.maxKeyLength opts) (Service.strlen p)),
      (Z.leb_spec (Service.strlen p) (Service.maxKeyLength opts)); try lia; eauto.
Qed.

(** X17 on a batch of two entries over the in-memory SQL adapter: the
    adapter receives the entries as they were given; and a key of two
    characters of two bytes each passes a [maxKeyLength] of three. *)
Lemma X17_service_gate_witness :
  let adapter := SqlStorageAdapter Sql.sqlite_like in
  let scope := mkScope "t" "n" "u" in
  let entries := [mkEntry "a" "1" None (Some 3); mkEntry "b" "2" (Some 60) None] in
  let short := Service.mkServiceOptions 3 1024 10 10 in
  let key := String (ascii_of_N 195) (String (ascii_of_N 169)
               (String (ascii_of_N 195) (String (ascii_of_N 169) ""))) in
  Service.batchPut Service.defaultOptions adapter 0 ∅ scope entries
  = adapter_batchPut adapter 0 ∅ scope entries
  /\ Service.getItem short adapter 0 ∅ scope key = adapter_get adapter 0 ∅ scope key.
Proof.
  intros adapter scope entries short key. split.
  - exact (proj1 (proj2 (proj2 (proj2 (proj2
             (X17_service_gate Service.defaultOptions _ adapter 0 ∅ scope "k" "1"
                (Service.mkSetItemOptions None None) None ["k"] entries
                (Service.mkServiceListOptions None None None) eq_refl)))))).
  - exact (proj1 (X17_service_gate short _ adapter 0 ∅ scope key "1"
                    (Service.mkSetItemOptions None None) None ["k"] entries
                    (Service.mkServiceListOptions None None None) eq_refl)).
Defined.

(* ================================================================== *)
(** * Optimistic concurrency through the service *)

Lemma validateIfMatch_etag n :
  1 <= n -> Service.validateIfMatch (Some (etagFromVersion n)) = Ok (Some n).
Proof.
  intros Hn. rewrite validateIfMatch_nonempty by done.
  by rewrite normalizeIfMatch_etag_positive.
Qed.

Section WithEtag.

Context (opts : Service.StorageServiceOptions) {S : Type} (adapter : StorageAdapter S).

Lemma service_setItem_etag now st scope k v ttl n :
  valid_scope scope = true -> valid_key opts k = true -> valid_value opts v = true ->
  valid_positive ttl = true -> 1 <= n ->
  Service.setItem opts adapter now st scope k v
    {| Service.set_ttlSeconds := ttl; Service.set_ifMatch := Some (etagFromVersion n) |}
  = adapter_put adapter now st scope k v {| ttlSeconds := ttl; ifMatchVersion := Some n |}.
Proof.
  intros Hs Hk Hv Ht Hn.
  pose proof (validateKey_valid opts k) as Hk'. rewrite Hk in Hk'.
  pose proof (validateValue_valid opts v) as Hv'. rewrite Hv in Hv'.
  pose proof (validateTtlSeconds_valid ttl) as Ht'. rewrite Ht in Ht'.
  unfold Service.setItem, Service.guarded. cbn [Service.set_ttlSeconds Service.set_ifMatch].
  rewrite validateScope_valid, Hs, Hk', Hv', Ht', (validateIfMatch_etag n Hn). done.
Qed.

Lemma service_removeItem_etag now st scope k n :
  valid_scope scope = true -> valid_key opts k = true -> 1 <= n ->
  Service.removeItem opts adapter now st scope k (Some (etagFromVersion n))
  = adapter_delete adapter now st scope k {| del_ifMatchVersion := Some n |}.
Proof.
  intros Hs Hk Hn.
  pose proof (validateKey_valid opts k) as Hk'. rewrite Hk in Hk'.
  unfold Service.removeItem, Service.guarded.
  rewrite validateScope_valid, Hs, Hk', (validateIfMatch_etag n Hn). done.
Qed.

End WithEtag.

Lemma sql_cas now table scope k v ttl n expiry :
  expiry_of now ttl = Ok expiry ->
  (version <$> Sql.get now table scope k = Some n ->
   (exists item table',
       Sql.put now table scope k v {| ttlSeconds := ttl; ifMatchVersion := Some n |}
       = (Ok item, table')
       /\ version item = n + 1 /\ value item = v
       /\ forall later v2 ttl2,
            Sql.put later table' scope k v2 {| ttlSeconds := ttl2; ifMatchVersion := Some n |}
            = (Err ifMatchError, table'))
   /\ Sql.delete now table scope k {| del_ifMatchVersion := Some n |}
      = (Ok true, base.delete (Sql.pk_of scope k) table))
  /\ (version <$> Sql.get now table scope k <> Some n ->
      Sql.put now table scope k v {| ttlSeconds := ttl; ifMatchVersion := Some n |}
      = (Err ifMatchError, table)
      /\ (Sql.delete now table scope k {| del_ifMatchVersion := Some n |}).2 = table
      /\ (Sql.delete now table scope k {| del_ifMatchVersion := Some n |}).1 <> Ok true).
Proof.
  intros Hexpiry. rewrite sql_get_state. split.
  - intros Hactive. split.
    + destruct (sql_put_accepted now table scope k v
                  {| ttlSeconds := ttl; ifMatchVersion := Some n |} expiry)
        as (item & table' & Hput & Hver & _); [| done |].
      { simpl. rewrite Hactive. simpl. by rewrite Z.eqb_refl. }
      exists item, table'. split; [done |].
      pose proof (sql_put_result _ _ _ _ _ _ _ _ Hput) as (_ & Hv & _).
      split_and!; [| done |].
      * rewrite Hver. by destruct (sql_state now table scope k); simplify_eq/=.
      * intros later v2 ttl2. apply sql_put_refused.
        rewrite (sql_state_after_put _ later _ _ _ _ _ _ _ Hput).
        destruct (isExpired _ later); simpl; [done |].
        rewrite Hver. destruct (sql_state now table scope k); simplify_eq/=.
        intros [= ?]. lia.
    + rewrite sql_delete_outcome. simpl.
      destruct (sql_state now table scope k); simplify_eq/=. by rewrite Z.eqb_refl.
  - intros Hactive. split; [by apply sql_put_refused |].
    rewrite sql_delete_outcome. simpl.
    destruct (sql_state now table scope k) as [| | cur]; simpl; try done.
    destruct (Z.eqb_spec cur n) as [-> | ?]; [done | by simpl].
Qed.

Lemma redis_cas now store scope k v ttl n expiry :
  expiry_of now ttl = Ok expiry ->
  (version <$> (Redis.get now store scope k).1 = Some n ->
   (exists item store',
       Redis.put now store scope k v {| ttlSeconds := ttl; ifMatchVersion := Some n |}
       = (Ok item, store')
       /\ version item = n + 1 /\ value item = v
       /\ forall later v2 ttl2,
            Redis.put later store' scope k v2 {| ttlSeconds := ttl2; ifMatchVersion := Some n |}
            = (Err ifMatchError, store'))
   /\ Redis.delete now store scope k {| del_ifMatchVersion := Some n |}
      = (Ok true, base.delete (Redis.toRedisKey scope k) store))
  /\ (version <$> (Redis.get now store scope k).1 <> Some n ->
      Redis.put now store scope k v {| ttlSeconds := ttl; ifMatchVersion := Some n |}
      = (Err ifMatchError, store)
      /\ (Redis.delete now store scope k {| del_ifMatchVersion := Some n |}).2 = store
      /\ (Redis.delete now store scope k {| del_ifMatchVersion := Some n |}).1 <> Ok true).
Proof.
  intros Hexpiry. rewrite redis_get_state. split.
  - intros Hactive. split.
    + destruct (redis_put_accepted now store scope k v
                  {| ttlSeconds := ttl; ifMatchVersion := Some n |} expiry)
        as (item & store' & Hput & Hver & _); [| done |].
      { simpl. rewrite Hactive. simpl. by rewrite Z.eqb_refl. }
      exists item, store'. split; [done |].
      pose proof (redis_put_result _ _ _ _ _ _ _ _ Hput) as (_ & Hv & _).
      split_and!; [| done |].
      * rewrite Hver. by destruct (redis_state now store scope k); simplify_eq/=.
      * intros later v2 ttl2. apply (redis_put_refused []).
        rewrite (redis_state_after_put _ later _ _ _ _ _ _ _ Hput).
        destruct (isExpired _ later); simpl; [done |].
        rewrite Hver. destruct (redis_state now store scope k); simplify_eq/=.
        intros [= ?]. lia.
    + rewrite redis_delete_outcome. simpl.
      destruct (redis_state now store scope k); simplify_eq/=. by rewrite Z.eqb_refl.
  - intros Hactive. split; [by apply (redis_put_refused []) |].
    rewrite redis_delete_outcome. simpl.
    destruct (redis_state now store scope k) as [| | cur]; simpl; try done.
    destruct (Z.eqb_spec cur n) as [-> | ?]; [done | by simpl].
Qed.

(** X18.  Compare and swap with the ETag.  Through the service, with
    valid arguments and an expiry that is a valid date, a [setItem] or
    [removeItem] whose [If-Match] is the ETag of a version [n >= 1] (a
    safe integer) goes through exactly when [get] returns an item of
    version [n] at that instant: the write then gives version [n + 1]
    with the new value, and the removal answers [true]; and once the
    write has gone through, no later [setItem] with the same ETag does,
    so that of two writers holding the same ETag only the first
    succeeds.  Otherwise [setItem] raises the precondition failure and
    [removeItem] removes nothing, and the backend is as it was.  (With an
    expiry that is no valid date, the [setItem] of a matching version
    throws a [RangeError] and writes nothing.) *)
Theorem X18_etag_compare_and_swap :
  forall (opts : Service.StorageServiceOptions)
         (like : string -> string -> bool) (localeCompare : string -> string -> Z)
         (now : Timestamp)
         (table : gmap Sql.PK Sql.Cols) (store : gmap string Redis.RedisEnvelope)
         (scope : StorageScope) (k : string) (v : JsonValue) (ttl : option Z) (n : Z),
    valid_scope scope = true -> valid_key opts k = true -> valid_value opts v = true ->
    valid_positive ttl = true -> 1 <= n -> safe_integer n = true ->
    let sql := SqlStorageAdapter like in
    let redis := RedisStorageAdapter localeCompare in
    let tag := Some (etagFromVersion n) in
    let o := {| Service.set_ttlSeconds := ttl; Service.set_ifMatch := tag |} in
    ((version <$> Sql.get now table scope k = Some n ->
      match expiry_of now ttl with
      | Ok _ =>
          exists item table',
            Service.setItem opts sql now table scope k v o = (Ok item, table')
            /\ version item = n + 1 /\ value item = v
            /\ forall later v2, valid_value opts v2 = true ->
                 Service.setItem opts sql later table' scope k v2 o
                 = (Err ifMatchError, table')
      | _ => Service.setItem opts sql now table scope k v o = (Throw invalidTime, table)
      end
      /\ Service.removeItem opts sql now table scope k tag
         = (Ok true, base.delete (Sql.pk_of scope k) table))
     /\ (version <$> Sql.get now table scope k <> Some n ->
         Service.setItem opts sql now table scope k v o = (Err ifMatchError, table)
         /\ (Service.removeItem opts sql now table scope k tag).2 = table
         /\ (Service.removeItem opts sql now table scope k tag).1 <> Ok true))
    /\ ((version <$> (Redis.get now store scope k).1 = Some n ->
         match expiry_of now ttl with
         | Ok _ =>
             exists item store',
               Service.setItem opts redis now store scope k v o = (Ok item, store')
               /\ version item = n + 1 /\ value item = v
               /\ forall later v2, valid_value opts v2 = true ->
                    Service.setItem opts redis later store' scope k v2 o
                    = (Err ifMatchError, store')
         | _ =>
             Service.setItem opts redis now store scope k v o = (Throw invalidTime, store)
         end
         /\ Service.removeItem opts redis now store scope k tag
            = (Ok true, base.delete (Redis.toRedisKey scope k) store))
        /\ (version <$> (Redis.get now store scope k).1 <> Some n ->
            Service.setItem opts redis now store scope k v o = (Err ifMatchError, store)
            /\ (Service.removeItem opts redis now store scope k tag).2 = store
            /\ (Service.removeItem opts redis now store scope k tag).1 <> Ok true)).
Proof.
  intros opts like localeCompare now table store scope k v ttl n Hs Hk Hv Ht Hn _
    sql redis tag o. subst sql redis tag o.
  rewrite !service_removeItem_etag, !service_setItem_etag by done. simpl.
  destruct (expiry_of_cases now ttl) as [[expiry Hexpiry] | Hexpiry]; rewrite Hexpiry.
  - split.
    + destruct (sql_cas now table scope k v ttl n expiry Hexpiry) as [Hyes Hno].
      split; [| done].
      intros Hactive.
      destruct (Hyes Hactive) as [(item & table' & Hput & Hver & Hval & Hstale) Hdel].
      split; [| done]. exists item, table'. split_and!; try done.
      intros later v2 Hv2. rewrite service_setItem_etag by done. apply Hstale.
    + destruct (redis_cas now store scope k v ttl n expiry Hexpiry) as [Hyes Hno].
      split; [| done].
      intros Hactive.
      destruct (Hyes Hactive) as [(item & store' & Hput & Hver & Hval & Hstale) Hdel].
      split; [| done]. exists item, store'. split_and!; try done.
      intros later v2 Hv2. rewrite service_setItem_etag by done. apply Hstale.
  - split.
    + destruct (sql_cas now table scope k v None n None eq_refl) as [Hyes Hno].
      split.
      * intros Hactive. destruct (Hyes Hactive) as [_ Hdel]. split; [| done].
        apply sql_put_invalid_time; [| done].
        simpl. rewrite <- sql_get_state, Hactive. simpl. by rewrite Z.eqb_refl.
      * intros Hactive. destruct (Hno Hactive) as (_ & Hdel). split; [| done].
        apply sql_put_refused. by rewrite <- sql_get_state.
    + destruct (redis_cas now store scope k v None n None eq_refl) as [Hyes Hno].
      split.
      * intros Hactive. destruct (Hyes Hactive) as [_ Hdel]. split; [| done].
        apply (redis_put_invalid_time []); [| done].
        simpl. rewrite <- redis_get_state, Hactive. simpl. by rewrite Z.eqb_refl.
      * intros Hactive. destruct (Hno Hactive) as (_ & Hdel). split; [| done].
        apply (redis_put_refused []). by rewrite <- redis_get_state.
Qed.

(** X18 on an item of version [1]: the first writer with the ETag of
    version [1] gets version [2], the second is refused. *)
Lemma X18_etag_compare_and_swap_witness :
  let sql := SqlStorageAdapter Sql.sqlite_like in
  let scope := mkScope "default" "ns" "u1" in
  let table := (Sql.put 0 ∅ scope "k" "1" (mkPutOptions None None)).2 in
  let o := Service.mkSetItemOptions (Some 60) (Some (etagFromVersion 1)) in
  exists item table',
    Service.setItem Service.defaultOptions sql 5 table scope "k" "2" o = (Ok item, table')
    /\ version item = 2
    /\ Service.setItem Service.defaultOptions sql 6 table' scope "k" "3" o
       = (Err ifMatchError, table').
Proof.
  intros sql scope table o.
  assert (1 <= 1) as Hn by lia.
  destruct (X18_etag_compare_and_swap Service.defaultOptions Sql.sqlite_like
              Collation.localeCompare 5 table ∅ scope "k" "2" (Some 60) 1
              eq_refl eq_refl eq_refl eq_refl Hn eq_refl) as [[Hyes _] _].
  destruct Hyes as [(item & table' & Hput & Hver & _ & Hstale) _].
  - vm_compute. reflexivity.
  - exists item, table'. split_and!; [exact Hput | exact Hver |].
    apply (Hstale 6 "3"). reflexivity.
Defined.

(* ================================================================== *)
(** * Pages through the service *)

Lemma effectiveLimit_bounds opts limit :
  1 <= Service.maxListLimit opts ->
  1 <= Service.effectiveLimit opts limit <= Z.max (Service.maxListLimit opts) 50
  /\ (forall q, limit = Some (Finite q) -> Qnum q <> 0 ->
        Service.effectiveLimit opts limit <= Service.maxListLimit opts).
Proof.
  intros Hmax. unfold Service.effectiveLimit. rewrite clampLimit_by_cases by done.
  destruct limit as [[| | | q] |]; simpl; try (split; [lia | done]).
  assert (Qeq_bool q 0 = (Qnum q =? 0)) as ->.
  { destruct q as [a b]. unfold Qeq_bool. simpl. by rewrite Z.mul_1_r. }
  destruct (Z.eqb_spec (Qnum q) 0) as [Hz | Hnz].
  { split; [lia |]. by intros ? [= <-]. }
  assert (1 <= (if Qle_bool q 0 then 1
                else if Qle_bool (inject_Z (Service.maxListLimit opts)) q
                     then Service.maxListLimit opts
                     else Z.max 1 (Clamp.trunc q))
          <= Service.maxListLimit opts); [| split; [lia | intros ? [= <-] ?; lia]].
  destruct (Qle_bool q 0) eqn:Hneg; [lia |].
  destruct (Qle_bool (inject_Z (Service.maxListLimit opts)) q) eqn:Hbig; [lia |].
  pose proof (trunc_below q _ Hneg Hbig). lia.
Qed.

(** X19.  Pages through the service.  With [maxListLimit >= 1], a valid
    scope and a prefix of at most [maxKeyLength] characters, [list]
    never raises and leaves the backend as it is; the limit it hands to
    the adapter is between [1] and the larger of [maxListLimit] and the
    default [50], and at most [maxListLimit] when the caller gives a
    limit other than zero; the page has at most that many items; and the
    next cursor is there exactly when the items that the query ranges
    over are more than the page holds. *)
Theorem X19_service_list_page :
  forall (opts : Service.StorageServiceOptions)
         (like : string -> string -> bool) (localeCompare : string -> string -> Z)
         (now : Timestamp)
         (table : gmap Sql.PK Sql.Cols) (store : gmap string Redis.RedisEnvelope)
         (scope : StorageScope) (lo : Service.ServiceListOptions),
    1 <= Service.maxListLimit opts ->
    valid_scope scope = true ->
    valid_prefix opts (Service.list_prefix lo) = true ->
    let l := Service.effectiveLimit opts (Service.list_limit lo) in
    let options :=
      {| prefix := Service.list_prefix lo; cursor := Service.list_cursor lo;
         limit := Some l |} in
    (1 <= l <= Z.max (Service.maxListLimit opts) 50
     /\ (forall q, Service.list_limit lo = Some (Finite q) -> Qnum q <> 0 ->
           l <= Service.maxListLimit opts))
    /\ (exists page,
           Service.list opts (SqlStorageAdapter like) now table scope lo = (Ok page, table)
           /\ (length (items page) <= Z.to_nat l)%nat
           /\ strictly_ascending (items page)
           /\ (is_Some (nextCursor page)
               <-> (length (items page)
                    < length (Sql.list_matching like now table scope options))%nat))
    /\ (exists page,
           Service.list opts (RedisStorageAdapter localeCompare) now store scope lo
           = (Ok page, store)
           /\ (length (items page) <= Z.to_nat l)%nat
           /\ (is_Some (nextCursor page)
               <-> (length (items page)
                    < length (Redis.list_found now store scope options))%nat)).
Proof.
  intros opts like localeCompare now table store scope lo Hmax Hs Hp l options.
  pose proof (effectiveLimit_bounds opts (Service.list_limit lo) Hmax) as [Hl Hq].
  fold l in Hl, Hq.
  assert (forall (S : Type) (adapter : StorageAdapter S) (st : S),
             Service.list opts adapter now st scope lo
             = adapter_list adapter now st scope options) as Hgate.
  { intros S adapter st. unfold Service.list, Service.guarded.
    rewrite validateScope_valid, Hs. simpl.
    unfold valid_prefix in Hp. destruct (Service.list_prefix lo) as [p |] eqn:Hpre; [| done].
    destruct (Z.ltb_spec (Service.maxKeyLength opts) (Service.strlen p)); [lia | done]. }
  split; [done |]. split.
  - exists (Sql.list like now table scope options). rewrite Hgate.
    split; [done |].
    destruct (sql_list_cursor like now table scope options l eq_refl (proj1 Hl))
      as (Hitems & Hiff & _).
    split_and!; [| apply sql_list_ascending | done].
    rewrite Hitems, length_fmap, length_take. lia.
  - exists (Redis.list localeCompare now store scope options). rewrite Hgate.
    split; [done |].
    destruct (redis_list_cursor localeCompare now store scope options l eq_refl (proj1 Hl))
      as (Hiff & _).
    split; [| done].
    destruct (redis_list_items localeCompare now store scope options) as (n & -> & Hn).
    rewrite length_fmap, length_take, Hn by (simpl; lia). simpl. lia.
Qed.

(** X19 with the default options: an absent limit is [50], and a limit of
    [1000] is brought down to [100]. *)
Lemma X19_service_list_page_witness :
  Service.effectiveLimit Service.defaultOptions None = 50
  /\ Service.effectiveLimit Service.defaultOptions (Some (Clamp.ofZ 1000)) <= 100.
Proof.
  assert (1 <= Service.maxListLimit Service.defaultOptions) as Hmax by (simpl; lia).
  destruct (X19_service_list_page Service.defaultOptions Sql.sqlite_like
              Collation.localeCompare 0 ∅ ∅ (mkScope "t" "n" "u")
              (Service.mkServiceListOptions None None (Some (Clamp.ofZ 1000)))
              Hmax eq_refl eq_refl) as [[_ Hq] _].
  split; [reflexivity |].
  apply (Hq (inject_Z 1000)); [reflexivity | discriminate].
Defined.

(* ================================================================== *)
(** * The HTTP layer *)

Lemma toStatusCode_range status :
  let s := Http.StatusHandler.toStatusCode status in
  200 <= s <= 599 /\ s <> 204 /\ s <> 205 /\ s <> 304.
Proof.
  unfold Http.StatusHandler.toStatusCode.
  destruct (Z.leb_spec 200 status), (Z.leb_spec status 599),
    (Z.eqb_spec status 204), (Z.eqb_spec status 205), (Z.eqb_spec status 304);
    simpl; lia.
Qed.

(** X20.  The status of an error answer.  The handler that answers with
    the status an error carries gives every error of the storage core
    its own status and code (400, 401, 404, 412 or 500), and whatever
    the error, a status from 200 to 599 that allows a body (never 204,
    205 or 304).  The handler of [error-handler.ts] gives the same code
    and message but chooses the status by class: it agrees on validation,
    authorization and internal errors, and answers a precondition
    failure with 400 instead of 412 and a missing item with 500 instead
    of 404. *)
Theorem X20_error_status :
  forall (error : Http.ApiError) (e : SyncStorageError),
    let r := Http.StatusHandler.handleApiError error in
    let r' := Http.ErrorHandler.handleApiError (Http.OfStorage e) in
    (200 <= Http.res_status r <= 599
     /\ Http.res_status r <> 204 /\ Http.res_status r <> 205 /\ Http.res_status r <> 304)
    /\ Http.StatusHandler.handleApiError (Http.OfStorage e)
       = {| Http.res_status := Errors.status e;
            Http.res_code := Errors.code e;
            Http.res_message := Http.message e |}
    /\ Http.res_code r' = Errors.code e
    /\ Http.res_message r' = Http.message e
    /\ Http.res_status r'
       = (if isPreconditionFailed e then 400
          else match e with
               | NotFoundError _ => 500
               | _ => Errors.status e
               end).
Proof.
  intros error e r r'. subst r r'. split.
  - destruct error as [e0 | status m |]; simpl; [| | lia].
    + apply (toStatusCode_range (Errors.status e0)).
    + apply (toStatusCode_range status).
  - split_and!; by destruct e.
Qed.

Lemma truthy_Some_nonempty (s : option string) (r : string) :
  Js.truthy s = Some r -> s = Some r /\ r <> "".
Proof. destruct s as [[| c s] |]; simpl; [done | | done]. by intros [= <-]. Qed.

(** X21.  Who a request acts for.  With [AUTH_MODE=jwt] the actor is
    decided by the [authorization] and [x-namespace] headers alone: the
    user is the non-empty [sub] claim of the token that [jwt.verify]
    accepted, the tenant is the [tenant_id] claim or the default one,
    and the headers [x-user-id] and [x-tenant-id] change nothing; the
    [authorization] header must carry the [Bearer] scheme before the
    token.  With [AUTH_MODE=none] the actor is read off the headers
    [x-namespace], [x-user-id] and [x-tenant-id].  In both modes the
    namespace and the user of an actor are non-empty, so that the
    service accepts the scope as soon as the tenant is non-empty; a
    request that is refused gets 400 for a missing namespace or user
    and 401 for everything about the token. *)
Theorem X21_resolveActor :
  forall (jwt_verify : string -> option string -> Http.Verified)
         (headers headers' : Http.Headers) (config : Http.AppConfig),
    let result := Http.resolveActor jwt_verify headers config in
    (Http.authMode config = Http.AuthJwt ->
     headers "authorization" = headers' "authorization" ->
     headers "x-namespace" = headers' "x-namespace" ->
     Http.resolveActor jwt_verify headers' config = result)
    /\ (Http.authMode config = Http.AuthNone ->
        headers "x-namespace" = headers' "x-namespace" ->
        headers "x-user-id" = headers' "x-user-id" ->
        headers "x-tenant-id" = headers' "x-tenant-id" ->
        Http.resolveActor jwt_verify headers' config = result)
    /\ match result with
       | Ok actor =>
           namespace actor <> "" /\ userId actor <> ""
           /\ (tenantId actor <> "" -> Service.validateScope actor = Ok tt)
           /\ match Http.authMode config with
              | Http.AuthJwt =>
                  exists authorization payload,
                    headers "authorization" = Some authorization
                    /\ Http.stripBearer authorization <> authorization
                    /\ jwt_verify (Http.stripBearer authorization) (Http.jwtSecret config)
                       = Http.VerifiedPayload payload
                    /\ Http.sub payload = Some (userId actor)
                    /\ tenantId actor
                       = default (Http.defaultTenantId config) (Http.tenant_id payload)
              | Http.AuthNone =>
                  headers "x-user-id" = Some (userId actor)
                  /\ tenantId actor
                     = Http.or_else (headers "x-tenant-id") (Http.defaultTenantId config)
              end
       | Err e =>
           match Http.authMode config with
           | Http.AuthJwt =>
               Errors.status e = 401
               \/ (Errors.status e = 400
                   /\ Http.or_else (headers "x-namespace")
                        (default "" (Http.defaultNamespace config)) = "")
           | Http.AuthNone => Errors.status e = 400
           end
       | Throw _ => False
       end.
Proof.
  intros jwt_verify headers headers' config result. subst result.
  unfold Http.resolveActor. split_and!.
  - intros -> <- <-. done.
  - intros -> <- <- <-. done.
  - destruct (Js.truthy (Some (Http.or_else (headers "x-namespace")
                                 (default "" (Http.defaultNamespace config)))))
      as [ns |] eqn:Hns.
    2:{ destruct (Http.or_else _ _) eqn:Hor; [| done].
        destruct (Http.authMode config); [right | ]; done. }
    apply truthy_Some_nonempty in Hns as [_ Hns].
    assert (forall t u, t <> "" -> u <> "" ->
              Service.validateScope {| tenantId := t; namespace := ns; userId := u |}
              = Ok tt) as Hvalid.
    { intros [| ? ?] [| ? ?] ? ?; try done. by destruct ns. }
    destruct (Http.authMode config).
    + destruct (Js.truthy (headers "authorization")) as [authorization |] eqn:Hauth;
        [| by left].
      apply truthy_Some_nonempty in Hauth as [Hauth _].
      destruct (Service.is_empty _ || bool_decide _) eqn:Hformat; [by left |].
      apply orb_false_iff in Hformat as [_ Hformat%bool_decide_eq_false].
      destruct (jwt_verify _ _) as [payload | |] eqn:Hverify; [| by left | by left].
      destruct (Js.truthy (Http.sub payload)) as [user |] eqn:Hsub; [| by left].
      apply truthy_Some_nonempty in Hsub as [Hsub Huser]. simpl.
      split_and!; [done | done | by intros ?; apply Hvalid |].
      by exists authorization, payload.
    + destruct (Js.truthy (headers "x-user-id")) as [user |] eqn:Huser; [| done].
      apply truthy_Some_nonempty in Huser as [Huser Hne]. simpl.
      split_and!; try done. by intros ?; apply Hvalid.
Qed.

(** X21 on a token of the user [alice]: the header [x-user-id] does not
    make the request act for [bob]. *)
Lemma X21_resolveActor_witness :
  let jwt_verify (token : string) (secret : option string) :=
    if bool_decide (token = "good")
    then Http.VerifiedPayload (Http.mkJwtPayload (Some "alice") None)
    else Http.VerifyThrows in
  let config := Http.mkAppConfig Http.AuthJwt (Some "secret") (Some "app") "default" in
  let headers (name : string) :=
    if bool_decide (name = "authorization") then Some "Bearer good" else None in
  let headers' (name : string) :=
    if bool_decide (name = "authorization") then Some "Bearer good"
    else if bool_decide (name = "x-user-id") then Some "bob" else None in
  Http.resolveActor jwt_verify headers' config = Ok (mkScope "default" "app" "alice").
Proof.
  intros jwt_verify config headers headers'.
  destruct (X21_resolveActor jwt_verify headers headers' config) as (Hjwt & _ & _).
  rewrite Hjwt; reflexivity.
Defined.

(* ================================================================== *)
(** * Sequences of writes *)

Lemma sql_writes_other_scope scopeA scopeB ws table key :
  scopeA <> scopeB ->
  sql_writes scopeA table ws !! Sql.pk_of scopeB key = table !! Sql.pk_of scopeB key.
Proof.
  intros Hne. revert table. unfold sql_writes.
  induction ws as [| w ws IH]; intros table; simpl; [done |].
  rewrite IH. destruct w as [now k v options | now k options | now entries]; simpl.
  - by apply sql_put_other_scope.
  - by apply sql_delete_other_scope.
  - by apply sql_batchPut_other_scope.
Qed.

(** X22.  The SQL adapters keep scopes apart, whatever is written.  No
    sequence of [put], [delete] and [batchPut], made at any instants in a
    scope and succeeding or not, changes what [get], [batchGet] and
    [list] return, at any instant and for any arguments, in a scope that
    differs from it in the tenant, the namespace or the user. *)
Theorem X22_sql_scopes_apart :
  forall (scopeA scopeB : StorageScope) (ws : list Write)
         (table : gmap Sql.PK Sql.Cols),
    scopeA <> scopeB ->
    sql_same_reads scopeB table (sql_writes scopeA table ws).
Proof.
  intros scopeA scopeB ws table Hne. apply sql_reads_agree.
  intros key. symmetry. by apply sql_writes_other_scope.
Qed.

(** X22 on two users of one tenant. *)
Lemma X22_sql_scopes_apart_witness :
  let alice := mkScope "default" "app" "alice" in
  let bob := mkScope "default" "app" "bob" in
  let table := (Sql.put 0 ∅ bob "k" "1" (mkPutOptions None None)).2 in
  let ws :=
    [WPut 1 "k" "2" (mkPutOptions None None); WDelete 2 "k" (mkDeleteOptions None);
     WBatchPut 3 [mkEntry "k" "3" None None; mkEntry "j" "4" None None]] in
  Sql.get 5 (sql_writes alice table ws) bob "k" = Sql.get 5 table bob "k".
Proof.
  intros alice bob table ws.
  assert (alice <> bob) as Hne by discriminate.
  destruct (X22_sql_scopes_apart alice bob ws table Hne) as (Hget & _).
  symmetry. apply Hget.
Defined.

(* ================================================================== *)
(** * Pages of the key-value adapter *)

Lemma glob_any fuel text : Redis.glob_chars (S (S fuel)) ["*"%char] text = true.
Proof.
  cbn [Redis.glob_chars]. rewrite bool_decide_eq_true_2 by done.
  induction text as [| c text IH]; [done |]. simpl. apply IH.
Qed.

(** A pattern of literal characters before a final [*] matches the
    strings that start with these characters. *)
Lemma glob_chars_literal (P text : string) (fuel : nat) :
  string_forall glob_literal P = true ->
  (String.length P + 2 <= fuel)%nat ->
  Redis.glob_chars fuel (list_ascii_of_string P ++ ["*"%char]) (list_ascii_of_string text)
  = startsWith text P.
Proof.
  revert text fuel. induction P as [| a P IH]; intros text fuel Hlit Hfuel.
  - destruct fuel as [| [| fuel]]; simpl in Hfuel; try lia. by rewrite glob_any.
  - simpl in Hlit. apply andb_true_iff in Hlit as [Ha Hlit].
    unfold glob_literal in Ha.
    apply andb_true_iff in Ha as [[[Hstar Hq]%andb_true_iff Hbr]%andb_true_iff Hbs].
    apply negb_true_iff, bool_decide_eq_false in Hstar, Hq, Hbr, Hbs.
    destruct fuel as [| fuel]; simpl in Hfuel; [lia |].
    cbn [list_ascii_of_string app Redis.glob_chars].
    rewrite (bool_decide_eq_false_2 (a = "*"%char)) by done.
    destruct text as [| c text]; [done |].
    cbn [list_ascii_of_string startsWith].
    rewrite (bool_decide_eq_false_2 (a = "?"%char)) by done.
    rewrite (bool_decide_eq_false_2 (a = "["%char)) by done.
    rewrite (bool_decide_eq_false_2 (a = "\"%char)) by done.
    rewrite IH by (done || lia).
    f_equal. apply bool_decide_ext. split; by intros ->.
Qed.

Lemma list_ascii_of_string_app (a b : string) :
  list_ascii_of_string (a +:+ b) = list_ascii_of_string a ++ list_ascii_of_string b.
Proof. induction a as [| c a IH]; simpl; [done | by rewrite IH]. Qed.

Lemma glob_literal_prefix (P text : string) :
  string_forall glob_literal P = true ->
  Redis.glob (P +:+ "*") text = startsWith text P.
Proof.
  intros Hlit. unfold Redis.glob.
  rewrite list_ascii_of_string_app, string_length_app. simpl list_ascii_of_string.
  apply glob_chars_literal; [done |]. simpl. lia.
Qed.

Lemma startsWith_spec (s p : string) :
  startsWith s p = true <-> exists rest, s = p +:+ rest.
Proof.
  revert s. induction p as [| a p IH]; intros s; simpl.
  - split; [by exists s | done].
  - destruct s as [| c s]; [split; [done | by intros [? ?]] |].
    rewrite andb_true_iff, bool_decide_eq_true, IH. split.
    + intros [-> [rest ->]]. by exists rest.
    + intros [rest [= -> ->]]. split; [done | by exists rest].
Qed.

Lemma startsWith_app_inv (P p s : string) :
  startsWith s (P +:+ p) = true <-> exists k, s = P +:+ k /\ startsWith k p = true.
Proof.
  rewrite startsWith_spec. split.
  - intros [rest ->]. exists (p +:+ rest). split; [by rewrite string_app_assoc |].
    apply startsWith_spec. by exists rest.
  - intros (k & -> & [rest ->]%startsWith_spec). exists rest.
    by rewrite string_app_assoc.
Qed.

(** On a scope whose prefix has its marker at its end only, the key of
    a record key is read back. *)
Lemma fromRedisKey_toRedisKey scope k :
  marker_at_end scope = true ->
  Redis.fromRedisKey (Redis.toRedisKey scope k) = Some k.
Proof.
  intros Hm%bool_decide_eq_true.
  destruct (toScopePrefix_marker scope) as (i & Hi & Hlen).
  unfold Redis.fromRedisKey, Redis.toRedisKey.
  rewrite (index_app ":k:" _ k i) by done.
  rewrite Hi in Hm. apply (inj Some) in Hm.
  rewrite substring_tail_app by lia.
  replace (i + 3)%nat with (String.length (Redis.toScopePrefix scope)) by lia.
  by rewrite Nat.sub_diag, substring_empty.
Qed.

Section RedisSelection.

Variable localeCompare : string -> string -> Z.

Lemma redis_found_selected now store scope options entry :
  string_forall glob_literal (Redis.toScopePrefix scope +:+ default "" (prefix options))
  = true ->
  marker_at_end scope = true ->
  entry ∈ Redis.list_found now store scope options
  <-> (Redis.get now store scope entry.1).1 = Some entry.2
      /\ redis_key_selected options entry.1 = true.
Proof.
  intros Hlit Hm. rewrite redis_found_spec.
  rewrite <- string_app_assoc.
  setoid_rewrite (glob_literal_prefix _ _ Hlit).
  unfold redis_key_selected, Redis.get. split.
  - intros (rk & e & He & (k & -> & Hp)%startsWith_app_inv & Hentry).
    unfold Redis.list_entry in Hentry. cbn [fst snd] in Hentry.
    change (Redis.toScopePrefix scope +:+ k) with (Redis.toRedisKey scope k) in *.
    rewrite (fromRedisKey_toRedisKey scope k Hm) in Hentry.
    destruct k as [| c k]; [done |].
    destruct (Js.truthy (decodeCursor (cursor options))) as [ck |].
    + destruct (Js.leb (String c k) ck) eqn:Hleb; [done |].
      destruct (isExpired (Redis.env_expiresAt e) now) eqn:Hx; [done |].
      injection Hentry as <-. cbn [fst snd]. by rewrite He, Hx, Hp, js_ltb_leb, Hleb.
    + destruct (isExpired (Redis.env_expiresAt e) now) eqn:Hx; [done |].
      injection Hentry as <-. cbn [fst snd]. by rewrite He, Hx, Hp.
  - destruct entry as [k item]. cbn [fst snd].
    intros [Hget [[Hk Hp]%andb_true_iff Hc]%andb_true_iff].
    destruct (store !! Redis.toRedisKey scope k) as [e |] eqn:He; [| done].
    destruct (isExpired (Redis.env_expiresAt e) now) eqn:Hx; [done |].
    injection Hget as <-.
    exists (Redis.toRedisKey scope k), e. split_and!; [done | |].
    + apply startsWith_app_inv. by exists k.
    + unfold Redis.list_entry. cbn [fst snd].
      rewrite (fromRedisKey_toRedisKey scope k Hm).
      destruct k as [| c k]; [done |].
      destruct (Js.truthy (decodeCursor (cursor options))) as [ck |].
      * rewrite js_ltb_leb in Hc. apply negb_true_iff in Hc. by rewrite Hc, Hx.
      * by rewrite Hx.
Qed.

Lemma redis_list_default now store scope options :
  Redis.list localeCompare now store scope options
  = Redis.list localeCompare now store scope
      {| prefix := prefix options; cursor := cursor options;
         limit := Some (default 50 (limit options)) |}.
Proof. done. Qed.

Lemma redis_list_complete now store scope options entry :
  1 <= default 50 (limit options) ->
  nextCursor (Redis.list localeCompare now store scope options) = None ->
  entry ∈ Redis.list_found now store scope options ->
  entry.2 ∈ items (Redis.list localeCompare now store scope options).
Proof.
  intros Hl Hnone Hin.
  rewrite redis_list_default in Hnone |- *.
  set (options' := {| prefix := prefix options; cursor := cursor options;
                      limit := Some (default 50 (limit options)) |}) in *.
  destruct (redis_list_cursor localeCompare now store scope options' _ eq_refl Hl)
    as (Hiff & _).
  destruct (redis_list_items localeCompare now store scope options') as (n & Hitems & Hn).
  change (Redis.list_found now store scope options')
    with (Redis.list_found now store scope options) in *.
  rewrite Hitems in Hiff |- *. apply list_elem_of_fmap. exists entry. split; [done |].
  rewrite take_ge; [by rewrite sort_Permutation |].
  rewrite length_fmap, length_take in Hiff.
  pose proof (Permutation_length
                (sort_Permutation (λ left right : string * StoredItem,
                                     localeCompare left.1 right.1 <=? 0)
                   (Redis.list_found now store scope options))) as Hlen.
  destruct (decide (n < length (Redis.list_found now store scope options))%nat)
    as [Hlt | Hge]; [| lia].
  exfalso. rewrite Hnone in Hiff. apply (is_Some_None (A := string)), Hiff. lia.
Qed.

End RedisSelection.

(** X23.  A page of the key-value adapter agrees with [get], on a scope
    that the adapter reads back.  When the scope prefix and the prefix
    of the request hold no character that the glob of [SCAN] reads
    specially ([*], [?], [[] or the backslash) and the scope prefix has
    no [:k:] before its end, every item of a page is, whole, what [get]
    returns for its key at that instant, and its key is not empty, has
    the prefix and comes after the cursor in the order of the UTF-16
    code units, which is how the source compares strings; the page has
    at most [limit] items (by default [50]); and when a page of a limit
    of at least [1] has no next cursor, every item that [get] returns
    for such a key is on the page. *)
Theorem X23_redis_list_is_get :
  forall (localeCompare : string -> string -> Z) (now : Timestamp)
         (store : gmap string Redis.RedisEnvelope) (scope : StorageScope)
         (options : ListOptions),
    string_forall glob_literal (Redis.toScopePrefix scope +:+ default "" (prefix options))
    = true ->
    marker_at_end scope = true ->
    let r := Redis.list localeCompare now store scope options in
    let l := default 50 (limit options) in
    (0 <= l -> (length (items r) <= Z.to_nat l)%nat)
    /\ (forall item, item ∈ items r ->
          (Redis.get now store scope (key item)).1 = Some item
          /\ redis_key_selected options (key item) = true)
    /\ (1 <= l -> nextCursor r = None ->
        forall k item,
          (Redis.get now store scope k).1 = Some item ->
          redis_key_selected options k = true ->
          item ∈ items r).
Proof.
  intros localeCompare now store scope options Hlit Hm r l. subst r l. split_and!.
  - intros Hl.
    destruct (redis_list_items localeCompare now store scope options) as (n & -> & Hn).
    rewrite length_fmap, length_take, (Hn Hl). lia.
  - intros item (entry & Hin & ->)%redis_list_elem.
    pose proof Hin as Hfound.
    apply (redis_found_selected now store scope options entry Hlit Hm) in Hin as [Hget Hsel].
    apply redis_found_spec in Hfound as (rk & e & _ & _ & Hentry).
    apply redis_list_entry_key in Hentry as (Hkey & _). by rewrite Hkey.
  - intros Hl Hnone k item Hget Hsel.
    apply (redis_list_complete localeCompare now store scope options (k, item) Hl Hnone).
    by apply (redis_found_selected now store scope options (k, item) Hlit Hm).
Qed.

(** X23 on three keys, one of them expired, listed by prefix. *)
Lemma X23_redis_list_is_get_witness :
  let scope := mkScope "default" "ns" "u1" in
  let store :=
    (Redis.batchPut 0 ∅ scope
       [mkEntry "user:1" "1" None None; mkEntry "user:2" "2" (Some 1) None;
        mkEntry "other" "3" None None]).2 in
  let options := mkListOptions (Some "user:") None None in
  let page := Redis.list Collation.localeCompare 5000 store scope options in
  key <$> items page = ["user:1"]
  /\ (Redis.get 5000 store scope "user:1").1 = head (items page).
Proof.
  intros scope store options page.
  assert (key <$> items page = ["user:1"]) as Hkeys by (vm_compute; reflexivity).
  split; [exact Hkeys |].
  destruct (X23_redis_list_is_get Collation.localeCompare 5000 store scope options
              eq_refl eq_refl) as (_ & Hsound & _).
  fold page in Hsound.
  destruct (items page) as [| item [| ? ?]]; try discriminate Hkeys.
  injection Hkeys as Hkey. simpl head.
  destruct (Hsound item) as [Hget _]; [by left |].
  by rewrite Hkey in Hget.
Defined.

(** The two orders part above the basic plane: after the cursor of the
    key U+1F600 (four bytes, a pair of surrogates) the key-value adapter
    lists the key U+E000 (three bytes, one code unit above the
    surrogates), which the byte order of the SQL adapters puts before
    the cursor. *)
Example redis_list_code_units :
  let scope := mkScope "default" "ns" "u1" in
  let face := string_of_list_ascii (ascii_of_N <$> [240; 159; 152; 128]%N) in
  let private := string_of_list_ascii (ascii_of_N <$> [238; 128; 128]%N) in
  let entries := [mkEntry face "1" None None; mkEntry private "2" None None] in
  let store := (Redis.batchPut 0 ∅ scope entries).2 in
  let table := (Sql.batchPut 0 ∅ scope entries).2 in
  let options := mkListOptions None (Some (encodeCursor face)) None in
  key <$> items (Redis.list Collation.localeCompare 1 store scope options) = [private]
  /\ items (Sql.list Sql.sqlite_like 1 table scope options) = []
  /\ genuine_cursor (cursor options) = true.
Proof. by split_and!; vm_compute. Qed.

(* ================================================================== *)
(** * The prefix of [list] on SQLite *)

Lemma like_any text : Sql.like_chars ["%"%char] text = true.
Proof.
  cbn [Sql.like_chars]. rewrite bool_decide_eq_true_2 by done.
  induction text as [| c text IH]; [done |]. simpl. apply IH.
Qed.

Lemma like_chars_literal (p text : string) :
  string_forall like_literal p = true ->
  Sql.like_chars (list_ascii_of_string p ++ ["%"%char]) (list_ascii_of_string text)
  = startsWith_nocase text p.
Proof.
  revert text. induction p as [| a p IH]; intros text Hlit.
  - apply like_any.
  - simpl in Hlit. apply andb_true_iff in Hlit as [Ha Hlit].
    unfold like_literal in Ha. apply andb_true_iff in Ha as [Hpc Hus].
    apply negb_true_iff, bool_decide_eq_false in Hpc, Hus.
    cbn [list_ascii_of_string app Sql.like_chars].
    rewrite (bool_decide_eq_false_2 (a = "%"%char)) by done.
    destruct text as [| c text]; [done |].
    cbn [list_ascii_of_string startsWith_nocase].
    rewrite (bool_decide_eq_false_2 (a = "_"%char)) by done.
    by rewrite IH.
Qed.

Lemma sqlite_like_prefix (p k : string) :
  string_forall like_literal p = true ->
  Sql.sqlite_like k (p +:+ "%") = startsWith_nocase k p.
Proof.
  intros Hlit. unfold Sql.sqlite_like. rewrite list_ascii_of_string_app.
  by apply like_chars_literal.
Qed.

Lemma startsWith_nocase_startsWith (k p : string) :
  startsWith k p = true -> startsWith_nocase k p = true.
Proof.
  revert k. induction p as [| a p IH]; intros [| c k]; simpl; try done.
  intros [->%bool_decide_eq_true Hp]%andb_true_iff.
  rewrite bool_decide_eq_true_2 by done. by apply IH.
Qed.

(** X24.  The prefix of [list] on SQLite.  With SQLite's [LIKE], a
    prefix without [%] and [_] selects the keys that start with it when
    ASCII letters are compared without regard to case: every key that
    starts with the prefix is selected, and so is a key that differs
    from it in the case of letters only.  Every item of a page listed
    with such a prefix has a key that starts with it in this sense, and
    the page of a limit of at least [1] without next cursor holds every
    active item of the scope whose key does and comes after the
    cursor. *)
Theorem X24_sqlite_prefix :
  forall (now : Timestamp) (table : gmap Sql.PK Sql.Cols) (scope : StorageScope)
         (options : ListOptions) (p : string),
    prefix options = Some p -> p <> "" ->
    string_forall like_literal p = true ->
    let r := Sql.list Sql.sqlite_like now table scope options in
    (forall k, Sql.sqlite_like k (p +:+ "%") = startsWith_nocase k p)
    /\ (forall k, startsWith k p = true -> Sql.sqlite_like k (p +:+ "%") = true)
    /\ (forall item, item ∈ items r -> startsWith_nocase (key item) p = true)
    /\ (1 <= default 50 (limit options) -> nextCursor r = None ->
        forall k item,
          Sql.get now table scope k = Some item ->
          startsWith_nocase k p = true ->
          match Js.truthy (decodeCursor (cursor options)) with
          | Some c => String.ltb c k = true
          | None => True
          end ->
          item ∈ items r).
Proof.
  intros now table scope options p Hp Hne Hlit r. subst r.
  assert (forall k, key_selected Sql.sqlite_like options k
                    = startsWith_nocase k p
                      && match Js.truthy (decodeCursor (cursor options)) with
                         | Some c => String.ltb c k
                         | None => true
                         end) as Hsel.
  { intros k. unfold key_selected. rewrite Hp, (truthy_nonempty p Hne).
    by rewrite sqlite_like_prefix. }
  split_and!.
  - intros k. by apply sqlite_like_prefix.
  - intros k Hk. rewrite sqlite_like_prefix by done.
    by apply startsWith_nocase_startsWith.
  - intros item.
    destruct (sql_list_items Sql.sqlite_like now table scope options) as (n & -> & _).
    intros (row & -> & Hrow%elem_of_take_in)%list_elem_of_fmap.
    apply sql_matching_get in Hrow as (_ & _ & Hrow).
    rewrite Hsel in Hrow. by apply andb_true_iff in Hrow as [Hrow _].
  - intros Hl Hnone k item Hget Hk Hc.
    apply (sql_list_complete Sql.sqlite_like now table scope options k); try done.
    rewrite Hsel, Hk. simpl.
    by destruct (Js.truthy (decodeCursor (cursor options))).
Qed.

(** X24 on the prefix [user:]: the key [USER:1] is selected. *)
Lemma X24_sqlite_prefix_witness :
  Sql.sqlite_like "USER:1" "user:%" = true
  /\ Sql.sqlite_like "user:1" "user:%" = true.
Proof.
  assert ("user:" <> "") as Hne by discriminate.
  destruct (X24_sqlite_prefix 0 ∅ (mkScope "default" "ns" "u1")
              (mkListOptions (Some "user:") None None) "user:" eq_refl Hne eq_refl)
    as (Hlike & Hstarts & _).
  split.
  - exact (Hlike "USER:1").
  - apply (Hstarts "user:1"). reflexivity.
Defined.

(* ================================================================== *)
(** * Reading back through the service *)








(* ================================================================== *)
(** * The next cursor and what lies beyond the page *)

Lemma NoDup_omap_inj {A B} (f : A -> option B) (l : list A) :
  (forall x y z, x ∈ l -> y ∈ l -> f x = Some z -> f y = Some z -> x = y) ->
  NoDup l -> NoDup (omap f l).
Proof.
  intros Hinj Hnd. induction Hnd as [| x l Hx Hnd IH]; [constructor |].
  simpl. destruct (f x) as [z |] eqn:Hfx.
  - constructor.
    + intros (y & Hy & Hfy)%list_elem_of_omap. apply Hx.
      rewrite (Hinj x y z); [done | by left | by right | done | done].
    + apply IH. intros a b c Ha Hb. apply Hinj; by right.
  - apply IH. intros a b c Ha Hb. apply Hinj; by right.
Qed.

Section SqlBeyond.

Variable like : string -> string -> bool.

Implicit Types (table : gmap Sql.PK Sql.Cols) (row : Sql.Row).

(** An item that [get] returns for a key passing the filters and that is
    not on the page has its key after every key of the page. *)
Lemma sql_off_page_beyond now table scope options l k item :
  limit options = Some l -> 1 <= l ->
  Sql.get now table scope k = Some item ->
  key_selected like options k = true ->
  item ∉ items (Sql.list like now table scope options) ->
  Forall (λ x, String.ltb (key x) k = true) (items (Sql.list like now table scope options)).
Proof.
  intros Hl Hl1 Hget Hsel Hoff.
  destruct (sql_list_cursor like now table scope options l Hl Hl1) as (Hitems & _).
  rewrite Hitems in Hoff |- *.
  set (m := Sql.list_matching like now table scope options) in *.
  pose proof (sql_list_matching_sorted like now table scope options) as Hsorted.
  fold m in Hsorted.
  destruct (sql_get_row_item now table scope k item Hget) as (row & Hrow & -> & <-).
  assert (row ∈ m) as Hin by (by apply sql_matching_get).
  rewrite <- (take_drop (Z.to_nat l) m) in Hin, Hsorted.
  apply elem_of_app in Hin as [Hin | Hin].
  { destruct Hoff. apply list_elem_of_fmap. by exists row. }
  apply Forall_fmap, Forall_forall. intros x Hx. simpl.
  by apply (StronglySorted_app_1_elem_of _ _ _ x row Hsorted).
Qed.

(** The cursor is there iff [get] returns, for a key that passes the
    filters, an item that is not on the page. *)
Lemma sql_next_cursor_get now table scope options l :
  limit options = Some l -> 1 <= l ->
  let r := Sql.list like now table scope options in
  is_Some (nextCursor r)
  <-> exists k item,
        Sql.get now table scope k = Some item
        /\ key_selected like options k = true
        /\ item ∉ items r.
Proof.
  intros Hl Hl1 r. split.
  - intros Hnext.
    destruct (sql_list_cursor like now table scope options l Hl Hl1) as (Hitems & Hiff & _).
    fold r in Hitems, Hiff. apply Hiff in Hnext.
    rewrite Hitems, length_fmap, length_take in Hnext.
    set (m := Sql.list_matching like now table scope options) in *.
    pose proof (sql_list_matching_sorted like now table scope options) as Hsorted.
    fold m in Hsorted.
    destruct (lookup_lt_is_Some_2 m (Z.to_nat l)) as [row Hrow]; [lia |].
    assert (row ∈ m) as Hin by (by eapply list_elem_of_lookup_2).
    apply sql_matching_get in Hin as (Hget & _ & Hsel).
    exists (Sql.pk_key row.1), (Sql.toStoredItem row). split_and!; [done | done |].
    rewrite Hitems. intros (row' & Heq & Hin')%list_elem_of_fmap.
    rewrite <- (take_drop (Z.to_nat l) m) in Hsorted.
    assert (String.ltb (Sql.pk_key row'.1) (Sql.pk_key row.1) = true) as Hlt.
    { apply (StronglySorted_app_1_elem_of _ _ _ row' row Hsorted Hin').
      apply list_elem_of_lookup. exists 0%nat. by rewrite lookup_drop, Nat.add_0_r. }
    apply (f_equal key) in Heq. simpl in Heq. rewrite Heq in Hlt.
    by apply string_ltb_irrefl in Hlt.
  - intros (k & item & Hget & Hsel & Hoff).
    destruct (nextCursor r) as [c |] eqn:Hnext; [done |]. destruct Hoff.
    apply (sql_list_complete like now table scope options k); try done.
    rewrite Hl. simpl. lia.
Qed.

End SqlBeyond.

Section RedisBeyond.

Variable localeCompare : string -> string -> Z.

Implicit Types (store : gmap string Redis.RedisEnvelope).

(** A record that the scan keeps is the record of the key it is listed
    under. *)
Lemma redis_found_record now store scope options rk e entry :
  string_forall glob_literal (Redis.toScopePrefix scope +:+ default "" (prefix options))
  = true ->
  marker_at_end scope = true ->
  Redis.glob (Redis.toScopePrefix scope +:+ default "" (prefix options) +:+ "*") rk = true ->
  Redis.list_entry now (decodeCursor (cursor options)) (rk, e) = Some entry ->
  rk = Redis.toRedisKey scope entry.1.
Proof.
  intros Hlit Hm Hglob Hentry.
  rewrite <- string_app_assoc, (glob_literal_prefix _ _ Hlit) in Hglob.
  apply startsWith_app_inv in Hglob as (k & -> & _).
  unfold Redis.list_entry in Hentry. cbn [fst snd] in Hentry.
  change (Redis.toScopePrefix scope +:+ k) with (Redis.toRedisKey scope k) in *.
  rewrite (fromRedisKey_toRedisKey scope k Hm) in Hentry.
  destruct k as [| c k]; [done |].
  destruct (match Js.truthy _ with Some _ => _ | None => false end); [done |].
  destruct (isExpired _ _); [done |]. by injection Hentry as <-.
Qed.

(** No item is found twice. *)
Lemma redis_found_NoDup now store scope options :
  string_forall glob_literal (Redis.toScopePrefix scope +:+ default "" (prefix options))
  = true ->
  marker_at_end scope = true ->
  NoDup (snd <$> Redis.list_found now store scope options).
Proof.
  intros Hlit Hm. apply NoDup_fmap_2_strong.
  - intros [k1 item1] [k2 item2] H1 H2. simpl. intros <-.
    apply redis_found_spec in H1 as (? & ? & _ & _ & H1).
    apply redis_found_spec in H2 as (? & ? & _ & _ & H2).
    apply redis_list_entry_key in H1 as (H1 & _).
    apply redis_list_entry_key in H2 as (H2 & _).
    simpl in H1, H2. by rewrite <- H1, <- H2.
  - unfold Redis.list_found. apply NoDup_omap_inj.
    + intros [rk1 e1] [rk2 e2] entry
        [Hg1 Hin1]%list_elem_of_filter [Hg2 Hin2]%list_elem_of_filter He1 He2.
      simpl in Hg1, Hg2.
      apply (redis_found_record now store scope options rk1 e1 entry Hlit Hm Hg1) in He1.
      apply (redis_found_record now store scope options rk2 e2 entry Hlit Hm Hg2) in He2.
      subst rk1 rk2.
      apply elem_of_map_to_list in Hin1, Hin2. congruence.
    + apply NoDup_filter, NoDup_map_to_list.
Qed.

(** The cursor is there iff [get] returns, for a key that passes the
    filters, an item that is not on the page. *)
Lemma redis_next_cursor_get now store scope options l :
  limit options = Some l -> 1 <= l ->
  string_forall glob_literal (Redis.toScopePrefix scope +:+ default "" (prefix options))
  = true ->
  marker_at_end scope = true ->
  let r := Redis.list localeCompare now store scope options in
  is_Some (nextCursor r)
  <-> exists k item,
        (Redis.get now store scope k).1 = Some item
        /\ redis_key_selected options k = true
        /\ item ∉ items r.
Proof.
  intros Hl Hl1 Hlit Hm r. split.
  - intros Hnext.
    destruct (redis_list_cursor localeCompare now store scope options l Hl Hl1)
      as (Hiff & _).
    fold r in Hiff. apply Hiff in Hnext.
    set (m := Redis.list_found now store scope options) in *.
    destruct (decide (Forall (λ entry, entry.2 ∈ items r) m)) as [Hall | Hsome].
    + exfalso.
      pose proof (redis_found_NoDup now store scope options Hlit Hm) as Hnd. fold m in Hnd.
      assert (snd <$> m ⊆+ items r) as Hsub.
      { apply NoDup_submseteq; [done |].
        intros item (entry & -> & Hin)%list_elem_of_fmap.
        rewrite Forall_forall in Hall. by apply Hall. }
      apply submseteq_length in Hsub. rewrite length_fmap in Hsub. lia.
    + apply not_Forall_Exists in Hsome; [| intros entry; apply _].
      apply Exists_exists in Hsome as ([k item] & Hin & Hoff). simpl in Hoff.
      apply (redis_found_selected now store scope options (k, item) Hlit Hm) in Hin
        as [Hget Hsel].
      by exists k, item.
  - intros (k & item & Hget & Hsel & Hoff).
    destruct (nextCursor r) as [c |] eqn:Hnext; [done |]. destruct Hoff.
    apply (redis_list_complete localeCompare now store scope options (k, item));
      [rewrite Hl; simpl; lia | done |].
    by apply (redis_found_selected now store scope options (k, item) Hlit Hm).
Qed.

End RedisBeyond.

(** C6 (amended).  For a [list] with a limit of at least [1], whose
    cursor is absent or is the cursor of a well-formed key: [nextCursor]
    is non-null iff [get] returns, at that instant, an item of the scope
    whose key passes the prefix and cursor filters of the request and
    which is not on the page (on the SQL adapters such an item has its
    key after every key of the page; on the key-value adapter this is
    said for scopes and prefixes that the scan reads literally and back);
    [nextCursor] then encodes the key of the last item of the page; and,
    when that key is not empty (the key-value adapter never lists an
    empty key, the service never stores one), any later [list] with that
    cursor returns only items whose key is strictly greater than that
    key: in byte order on the SQL adapters, in the order of the UTF-16
    code units on the key-value adapter. *)
Theorem C6_next_cursor :
  forall (like : string -> string -> bool) (localeCompare : string -> string -> Z)
         (now : Timestamp) (table : gmap Sql.PK Sql.Cols)
         (store : gmap string Redis.RedisEnvelope) (scope : StorageScope)
         (options : ListOptions) (l : Z),
    limit options = Some l -> 1 <= l ->
    genuine_cursor (cursor options) = true ->
    let page := Sql.list like now table scope options in
    let redis_page := Redis.list localeCompare now store scope options in
    (is_Some (nextCursor page)
     <-> exists k item,
           Sql.get now table scope k = Some item
           /\ key_selected like options k = true
           /\ item ∉ items page)
    /\ (forall k item,
          Sql.get now table scope k = Some item ->
          key_selected like options k = true ->
          item ∉ items page ->
          Forall (λ x, String.ltb (key x) k = true) (items page))
    /\ (string_forall glob_literal
          (Redis.toScopePrefix scope +:+ default "" (prefix options)) = true ->
        marker_at_end scope = true ->
        is_Some (nextCursor redis_page)
        <-> exists k item,
              (Redis.get now store scope k).1 = Some item
              /\ redis_key_selected options k = true
              /\ item ∉ items redis_page)
    /\ (forall c, nextCursor page = Some c ->
          exists item, last (items page) = Some item
            /\ c = encodeCursor (key item)
            /\ (key item <> "" ->
                forall like' now' table' scope' options' x,
                  cursor options' = Some c ->
                  x ∈ items (Sql.list like' now' table' scope' options') ->
                  String.ltb (key item) (key x) = true))
    /\ (forall c, nextCursor redis_page = Some c ->
          exists item, last (items redis_page) = Some item
            /\ c = encodeCursor (key item)
            /\ key item <> ""
            /\ forall localeCompare' now' store' scope' options' x,
                 cursor options' = Some c ->
                 x ∈ items (Redis.list localeCompare' now' store' scope' options') ->
                 Js.ltb (key item) (key x) = true).
Proof.
  intros like localeCompare now table store scope options l Hl Hl1 _ page redis_page.
  destruct (sql_list_cursor like now table scope options l Hl Hl1) as (_ & _ & Hnext).
  destruct (redis_list_cursor localeCompare now store scope options l Hl Hl1)
    as (_ & Hnext').
  fold page in Hnext. fold redis_page in Hnext'.
  split_and!.
  - by apply (sql_next_cursor_get like now table scope options l).
  - intros k item. by apply (sql_off_page_beyond like now table scope options l).
  - intros Hlit Hm.
    by apply (redis_next_cursor_get localeCompare now store scope options l).
  - intros c Hc. rewrite Hnext in Hc.
    destruct (decide (length (items page)
                      < length (Sql.list_matching like now table scope options))%nat);
      [| done].
    destruct (last (items page)) as [item |]; [| done].
    injection Hc as <-. exists item. split_and!; [done | done |].
    intros Hne like' now' table' scope' options' x Hcur Hx.
    apply (sql_list_after_cursor like' now' table' scope' options'); try done.
    rewrite Hcur. by apply decodeCursor_encodeCursor.
  - intros c Hc. rewrite Hnext' in Hc.
    destruct (decide (length (items redis_page)
                      < length (Redis.list_found now store scope options))%nat); [| done].
    destruct (last (items redis_page)) as [item |] eqn:Hlast; [| done].
    injection Hc as <-. exists item.
    assert (key item <> "") as Hne.
    { apply last_Some_elem_of in Hlast.
      by apply redis_list_key_nonempty in Hlast. }
    split_and!; [done | done | done |].
    intros localeCompare' now' store' scope' options' x Hcur Hx.
    apply (redis_list_after_cursor localeCompare' now' store' scope' options'); try done.
    rewrite Hcur. by apply decodeCursor_encodeCursor.
Qed.

(** C6 on the keys [a], [b], [c], [d] with limit [2]: the page [a], [b]
    with the cursor of [b], then the page [c], [d] without a cursor. *)
Lemma C6_next_cursor_witness :
  let scope := mkScope "default" "ns" "u1" in
  let entries :=
    [mkEntry "a" "1" None None; mkEntry "b" "2" None None;
     mkEntry "c" "3" None None; mkEntry "d" "4" None None] in
  let table := (Sql.batchPut 0 ∅ scope entries).2 in
  let store := (Redis.batchPut 0 ∅ scope entries).2 in
  let first := mkListOptions None None (Some 2) in
  let page1 := Sql.list Sql.sqlite_like 1 table scope first in
  let redis_page1 := Redis.list Collation.localeCompare 1 store scope first in
  (is_Some (nextCursor page1) /\ is_Some (nextCursor redis_page1))
  /\ (key <$> items page1 = ["a"; "b"] /\ key <$> items redis_page1 = ["a"; "b"])
  /\ (nextCursor page1 = Some (encodeCursor "b")
      /\ nextCursor redis_page1 = Some (encodeCursor "b"))
  /\ (let page2 :=
        Sql.list Sql.sqlite_like 1 table scope (mkListOptions None (nextCursor page1) (Some 2)) in
      key <$> items page2 = ["c"; "d"] /\ nextCursor page2 = None).
Proof.
  intros scope entries table store first page1 redis_page1.
  assert (1 <= 2) as Hl by lia.
  destruct (C6_next_cursor Sql.sqlite_like Collation.localeCompare 1 table store scope
              first 2 eq_refl Hl eq_refl) as (Hsql & _ & Hredis & _).
  pose (c := mkItem "c" "3" 1 (etagFromVersion 1) 0 0 None).
  split_and!.
  - apply Hsql. exists "c", c. split_and!; [by vm_compute | done |].
    intros Hin. apply (list_elem_of_fmap_2 key) in Hin. revert Hin.
    replace (key <$> items page1) with ["a"; "b"] by (by vm_compute).
    simpl. rewrite !elem_of_cons, elem_of_nil. by intros [? | [? | []]].
  - apply Hredis; [reflexivity | reflexivity |].
    exists "c", c. split_and!; [by vm_compute | done |].
    intros Hin. apply (list_elem_of_fmap_2 key) in Hin. revert Hin.
    replace (key <$> items redis_page1) with ["a"; "b"] by (by vm_compute).
    simpl. rewrite !elem_of_cons, elem_of_nil. by intros [? | [? | []]].
  - vm_compute. reflexivity.
  - vm_compute. reflexivity.
  - vm_compute. reflexivity.
  - vm_compute. reflexivity.
  - split; vm_compute; reflexivity.
Defined.

(** C6 as stated fails in two places, both at the adapter.  With limit
    [0] the page is empty and [nextCursor] is null although [get] returns
    an item of the scope, which no filter excludes and which is beyond
    the page.  With the empty key as the last key of a page, the cursor
    is the empty string, which the next [list] reads as no cursor: it
    returns the empty key again, not only greater keys. *)
Lemma C6_counterexample :
  let scope := mkScope "default" "ns" "u1" in
  let table := (Sql.put 0 ∅ scope "a" "1" (mkPutOptions None None)).2 in
  let store := (Redis.put 0 ∅ scope "a" "1" (mkPutOptions None None)).2 in
  let none := mkListOptions None None (Some 0) in
  let table' := (Sql.put 0 table scope "" "2" (mkPutOptions None None)).2 in
  let page := Sql.list Sql.sqlite_like 1 table' scope (mkListOptions None None (Some 1)) in
  (nextCursor (Sql.list Sql.sqlite_like 1 table scope none) = None
   /\ items (Sql.list Sql.sqlite_like 1 table scope none) = []
   /\ key <$> Sql.get 1 table scope "a" = Some "a"
   /\ key_selected Sql.sqlite_like none "a" = true)
  /\ (nextCursor (Redis.list Collation.localeCompare 1 store scope none) = None
      /\ items (Redis.list Collation.localeCompare 1 store scope none) = []
      /\ key <$> (Redis.get 1 store scope "a").1 = Some "a"
      /\ redis_key_selected none "a" = true)
  /\ (key <$> items page = [""]
      /\ nextCursor page = Some ""
      /\ key <$> items (Sql.list Sql.sqlite_like 1 table' scope
                          (mkListOptions None (nextCursor page) (Some 1))) = [""]).
Proof. by split_and!; vm_compute. Qed.
